(** * oniryk-xlsx: a shallow embedding of the streaming XLSX writer

    The development follows the TypeScript sources file by file:
    - [column.ts]          the column-letter helper [columnName];
    - [utils.ts]           [escapeXML], [convertToExcelDate], the promised writer;
    - [shared-strings.ts]  the string table [SharedStrings];
    - [sheet.ts]           the worksheet encoder [Sheet];
    - [packing.ts]         the assembler [Package].

    Conventions.  A JavaScript string is a [string] of code units (the code
    units that matter to the regular expressions of [escapeXML] are all below
    256).  Integer-valued numbers (indices, lengths, row numbers, time values)
    are in [Z] or [nat]; the numbers [convertToExcelDate] computes with are
    doubles, each a rational in [Q], and every operation on them rounds its
    exact result to the nearest double.  An output stream is the list of the chunks written
    to it, in order; the content of the file is their concatenation.  The
    shared string table is one mutable object referenced by the sheet and by
    the package: it is threaded explicitly through every operation that can
    touch it. *)

From Stdlib Require Import ZArith QArith Qround Qpower Lqa Ascii String DecimalString.
From Equations Require Import Equations.
From stdpp Require Import gmap strings list.

Open Scope Z_scope.

(** The unfolding lemmas of the loops defined by well-founded recursion are
    proved without functional extensionality. *)
Unset Equations With Funext.

(** ** Host environment *)

(** What the JavaScript host provides and the repository does not define:
    the IEEE numbers a cell may hold together with their [toString] (the text
    a template literal interpolates), and the offset of local time from UTC
    at the spreadsheet epoch, in milliseconds. *)
Class Runtime := {
  number : Type;
  Number_toString : number -> string;
  LocalTZA : Z
}.

(** The fixed XML parts whose generators live in [templates/base-rels],
    [templates/content-type] and [templates/workbook]: static strings. *)
Class Templates := {
  getBaseRels : string;
  getContentTypes : string;
  getWorkbookXML : string;
  getWorkbookRels : string
}.

(** ** Strings *)

(** The double quote and the line feed, as one-character strings. *)
Definition dq : string := String (ascii_of_nat 34) "".
Definition nl : string := String (ascii_of_nat 10) "".

(** [Array.prototype.join('')]. *)
Definition join (chunks : list string) : string := foldr append "" chunks.

(** [toString] of an integer-valued number (below 1e21 in magnitude). *)
Definition Z_toString (z : Z) : string := NilZero.string_of_int (Z.to_int z).

(** [String.fromCharCode] on a code below 256. *)
Definition fromCharCode (n : Z) : ascii := ascii_of_N (Z.to_N n).

(** [String.prototype.replace] with a global regular expression made of one
    character class: every character of the class is replaced by what the
    replacer returns for it, the others are kept. *)
Fixpoint replace_class (class : ascii -> bool) (replacer : ascii -> string)
    (value : string) : string :=
  match value with
  | EmptyString => EmptyString
  | String char rest =>
      (if class char then replacer char else String char EmptyString)
        +:+ replace_class class replacer rest
  end.

(** ** column.ts *)

(** The [while (index >= 0)] loop of [columnName], with [column] as the
    accumulator.  [%] is the remainder [Z.rem], [Math.floor(index / 26)] is
    [Z.div]. *)
Equations? columnName_loop (index : Z) (column : string) : string
  by wf (Z.to_nat (index + 1)) lt :=
  columnName_loop index column with decide (0 <= index) => {
    | left _ := columnName_loop (index / 26 - 1)
                  (String (fromCharCode (65 + Z.rem index 26)) column);
    | right _ := column }.
Proof.
  assert (index / 26 <= index) by (apply Z.div_le_upper_bound; lia). lia.
Qed.

Definition columnName (index : Z) : string := columnName_loop index "".

(** ** utils.ts *)

(** The object [entities]: a property lookup that finds nothing is
    [undefined], here [None]. *)
Definition entities (char : ascii) : option string :=
  if Ascii.eqb char "&" then Some "&amp;"
  else if Ascii.eqb char "<" then Some "&lt;"
  else if Ascii.eqb char ">" then Some "&gt;"
  else if Ascii.eqb char (ascii_of_nat 34) then Some "&quot;"
  else if Ascii.eqb char "'" then Some "&apos;"
  else None.

(** The string a replacer's result is coerced to. *)
Definition ToString (v : option string) : string :=
  match v with
  | Some s => s
  | None => "undefined"
  end.

(** The first class: the codes 0x00 to 0x1F, and 0x7F. *)
Definition control_class (char : ascii) : bool :=
  let code := N_of_ascii char in
  (code <=? 31)%N || (code =? 127)%N.

(** The second class: ampersand, less-than, greater-than, double quote,
    apostrophe and backslash. *)
Definition special_class (char : ascii) : bool :=
  Ascii.eqb char "&" || Ascii.eqb char "<" || Ascii.eqb char ">"
  || Ascii.eqb char (ascii_of_nat 34) || Ascii.eqb char "'"
  || Ascii.eqb char (ascii_of_nat 92).

(** [escapeXML] on a string (any other value is returned as it is). *)
Definition escapeXML (value : string) : string :=
  replace_class special_class (fun char => ToString (entities char))
    (replace_class control_class (fun _ => "?") value).

(** *** Numbers *)

(** The arithmetic of the host on finite doubles (IEEE 754 binary64, round
    to nearest, ties to even).  A finite double is the rational it stands
    for; the two zeros are one.  No value met below comes near the largest
    double, beyond which the host gives an infinity. *)
Module Binary64.

(** The binary exponent of a positive rational: [2 ^ e <= x < 2 ^ (e + 1)]. *)
Definition exponent (x : Q) : Z :=
  let e := Z.log2 (Qnum x) - Z.log2 (Zpos (Qden x)) in
  if Qle_bool (2 ^ e) x then e else e - 1.

(** The nearest integer, a tie going to the even one. *)
Definition nearest_even (x : Q) : Z :=
  let f := Qfloor x in
  match (x - inject_Z f ?= 1 # 2)%Q with
  | Lt => f
  | Gt => f + 1
  | Eq => if Z.even f then f else f + 1
  end.

(** The double nearest to a positive rational: 53 significant bits, the
    last one worth [2 ^ (e - 52)], and never less than [2 ^ (-1074)], the
    spacing of the subnormal numbers. *)
Definition round_magnitude (x : Q) : Q :=
  let ulp := (2 ^ (Z.max (exponent x) (-1022) - 52))%Q in
  (inject_Z (nearest_even (x / ulp)) * ulp)%Q.

(** The double nearest to a rational: sign and magnitude. *)
Definition round (x : Q) : Q :=
  match (x ?= 0)%Q with
  | Eq => 0%Q
  | Gt => round_magnitude x
  | Lt => (- round_magnitude (- x))%Q
  end.

(** The operators [-], [*] and [/]: the exact result, rounded. *)
Definition subtract (x y : Q) : Q := round (x - y).
Definition multiply (x y : Q) : Q := round (x * y).
Definition divide (x y : Q) : Q := round (x / y).

(** [Number::toString] in radix 10.  First the decimal exponent [n] of a
    positive double, [10 ^ (n - 1) <= x < 10 ^ n], looked for from the
    bottom of the range of the doubles. *)
Fixpoint first_power_above (x : Q) (n : Z) (fuel : nat) : Z :=
  match fuel with
  | O => n
  | S fuel' =>
      if Qle_bool (10 ^ n) x then first_power_above x (n + 1) fuel' else n
  end.

Definition decimal_exponent (x : Q) : Z := first_power_above x (-330) 660.

(** Then the digits: the least number [k] of digits, from [start] on, for
    which some integer [s] makes [s * 10 ^ (n - k)] a decimal that reads
    back as [x], and that [s], the one nearest to [x], the even one of two.
    Seventeen digits always do. *)
Fixpoint shortest (fuel : nat) (start n : Z) (x : Q) : Z * Z :=
  let s := nearest_even (x * 10 ^ (start - n)) in
  match fuel with
  | O => (s, start)
  | S fuel' =>
      if Qeq_bool (round (inject_Z s * 10 ^ (n - start))) x then (s, start)
      else shortest fuel' (start + 1) n x
  end.

(** The last [count] decimal digits of an integer, most significant
    first. *)
Fixpoint digits (count : nat) (z : Z) : string :=
  match count with
  | O => ""
  | S count' =>
      String (fromCharCode (48 + z / 10 ^ Z.of_nat count' mod 10)) (digits count' z)
  end.

(** Last the notation, for the [k] digits of [s] and the exponent [n]: the
    digits followed by zeros, the digits around a point, the digits after
    [0.] and zeros, or the exponential notation. *)
Definition format (s k n : Z) : string :=
  if (k <=? n) && (n <=? 21) then Z_toString (s * 10 ^ (n - k))
  else if (0 <? n) && (n <=? 21) then
    Z_toString (s / 10 ^ (k - n)) +:+ "." +:+ digits (Z.to_nat (k - n)) s
  else if (-6 <? n) && (n <=? 0) then
    "0." +:+ digits (Z.to_nat (k - n)) s
  else
    (if k =? 1 then Z_toString s
     else Z_toString (s / 10 ^ (k - 1)) +:+ "." +:+ digits (Z.to_nat (k - 1)) s)
      +:+ "e" +:+ (if n - 1 <? 0 then "-" else "+") +:+ Z_toString (Z.abs (n - 1)).

(** A decimal that reaches the next power of ten is written with the
    digit 1 and the next exponent. *)
Definition positive_toString (x : Q) : string :=
  let n := decimal_exponent x in
  let '(s, k) := shortest 16 1 n x in
  if s =? 10 ^ k then format (10 ^ (k - 1)) k (n + 1) else format s k n.

Definition toString (x : Q) : string :=
  match (x ?= 0)%Q with
  | Eq => "0"
  | Gt => positive_toString x
  | Lt => "-" +:+ positive_toString (- x)
  end.

End Binary64.

(** *** Dates *)

(** [DayFromYear], the cumulative month table and [MakeDay] of ECMAScript,
    for a month in 0..11: the day number of a calendar date, day 0 being
    1 January 1970. *)
Definition DayFromYear (y : Z) : Z :=
  365 * (y - 1970) + (y - 1969) / 4 - (y - 1901) / 100 + (y - 1601) / 400.

Definition InLeapYear (y : Z) : bool :=
  ((y mod 4 =? 0) && negb (y mod 100 =? 0)) || (y mod 400 =? 0).

Definition DaysBeforeMonth (y month : Z) : Z :=
  let leap := if InLeapYear y then 1 else 0 in
  match month with
  | 0 => 0 | 1 => 31 | 2 => 59 + leap | 3 => 90 + leap | 4 => 120 + leap
  | 5 => 151 + leap | 6 => 181 + leap | 7 => 212 + leap | 8 => 243 + leap
  | 9 => 273 + leap | 10 => 304 + leap | _ => 334 + leap
  end.

Definition MakeDay (year month date : Z) : Z :=
  DayFromYear year + DaysBeforeMonth year month + date - 1.

(** [DAY_MS = 24 * 60 * 60 * 1000]. *)
Definition DAY_MS : Z := 24 * 60 * 60 * 1000.

(** [EPOCH = new Date(1899, 11, 30, 0, 0, 0).getTime()]: the constructor
    reads its arguments as local time. *)
Definition EPOCH `{Runtime} : Z := MakeDay 1899 11 30 * DAY_MS - LocalTZA.

(** [Math.round] of a finite double: the nearest integer, a tie going up.
    The result is exact. *)
Definition Math_round (x : Q) : Z := Qfloor (x + (1 # 2)).

(** [convertToExcelDate] on the time value of a valid date: a subtraction,
    a division and a multiplication of doubles, each rounded, [Math.round],
    and one more division. *)
Definition convertToExcelDate `{Runtime} (time : Z) : Q :=
  Binary64.divide
    (inject_Z
       (Math_round
          (Binary64.multiply
             (Binary64.divide
                (Binary64.subtract (inject_Z time) (inject_Z EPOCH))
                (inject_Z DAY_MS))
             (inject_Z 100000))))
    (inject_Z 100000).

(** A [Date] object is its time value: an integer count of milliseconds, or
    [None] for an invalid date, whose time value is NaN; NaN goes through the
    arithmetic unchanged and prints as [NaN].  The template literal prints
    the serial number with [Number::toString]. *)
Definition date_text `{Runtime} (time : option Z) : string :=
  match time with
  | Some t => Binary64.toString (convertToExcelDate t)
  | None => "NaN"
  end.

(** *** The promised writer *)

(** An open write stream: the chunks written so far. *)
Definition WriteStream := list string.

(** [promiseWrite(stream)(...content)]: one write of the joined content. *)
Definition write (content : list string) (ws : WriteStream) : WriteStream :=
  ws ++ [join content].

(** What the file holds once the stream is finished. *)
Definition file_content (ws : WriteStream) : string := join ws.

(** A quoted attribute value. *)
Definition quoted (s : string) : string := dq +:+ s +:+ dq.

(** The first line of every generated part. *)
Definition xml_declaration : string :=
  "<?xml version=" +:+ quoted "1.0" +:+ " encoding=" +:+ quoted "UTF-8"
    +:+ " standalone=" +:+ quoted "yes" +:+ "?>".

Definition spreadsheetml_ns : string :=
  "http://schemas.openxmlformats.org/spreadsheetml/2006/main".

(** An insertion-ordered [Map] (and the entry table of the archive): its
    entries in insertion order, one per key.  [set] on a present key keeps
    the entry in its place and gives it the new value; on an absent key it
    appends the entry. *)
Section OrderedMap.
Context {K V : Type} `{EqDecision K}.

Fixpoint Map_set (k : K) (v : V) (m : list (K * V)) : list (K * V) :=
  match m with
  | [] => [(k, v)]
  | (k', v') :: m' =>
      if decide (k' = k) then (k, v) :: m' else (k', v') :: Map_set k v m'
  end.

Fixpoint Map_get (k : K) (m : list (K * V)) : option V :=
  match m with
  | [] => None
  | (k', v') :: m' => if decide (k' = k) then Some v' else Map_get k m'
  end.
End OrderedMap.

(** The temporary files, by path. *)
Abbreviation FileSystem := (gmap string string).

(** ** shared-strings.ts *)

Module SharedStrings.

(** The fields of the class: the unique strings in insertion order, the
    map from a string to its index, and the path of the temporary file
    (drawn at random by the constructor, here given to it). *)
Record t := {
  strings : list string;
  stringIndexMap : gmap string nat;
  file : string
}.

Definition new (path : string) : t :=
  {| strings := []; stringIndexMap := ∅; file := path |}.

(** [add]: [push] returns the new length. *)
Definition add (str : string) (this : t) : nat * t :=
  match stringIndexMap this !! str with
  | Some index => (index, this)
  | None =>
      let pushed := strings this ++ [str] in
      let index := (length pushed - 1)%nat in
      (index, {| strings := pushed;
                 stringIndexMap := <[str := index]> (stringIndexMap this);
                 file := file this |})
  end.

Definition size (this : t) : nat := length (strings this).

Definition destroy (this : t) : t :=
  {| strings := []; stringIndexMap := ∅; file := file this |}.

(** The element written for one string. *)
Definition entry (str : string) : string :=
  "<si><t>" +:+ escapeXML str +:+ "</t></si>".

(** The two chunks of the first write: the declaration with its line feed,
    and the opening tag, whose template literal spans two lines. *)
Definition header (this : t) : list string :=
  [ xml_declaration +:+ nl;
    "<sst xmlns=" +:+ quoted spreadsheetml_ns +:+ nl
      +:+ "            count=" +:+ quoted (Z_toString (Z.of_nat (length (strings this))))
      +:+ " uniqueCount=" +:+ quoted (Z_toString (Z.of_nat (length (strings this))))
      +:+ ">" ].

(** The [for (const str of this.strings)] loop: [acc] is the pending
    batch, flushed by one write whenever its length is a multiple of
    [batch]. *)
Fixpoint entries_loop (batch : nat) (strs : list string) (acc : list string)
    (ws : WriteStream) : list string * WriteStream :=
  match strs with
  | [] => (acc, ws)
  | str :: rest =>
      let acc' := acc ++ [entry str] in
      if (length acc' mod batch =? 0)%nat
      then entries_loop batch rest [] (write [join acc'] ws)
      else entries_loop batch rest acc' ws
  end.

(** Everything [generateSharedStringsXML] writes, for a batch size. *)
Definition generate_writes (batch : nat) (this : t) : WriteStream :=
  let ws := write (header this) [] in
  let '(acc, ws) := entries_loop batch (strings this) [] ws in
  write [join acc; "</sst>"] ws.

(** [generateSharedStringsXML]: the batch size is 5000; the stream is
    finished and the path of the file returned. *)
Definition generateSharedStringsXML (this : t) (fs : FileSystem)
    : string * FileSystem :=
  (file this, <[file this := file_content (generate_writes 5000 this)]> fs).

End SharedStrings.

(** ** sheet.ts *)

Module Sheet.
Section WithRuntime.
Context `{Runtime}.

(** A cell as [writeChunk] tells its values apart: [null], [undefined]
    (also what a hole or an index past the end reads as), a string, a
    number, a [Date] with its time value ([None] when invalid), another
    object and another primitive, each of the last two with the text
    [String(cell)] gives it. *)
Inductive Cell :=
| CNull
| CUndefined
| CString (s : string)
| CNumber (n : number)
| CDate (time : option Z)
| CObject (text : string)
| CPrimitive (text : string).

Definition Row := list Cell.

(** What the run time can put where a width is expected, the second
    argument of [setColumWidth] or the second item of a pair: a number,
    [undefined] (an argument left out, an item that is not there), or any
    other value, kept with the text a template literal makes of it. *)
Inductive WidthArg :=
| Width (width : number)
| NoWidth
| OtherWidth (text : string).

(** The fields of the class.  [columnWidths] is a [Map] from a column
    index to a width: [set] checks nothing, so the value stored is whatever
    the call was given.  The reference [sharedStrings] is the
    table every operation below takes and returns. *)
Record t := {
  rows : list Row;
  file : string;
  columnWidths : list (Z * WidthArg)
}.

Definition new (path : string) : t :=
  {| rows := []; file := path; columnWidths := [] |}.

(** The text a template literal makes of a stored width. *)
Definition width_text (w : WidthArg) : string :=
  match w with
  | Width width => Number_toString width
  | NoWidth => "undefined"
  | OtherWidth text => text
  end.

(** [mapper]. *)
Definition mapper (kw : Z * WidthArg) : string :=
  let '(k, w) := kw in
  "<col min=" +:+ quoted (Z_toString (k + 1))
    +:+ " max=" +:+ quoted (Z_toString (k + 1))
    +:+ " width=" +:+ quoted (width_text w)
    +:+ " customWidth=" +:+ quoted "1" +:+ "/>".

(** The static table [COLUMNS], filled for [0 <= i < 702]. *)
Definition COLUMNS : gmap Z string :=
  foldl (fun m i => <[i := columnName i]> m) ∅ (seqZ 0 702).

Definition CHUNK_SIZE : positive := 2500.

Definition addRow (row : Row) (this : t) : t :=
  {| rows := rows this ++ [row]; file := file this;
     columnWidths := columnWidths this |}.

Definition addRows (more : list Row) (this : t) : t :=
  {| rows := rows this ++ more; file := file this;
     columnWidths := columnWidths this |}.

Definition rowsCount (this : t) : nat := length (rows this).

(** The arguments [setColumWidth] can meet at run time, whatever the
    declared overloads say.  Its first argument is an array, a number or
    anything else.  An element of the array is destructured as
    [[index, width]]: either it can be iterated, and gives a first item, here
    an integer index as in the single form, and a second item, which is any
    [WidthArg] and [undefined] when the element has one item only; or it
    cannot (a number, [null], a plain object) and the destructuring throws a
    [TypeError]. *)
Inductive Element :=
| Pair (index : Z) (width : WidthArg)
| NotIterable.

Inductive IndexOrSizes :=
| Array (elements : list Element)
| Index (index : Z)
| NoIndex.

(** The array of a well-typed bulk call, [[number, number][]]. *)
Definition Sizes (sizes : list (Z * number)) : IndexOrSizes :=
  Array (map (fun iw => Pair (fst iw) (Width (snd iw))) sizes).

(** How a call ends. *)
Inductive Completion :=
| Normal
| Throw (error : string).

Definition with_widths (m : list (Z * WidthArg)) (this : t) : t :=
  {| rows := rows this; file := file this; columnWidths := m |}.

(** The [for (const [index, width] of indexOrSizes)] loop: the pairs are
    stored one after the other, unchecked, until an element cannot be
    destructured; what was stored before the exception stays. *)
Fixpoint sizes_loop (elements : list Element) (m : list (Z * WidthArg))
    : Completion * list (Z * WidthArg) :=
  match elements with
  | [] => (Normal, m)
  | Pair index width :: rest => sizes_loop rest (Map_set index width m)
  | NotIterable :: _ => (Throw "TypeError", m)
  end.

(** One call of [setColumWidth]: how it ends, and the sheet as it leaves
    it. *)
Definition setColumWidth_run (indexOrSizes : IndexOrSizes) (width : WidthArg)
    (this : t) : Completion * t :=
  match indexOrSizes with
  | Array elements =>
      let '(completion, m) := sizes_loop elements (columnWidths this) in
      (completion, with_widths m this)
  | Index index =>
      match width with
      | Width w => (Normal, with_widths (Map_set index (Width w) (columnWidths this)) this)
      | _ => (Normal, this)
      end
  | NoIndex => (Normal, this)
  end.

(** [setColumWidth] as a change of the sheet. *)
Definition setColumWidth (indexOrSizes : IndexOrSizes) (width : WidthArg)
    (this : t) : t :=
  snd (setColumWidth_run indexOrSizes width this).

(** [getExcelColumn]: [||] falls back on [undefined] and on the empty
    string. *)
Definition getExcelColumn (index : Z) : string :=
  match COLUMNS !! index with
  | Some name => if String.eqb name "" then columnName index else name
  | None => columnName index
  end.

(** The body of the inner loop of [writeChunk]: what is pushed for one
    cell. *)
Definition writeCell (ref : string) (cell : Cell) (strings : SharedStrings.t)
    : string * SharedStrings.t :=
  let shared (text : string) :=
    let '(id, strings') := SharedStrings.add text strings in
    ("<c r=" +:+ quoted ref +:+ " t=" +:+ quoted "s" +:+ "><v>"
       +:+ Z_toString (Z.of_nat id) +:+ "</v></c>", strings') in
  match cell with
  | CNull | CUndefined => ("<c r=" +:+ quoted ref +:+ "/>", strings)
  | CString s => shared s
  | CNumber n =>
      ("<c r=" +:+ quoted ref +:+ "><v>" +:+ Number_toString n +:+ "</v></c>",
       strings)
  | CDate time =>
      ("<c r=" +:+ quoted ref +:+ " s=" +:+ quoted "1" +:+ "><v>"
         +:+ date_text time +:+ "</v></c>", strings)
  | CObject text => shared text
  | CPrimitive text => shared text
  end.

(** The inner loop, from column [ci] on. *)
Fixpoint cells_loop (row : string) (ci : Z) (cols : list Cell)
    (strings : SharedStrings.t) : list string * SharedStrings.t :=
  match cols with
  | [] => ([], strings)
  | cell :: rest =>
      let ref := getExcelColumn ci +:+ row in
      let '(c, strings1) := writeCell ref cell strings in
      let '(cs, strings2) := cells_loop row (ci + 1) rest strings1 in
      (c :: cs, strings2)
  end.

(** The outer loop, from position [i] of the chunk on: the strings pushed
    onto [chunks]. *)
Fixpoint rows_loop (startIndex i : Z) (rows : list Row)
    (strings : SharedStrings.t) : list string * SharedStrings.t :=
  match rows with
  | [] => ([], strings)
  | cols :: rest =>
      let row := Z_toString (startIndex + i + 1) in
      let '(cs, strings1) := cells_loop row 0 cols strings in
      let '(more, strings2) := rows_loop startIndex (i + 1) rest strings1 in
      (("<row r=" +:+ quoted row +:+ ">") :: cs ++ ["</row>"] ++ more, strings2)
  end.

(** [writeChunk]: one write of the joined chunk. *)
Definition writeChunk (ws : WriteStream) (rows : list Row) (startIndex : Z)
    (strings : SharedStrings.t) : WriteStream * SharedStrings.t :=
  let '(chunks, strings') := rows_loop startIndex 0 rows strings in
  (write [join chunks] ws, strings').

(** The [for (let i = 0; i < this.rows.length; i += size)] loop of
    [generateSheetXML]; [slice(i, i + size)] is [take size (drop i rows)]. *)
Equations? chunks_loop (size : positive) (rows : list Row) (i : nat)
    (ws : WriteStream) (strings : SharedStrings.t)
    : WriteStream * SharedStrings.t by wf (length rows - i)%nat lt :=
  chunks_loop size rows i ws strings with decide (i < length rows)%nat => {
    | left _ :=
        chunks_loop size rows (i + Pos.to_nat size)%nat
          (fst (writeChunk ws (take (Pos.to_nat size) (drop i rows))
                  (Z.of_nat i) strings))
          (snd (writeChunk ws (take (Pos.to_nat size) (drop i rows))
                  (Z.of_nat i) strings));
    | right _ := (ws, strings) }.
Proof. lia. Qed.

(** Everything [generateSheetXML] writes, for a chunk size. *)
Definition generate_writes (size : positive) (this : t)
    (strings : SharedStrings.t) : WriteStream * SharedStrings.t :=
  let ws := write [ xml_declaration +:+ nl;
                    "<worksheet xmlns=" +:+ quoted spreadsheetml_ns +:+ ">" ] [] in
  let ws :=
    if (0 <? length (columnWidths this))%nat
    then write [ "<cols>"; join (map mapper (columnWidths this)); "</cols>" ] ws
    else ws in
  let ws := write [ "<sheetData>" ] ws in
  let '(ws, strings') := chunks_loop size (rows this) 0 ws strings in
  (write [ "</sheetData></worksheet>" ] ws, strings').

(** [generateSheetXML]: the chunk size is [CHUNK_SIZE]. *)
Definition generateSheetXML (this : t) (strings : SharedStrings.t)
    (fs : FileSystem) : string * SharedStrings.t * FileSystem :=
  let '(ws, strings') := generate_writes CHUNK_SIZE this strings in
  (file this, strings', <[file this := file_content ws]> fs).

End WithRuntime.
End Sheet.

(** ** templates/styles.ts *)

(** Lines joined by line feeds, as a template literal spanning them. *)
Fixpoint lines (ls : list string) : string :=
  match ls with
  | [] => ""
  | [l] => l
  | l :: rest => l +:+ nl +:+ lines rest
  end.

Definition generateStyles : string :=
  lines [
      "<?xml version=" +:+ quoted "1.0" +:+ " encoding=" +:+ quoted "UTF-8" +:+ " standalone=" +:+ quoted "yes" +:+ "?>";
      "<styleSheet xmlns=" +:+ quoted "http://schemas.openxmlformats.org/spreadsheetml/2006/main" +:+ ">";
      "  <numFmts count=" +:+ quoted "1" +:+ ">";
      "      <numFmt numFmtId=" +:+ quoted "164" +:+ " formatCode=" +:+ quoted "yyyy-mm-dd" +:+ "/>";
      "  </numFmts>";
      "  <fonts count=" +:+ quoted "1" +:+ ">";
      "      <font>";
      "          <sz val=" +:+ quoted "11" +:+ "/>";
      "          <name val=" +:+ quoted "Calibri" +:+ "/>";
      "          <family val=" +:+ quoted "2" +:+ "/>";
      "      </font>";
      "  </fonts>";
      "  <fills count=" +:+ quoted "1" +:+ ">";
      "      <fill>";
      "          <patternFill patternType=" +:+ quoted "none" +:+ "/>";
      "      </fill>";
      "  </fills>";
      "  <borders count=" +:+ quoted "1" +:+ ">";
      "      <border>";
      "          <left/><right/><top/><bottom/><diagonal/>";
      "      </border>";
      "  </borders>";
      "  <cellStyleXfs count=" +:+ quoted "1" +:+ ">";
      "      <xf numFmtId=" +:+ quoted "0" +:+ " fontId=" +:+ quoted "0" +:+ " fillId=" +:+ quoted "0" +:+ " borderId=" +:+ quoted "0" +:+ "/>";
      "  </cellStyleXfs>";
      "  <cellXfs count=" +:+ quoted "2" +:+ ">";
      "      <xf numFmtId=" +:+ quoted "0" +:+ " fontId=" +:+ quoted "0" +:+ " fillId=" +:+ quoted "0" +:+ " borderId=" +:+ quoted "0" +:+ " xfId=" +:+ quoted "0" +:+ "/>";
      "      <xf numFmtId=" +:+ quoted "164" +:+ " fontId=" +:+ quoted "0" +:+ " fillId=" +:+ quoted "0" +:+ " borderId=" +:+ quoted "0" +:+ " xfId=" +:+ quoted "0" +:+ " applyNumberFormat=" +:+ quoted "1" +:+ "/>";
      "  </cellXfs>";
      "</styleSheet>" ].

(** ** packing.ts and builder.ts *)

Module Package.
Section WithEnvironment.
Context `{Runtime} `{Templates}.

(** The fields of the class: the entries of the archive under their names
    and the temporary files to delete.  The references [sheet] and
    [sharedStrings] are the objects [build] takes. *)
Record t := {
  zip : list (string * string);
  disposable : list string
}.

Definition new : t := {| zip := []; disposable := [] |}.

(** [add]: an entry from a string. *)
Definition add (path content : string) (this : t) : t :=
  {| zip := Map_set path content (zip this); disposable := disposable this |}.

(** [addFile]: an entry from a local file, read when it is added (a file
    that is not there makes the archive throw, here [None]).  The entry is
    named by the directory and base name of [file], that is [file]. *)
Definition addFile (file localpath : string) (fs : FileSystem) (this : t)
    : option t :=
  content ← fs !! localpath;
  Some {| zip := Map_set file content (zip this);
          disposable := disposable this ++ [localpath] |}.

Definition addMockFiles (this : t) : t :=
  add "[Content_Types].xml" getContentTypes
    (add "xl/styles.xml" generateStyles
       (add "xl/_rels/workbook.xml.rels" getWorkbookRels
          (add "xl/workbook.xml" getWorkbookXML
             (add "_rels/.rels" getBaseRels this)))).

(** [dispose]: [fs.unlink(file, () => {})] is called for every listed file
    in turn.  Each call only hands an unlink over to the host: nothing
    waits for it, and the callback ignores whether it succeeds.  So the
    call gives back the files, untouched by it, together with the unlinks
    handed over, which take effect, or fail, at some later time. *)
Definition dispose (this : t) (fs : FileSystem) : FileSystem * list string :=
  (fs, disposable this).

(** [build].  The buffer the archive serializes to is taken to be its
    entry table.  The result also gives the string table as the call leaves
    it, and the files with the unlinks under way. *)
Definition build (sheet : Sheet.t) (sharedStrings : SharedStrings.t)
    (fs : FileSystem) (this : t)
    : option (list (string * string) * SharedStrings.t
              * (FileSystem * list string)) :=
  let this := addMockFiles this in
  let '(file, sharedStrings, fs) :=
    Sheet.generateSheetXML sheet sharedStrings fs in
  this ← addFile "xl/worksheets/sheet1.xml" file fs this;
  '(this, fs) ←
    (if (0 <? SharedStrings.size sharedStrings)%nat
     then
       let '(content, fs) :=
         SharedStrings.generateSharedStringsXML sharedStrings fs in
       this ← addFile "xl/sharedStrings.xml" content fs this;
       Some (this, fs)
     else Some (this, fs));
  let buffer := zip this in
  Some (buffer, sharedStrings, dispose this fs).

End WithEnvironment.
End Package.

(** [build(sheet, strings)] of [builder.ts]. *)
Definition build `{Runtime} `{Templates} (sheet : Sheet.t)
    (strings : SharedStrings.t) (fs : FileSystem)
    : option (list (string * string) * SharedStrings.t
              * (FileSystem * list string)) :=
  Package.build sheet strings fs Package.new.

(** ** A concrete host *)

(** A host on UTC whose cells hold integer numbers, for running the model. *)
Definition utc_integers : Runtime :=
  {| number := Z; Number_toString := Z_toString; LocalTZA := 0 |}.

(** Stand-ins for the fixed parts that are not in the sources. *)
Definition some_templates : Templates :=
  {| getBaseRels := "<Relationships/>";
     getContentTypes := "<Types/>";
     getWorkbookXML := "<workbook/>";
     getWorkbookRels := "<Relationships/>" |}.

(** * Vocabulary of the statements *)

(** The letter the specification picks for a remainder: 0 is A, 25 is Z. *)
Definition letter (r : Z) : string :=
  substring (Z.to_nat r) 1 "ABCDEFGHIJKLMNOPQRSTUVWXYZ".

(** Whether [pattern] occurs somewhere in [text]. *)
Fixpoint occurs (pattern text : string) : bool :=
  String.prefix pattern text
  || match text with
     | EmptyString => false
     | String _ rest => occurs pattern rest
     end.

(** What the escaping rule is meant to do with one character: a control
    byte becomes a question mark, each of the five specials its entity, and
    any other character stays. *)
Definition escape_char (char : ascii) : string :=
  if control_class char then "?"
  else match entities char with
       | Some entity => entity
       | None => String char ""
       end.

Fixpoint escape_spec (value : string) : string :=
  match value with
  | EmptyString => EmptyString
  | String char rest => escape_char char +:+ escape_spec rest
  end.

(** A string without a backslash. *)
Fixpoint no_backslash (value : string) : bool :=
  match value with
  | EmptyString => true
  | String char rest => negb (Ascii.eqb char (ascii_of_nat 92)) && no_backslash rest
  end.

(** A sequence of [add] calls on a table: the ids returned, in order, and
    the table as the calls leave it. *)
Fixpoint add_all (calls : list string) (table : SharedStrings.t)
    : list nat * SharedStrings.t :=
  match calls with
  | [] => ([], table)
  | str :: rest =>
      let '(id, table1) := SharedStrings.add str table in
      let '(ids, table2) := add_all rest table1 in
      (id :: ids, table2)
  end.

(** The invariant of the table: the index map sends a string to a position
    exactly when the list holds the string at that position. *)
Definition consistent (table : SharedStrings.t) : Prop :=
  forall (str : string) (index : nat),
    SharedStrings.stringIndexMap table !! str = Some index
    <-> SharedStrings.strings table !! index = Some str.

(** The document the string table stands for: the header, one element per
    string in insertion order, each escaped, and the closing tag. *)
Definition sst_document (table : SharedStrings.t) : string :=
  join (SharedStrings.header table)
    +:+ join (map SharedStrings.entry (SharedStrings.strings table))
    +:+ "</sst>".

(** The write that flushes a batch of whole entries. *)
Definition batch_write (group : list string) : string :=
  join (map SharedStrings.entry group).

(** The worksheet a sheet stands for, given the table its text cells go
    to: the header, the column widths when there are any, and the rows
    encoded in one pass, each at its position in the buffer. *)
Definition worksheet_document `{Runtime} (sheet : Sheet.t)
    (strings : SharedStrings.t) : string :=
  xml_declaration +:+ nl
    +:+ "<worksheet xmlns=" +:+ quoted spreadsheetml_ns +:+ ">"
    +:+ (if (0 <? length (Sheet.columnWidths sheet))%nat
         then "<cols>" +:+ join (map Sheet.mapper (Sheet.columnWidths sheet))
                +:+ "</cols>"
         else "")
    +:+ "<sheetData>"
    +:+ join (fst (Sheet.rows_loop 0 0 (Sheet.rows sheet) strings))
    +:+ "</sheetData></worksheet>".

(** The rows Name, Age and John, 25 on a host with integer numbers, and the
    sheet that holds them. *)
Definition name_age_rows : list (@Sheet.Row utc_integers) :=
  [ [Sheet.CString "Name"; Sheet.CString "Age"];
    [Sheet.CString "John"; @Sheet.CNumber utc_integers 25] ].

Definition name_age_sheet : @Sheet.t utc_integers :=
  Sheet.addRows name_age_rows (Sheet.new "sheet.xml").

(** The text a cell hands to the string table, when it is one of the cells
    that do: a string, or a value coerced to one. *)
Definition cell_text `{Runtime} (cell : Sheet.Cell) : option string :=
  match cell with
  | Sheet.CString s => Some s
  | Sheet.CObject text => Some text
  | Sheet.CPrimitive text => Some text
  | _ => None
  end.

(** The texts of the text cells of a row list, in the order of the cells. *)
Definition texts `{Runtime} (rows : list Sheet.Row) : list string :=
  concat (map (omap cell_text) rows).

(** The fixed parts of the archive, in the order they are added. *)
Definition fixed_parts `{Templates} : list (string * string) :=
  [ ("_rels/.rels", getBaseRels);
    ("xl/workbook.xml", getWorkbookXML);
    ("xl/_rels/workbook.xml.rels", getWorkbookRels);
    ("xl/styles.xml", generateStyles);
    ("[Content_Types].xml", getContentTypes) ].

(** The archive [build] returns (empty if it were to throw), and its string
    table part, if it has one. *)
Definition built `{Runtime} `{Templates} (sheet : Sheet.t)
    (strings : SharedStrings.t) (fs : FileSystem) : list (string * string) :=
  match build sheet strings fs with
  | Some (buffer, _, _) => buffer
  | None => []
  end.

Definition string_table_part (buffer : list (string * string)) : option string :=
  Map_get "xl/sharedStrings.xml" buffer.

(** The files as they can be found from then on: [removed] tells which of
    the unlinks under way have taken effect; a file whose unlink has not
    run yet, or has failed, is still there. *)
Definition settled (removed : string -> bool)
    (state : FileSystem * list string) : FileSystem :=
  foldl (fun fs file => if removed file then delete file fs else fs)
    (fst state) (snd state).

(** An array element that can be destructured. *)
Definition destructurable `{Runtime} (element : Sheet.Element) : bool :=
  match element with
  | Sheet.Pair _ _ => true
  | Sheet.NotIterable => false
  end.

(** The pairs of an array up to its first element that cannot be
    destructured. *)
Fixpoint pairs_before_throw `{Runtime} (elements : list Sheet.Element)
    : list (Z * Sheet.WidthArg) :=
  match elements with
  | Sheet.Pair index width :: rest => (index, width) :: pairs_before_throw rest
  | _ => []
  end.

(** The writes a call of [setColumWidth] stands for: the pairs of the bulk
    form in their order, as far as the loop gets, the one pair of a
    well-formed single form, and none for a call whose arguments have
    neither shape. *)
Definition writes_of `{Runtime} (call : Sheet.IndexOrSizes * Sheet.WidthArg)
    : list (Z * Sheet.WidthArg) :=
  match call with
  | (Sheet.Array elements, _) => pairs_before_throw elements
  | (Sheet.Index index, Sheet.Width width) => [(index, Sheet.Width width)]
  | _ => []
  end.

(** The width the last write for an index gives it, if any write is for it. *)
Fixpoint last_write {V : Type} (index : Z) (writes : list (Z * V)) : option V :=
  match writes with
  | [] => None
  | (k, v) :: rest =>
      match last_write index rest with
      | Some w => Some w
      | None => if decide (k = index) then Some v else None
      end
  end.

(** A sequence of [setColumWidth] calls on a sheet. *)
Definition setColumWidth_all `{Runtime}
    (calls : list (Sheet.IndexOrSizes * Sheet.WidthArg)) (sheet : Sheet.t)
    : Sheet.t :=
  foldl (fun sheet call => Sheet.setColumWidth (fst call) (snd call) sheet)
    sheet calls.

(** Half the spacing of the doubles relative to their size, [2 ^ (-53)],
    and the smallest normal double. *)
Definition unit_roundoff : Q := 1 # 9007199254740992.
Definition min_normal : Q := (2 ^ (-1022))%Q.

(** The digits of a fraction [num / den] with [0 <= num < den], at most
    [fuel] of them, stopping when the expansion ends. *)
Fixpoint fraction_digits (fuel : nat) (num den : Z) : string :=
  match fuel with
  | O => ""
  | S fuel' =>
      if num =? 0 then ""
      else
        let d := (10 * num) / den in
        String (fromCharCode (48 + d))
          (fraction_digits fuel' (10 * num - d * den) den)
  end.

(** The decimal numeral of [k / 100000]: the sign, the integer part and,
    when [k] is no multiple of 100000, a point and the decimals, at most
    five, without trailing zeros. *)
Definition hundred_thousandths (k : Z) : string :=
  (if k <? 0 then "-" else "")
    +:+ Z_toString (Z.abs k / 100000)
    +:+ (if Z.abs k mod 100000 =? 0 then ""
         else "." +:+ fraction_digits 5 (Z.abs k mod 100000) 100000).

(** The whole number of hundred-thousandths of a day that
    [convertToExcelDate] gets from [Math.round]. *)
Definition serial_units `{Runtime} (time : Z) : Z :=
  Math_round
    (Binary64.multiply
       (Binary64.divide
          (Binary64.subtract (inject_Z time) (inject_Z EPOCH))
          (inject_Z DAY_MS))
       (inject_Z 100000)).

(** What the two passes of [escapeXML] together do with one character. *)
Definition escapeXML_char (char : ascii) : string :=
  if control_class char then "?"
  else if special_class char then ToString (entities char)
  else String char "".

(** Whether every character of a string passes a test. *)
Fixpoint string_forall (test : ascii -> bool) (s : string) : bool :=
  match s with
  | EmptyString => true
  | String char rest => test char && string_forall test rest
  end.

(** An upper-case letter, A to Z. *)
Definition is_upper (char : ascii) : bool :=
  ((65 <=? N_of_ascii char) && (N_of_ascii char <=? 90))%N.

(** A character neither of the two classes of [escapeXML] matches. *)
Definition plain_char (char : ascii) : bool :=
  negb (control_class char) && negb (special_class char).

(** A character that is no control byte and none of less-than, greater-than,
    double quote, apostrophe and backslash. *)
Definition markup_free (char : ascii) : bool :=
  negb (control_class char)
  && negb (Ascii.eqb char "<") && negb (Ascii.eqb char ">")
  && negb (Ascii.eqb char (ascii_of_nat 34)) && negb (Ascii.eqb char "'")
  && negb (Ascii.eqb char (ascii_of_nat 92)).

(** Text made of plain characters and of the five entities, so that every
    ampersand in it opens an entity. *)
Inductive escaped : string -> Prop :=
| escaped_nil : escaped ""
| escaped_char (char : ascii) (rest : string) :
    plain_char char = true -> escaped rest -> escaped (String char rest)
| escaped_entity (entity rest : string) :
    In entity ["&amp;"; "&lt;"; "&gt;"; "&quot;"; "&apos;"] ->
    escaped rest -> escaped (entity +:+ rest).

(** The element of a shared-string cell with a reference and an id. *)
Definition shared_cell (ref : string) (id : nat) : string :=
  "<c r=" +:+ quoted ref +:+ " t=" +:+ quoted "s" +:+ "><v>"
    +:+ Z_toString (Z.of_nat id) +:+ "</v></c>".

(** A call that appends to the row buffer, what it does to a sheet, and the
    rows it brings. *)
Inductive RowOp `{Runtime} :=
| AddRow (row : Sheet.Row)
| AddRows (rows : list Sheet.Row).

Definition apply_row_op `{Runtime} (sheet : Sheet.t) (op : RowOp) : Sheet.t :=
  match op with
  | AddRow row => Sheet.addRow row sheet
  | AddRows rows => Sheet.addRows rows sheet
  end.

Definition rows_of_op `{Runtime} (op : RowOp) : list Sheet.Row :=
  match op with
  | AddRow row => [row]
  | AddRows rows => rows
  end.

(** The distinct elements of a list of strings, in the order of their first
    occurrence. *)
Fixpoint first_occurrences (l : list string) : list string :=
  match l with
  | [] => []
  | x :: rest => x :: filter (fun y => y <> x) (first_occurrences rest)
  end.

(** * Theorems *)

(** ** Strings *)

Lemma append_cons (c : ascii) (s t : string) :
  String c s +:+ t = String c (s +:+ t).
Proof. reflexivity. Qed.

Lemma append_nil_l (s : string) : "" +:+ s = s.
Proof. reflexivity. Qed.

Lemma append_nil_r (s : string) : s +:+ "" = s.
Proof.
  induction s as [|c s IH]; [reflexivity |].
  now rewrite append_cons, IH.
Qed.

Lemma append_assoc (a b c : string) : (a +:+ b) +:+ c = a +:+ (b +:+ c).
Proof.
  induction a as [|x a IH]; [reflexivity |].
  now rewrite !append_cons, IH.
Qed.

(** Concatenations are compared in right-nested form without empty pieces. *)
Create Rewrite HintDb strings.
#[local] Hint Rewrite append_nil_l append_nil_r append_assoc : strings.

Ltac normalize_strings :=
  change (file_content []) with "" in *;
  change (join []) with "" in *;
  autorewrite with strings.

Lemma join_app (l1 l2 : list string) : join (l1 ++ l2) = join l1 +:+ join l2.
Proof.
  induction l1 as [|x l1 IH]; simpl; [reflexivity |].
  now rewrite IH, append_assoc.
Qed.

Lemma join_cons (s : string) (l : list string) : join (s :: l) = s +:+ join l.
Proof. reflexivity. Qed.

Lemma join_singleton (s : string) : join [s] = s.
Proof. apply append_nil_r. Qed.

Lemma file_content_write (content : list string) (ws : WriteStream) :
  file_content (write content ws) = file_content ws +:+ join content.
Proof.
  unfold file_content, write. rewrite join_app.
  f_equal. apply join_singleton.
Qed.

Lemma prefix_append (p rest : string) : String.prefix p (p +:+ rest) = true.
Proof.
  induction p as [|c p IH]; [now destruct rest |].
  rewrite append_cons. simpl.
  destruct (ascii_dec c c); [exact IH | congruence].
Qed.

Lemma occurs_here (pattern text : string) :
  String.prefix pattern text = true -> occurs pattern text = true.
Proof. intros Hp. destruct text; cbn [occurs]; rewrite Hp; reflexivity. Qed.

Lemma occurs_intro (pre pattern post : string) :
  occurs pattern (pre +:+ pattern +:+ post) = true.
Proof.
  induction pre as [|c pre IH].
  - rewrite append_nil_l. apply occurs_here, prefix_append.
  - rewrite append_cons. cbn [occurs]. rewrite IH. apply orb_true_r.
Qed.

(** ** column.ts *)

Lemma columnName_loop_step (index : Z) (column : string) :
  columnName_loop index column =
  if decide (0 <= index)
  then columnName_loop (index / 26 - 1)
         (String (fromCharCode (65 + Z.rem index 26)) column)
  else column.
Proof.
  rewrite columnName_loop_equation_1 at 1.
  destruct (decide (0 <= index)); reflexivity.
Qed.

Lemma div26_decreases (index : Z) : 0 <= index -> index / 26 - 1 < index.
Proof.
  intros Hpos.
  assert (index / 26 <= index) by (apply Z.div_le_upper_bound; lia). lia.
Qed.

(** The accumulator only ever receives letters in front of it. *)
Lemma columnName_loop_acc (index : Z) (column : string) :
  columnName_loop index column = columnName index +:+ column.
Proof.
  unfold columnName.
  remember (Z.to_nat (index + 1)) as n eqn:Hn.
  revert index column Hn.
  induction n as [n IH] using lt_wf_ind. intros index column ->.
  rewrite (columnName_loop_step index column), (columnName_loop_step index "").
  destruct (decide (0 <= index)) as [Hpos|Hneg]; [| reflexivity].
  pose proof (div26_decreases index Hpos) as Hlt.
  rewrite (IH (Z.to_nat (index / 26 - 1 + 1)) ltac:(lia) _ _ eq_refl).
  rewrite (IH (Z.to_nat (index / 26 - 1 + 1)) ltac:(lia) _
             (String _ "") eq_refl).
  now rewrite append_assoc.
Qed.

Lemma fromCharCode_letter (r : Z) :
  0 <= r < 26 -> String (fromCharCode (65 + r)) "" = letter r.
Proof.
  intros Hr.
  assert (Hcases : r = 0 \/ r = 1 \/ r = 2 \/ r = 3 \/ r = 4 \/ r = 5 \/ r = 6
    \/ r = 7 \/ r = 8 \/ r = 9 \/ r = 10 \/ r = 11 \/ r = 12 \/ r = 13
    \/ r = 14 \/ r = 15 \/ r = 16 \/ r = 17 \/ r = 18 \/ r = 19 \/ r = 20
    \/ r = 21 \/ r = 22 \/ r = 23 \/ r = 24 \/ r = 25) by lia.
  repeat (destruct Hcases as [-> | Hcases]; [reflexivity |]).
  subst r. reflexivity.
Qed.

(** The recurrence of the specification, without the accumulator. *)
Lemma columnName_recurrence (index : Z) :
  columnName index =
  if decide (0 <= index)
  then columnName (index / 26 - 1) +:+ letter (index mod 26)
  else "".
Proof.
  unfold columnName at 1. rewrite columnName_loop_step.
  destruct (decide (0 <= index)) as [Hpos|Hneg]; [| reflexivity].
  rewrite columnName_loop_acc. f_equal.
  rewrite Z.rem_mod_nonneg by lia.
  apply fromCharCode_letter, Z.mod_pos_bound. lia.
Qed.

(** The static table holds the computed name of every index it covers. *)
Lemma COLUMNS_fold (l : list Z) (m : gmap Z string) (index : Z) :
  foldl (fun m i => <[i := columnName i]> m) m l !! index =
  if decide (index ∈ l) then Some (columnName index) else m !! index.
Proof.
  revert m. induction l as [|i l IH]; intros m; simpl.
  - destruct (decide (index ∈ [])) as [Hin|]; [inversion Hin | reflexivity].
  - rewrite IH.
    destruct (decide (index ∈ l)) as [Hin|Hnin].
    + rewrite decide_True by (now right). reflexivity.
    + destruct (decide (i = index)) as [->|Hne].
      * rewrite decide_True by left. now rewrite lookup_insert_eq.
      * rewrite decide_False by (intros Hc; inversion Hc; subst; tauto).
        now rewrite lookup_insert_ne.
Qed.

Lemma getExcelColumn_columnName `{Runtime} (index : Z) :
  Sheet.getExcelColumn index = columnName index.
Proof.
  unfold Sheet.getExcelColumn, Sheet.COLUMNS. rewrite COLUMNS_fold.
  destruct (decide (index ∈ seqZ 0 702)); [| now rewrite lookup_empty].
  destruct (String.eqb (columnName index) ""); reflexivity.
Qed.

(** C9.  The name of a column index follows the recurrence of the
    specification: a negative index has the empty name, and the name of a
    non-negative index is the name of [floor(index / 26) - 1] followed by the
    letter picked by [index mod 26] (0 is A, 25 is Z); the loop of the code
    computes it by prepending to an accumulator until the index is negative.
    The names of 0, 25, 26, 701 and 702 are A, Z, AA, ZZ and AAA, and the
    lookup of the sheet, served from the precomputed table below 702, agrees
    with the computation at every index. *)
Theorem columnName_letters :
  (forall index column,
     columnName_loop index column =
     if decide (0 <= index)
     then columnName_loop (index / 26 - 1)
            (String (fromCharCode (65 + Z.rem index 26)) column)
     else column)
  /\ (forall index,
       columnName index =
       if decide (0 <= index)
       then columnName (index / 26 - 1) +:+ letter (index mod 26)
       else "")
  /\ columnName 0 = "A" /\ columnName 25 = "Z" /\ columnName 26 = "AA"
  /\ columnName 701 = "ZZ" /\ columnName 702 = "AAA"
  /\ (forall (R : Runtime) index, Sheet.getExcelColumn index = columnName index).
Proof.
  split; [exact columnName_loop_step |].
  split; [exact columnName_recurrence |].
  repeat (split; [vm_compute; reflexivity |]).
  intros R index. apply getExcelColumn_columnName.
Qed.

(** ** utils.ts: escaping *)

Lemma replace_class_app (class : ascii -> bool) (replacer : ascii -> string)
    (a b : string) :
  replace_class class replacer (a +:+ b) =
  replace_class class replacer a +:+ replace_class class replacer b.
Proof.
  induction a as [|c a IH]; [reflexivity |].
  rewrite append_cons. cbn [replace_class].
  now rewrite IH, append_assoc.
Qed.

Lemma escapeXML_app (a b : string) :
  escapeXML (a +:+ b) = escapeXML a +:+ escapeXML b.
Proof. unfold escapeXML. now rewrite !replace_class_app. Qed.

Lemma escapeXML_cons (char : ascii) (rest : string) :
  escapeXML (String char rest) = escapeXML_char char +:+ escapeXML rest.
Proof.
  change (String char rest) with (String char "" +:+ rest).
  rewrite escapeXML_app. f_equal.
  unfold escapeXML, escapeXML_char. cbn [replace_class].
  destruct (control_class char); [reflexivity |].
  rewrite append_nil_r. cbn [replace_class].
  rewrite append_nil_r. reflexivity.
Qed.

Lemma escapeXML_char_backslash :
  escapeXML_char (ascii_of_nat 92) = "undefined".
Proof. reflexivity. Qed.

Lemma escapeXML_char_spec (char : ascii) :
  Ascii.eqb char (ascii_of_nat 92) = false ->
  escapeXML_char char = escape_char char.
Proof.
  intros Hbs. unfold escapeXML_char, escape_char, special_class, entities.
  rewrite Hbs.
  destruct (control_class char); [reflexivity |].
  destruct (Ascii.eqb char "&"); [reflexivity |].
  destruct (Ascii.eqb char "<"); [reflexivity |].
  destruct (Ascii.eqb char ">"); [reflexivity |].
  destruct (Ascii.eqb char (ascii_of_nat 34)); [reflexivity |].
  destruct (Ascii.eqb char "'"); reflexivity.
Qed.

(** Away from the backslash the code is the rule: every control byte
    becomes a question mark, each of the five specials its entity, and every
    other character is kept. *)
Lemma escapeXML_no_backslash (value : string) :
  no_backslash value = true -> escapeXML value = escape_spec value.
Proof.
  induction value as [|c value IH]; [reflexivity |].
  cbn [no_backslash escape_spec]. intros [Hc Hrest]%andb_true_iff.
  rewrite escapeXML_cons, IH by exact Hrest.
  rewrite escapeXML_char_spec; [reflexivity |].
  now destruct (Ascii.eqb c (ascii_of_nat 92)).
Qed.

(** C10.  A backslash is in the class the second replacement matches but
    has no entry in the entity table, so the replacer returns [undefined]
    and its text takes the place of the backslash: wherever a backslash
    stands in a string, the escaped string has the nine characters
    [undefined] there, between the escaped texts of what precedes and what
    follows it.  Escaping a, backslash, b gives [aundefinedb]. *)
Theorem escapeXML_backslash_undefined :
  special_class (ascii_of_nat 92) = true
  /\ entities (ascii_of_nat 92) = None
  /\ (forall before after,
        escapeXML (before +:+ "\" +:+ after) =
        escapeXML before +:+ "undefined" +:+ escapeXML after)
  /\ String.length "undefined" = 9%nat
  /\ escapeXML "a\b" = "aundefinedb".
Proof.
  split; [reflexivity |]. split; [reflexivity |].
  split; [| split; reflexivity].
  intros before after. rewrite !escapeXML_app. reflexivity.
Qed.

(** C7, at an input with a backslash.  The string made of the five
    specials, the control byte 0x01 and a backslash is escaped to the five
    entities, a question mark and the text [undefined]: the control byte and
    the specials are treated as the rule says, but the backslash, an
    ordinary character, is not left unchanged. *)
Theorem escapeXML_specials_control_backslash :
  escapeXML ("&<>" +:+ dq +:+ "'" +:+ String (ascii_of_nat 1) "" +:+ "\")
  = "&amp;&lt;&gt;&quot;&apos;?undefined"
  /\ escape_spec ("&<>" +:+ dq +:+ "'" +:+ String (ascii_of_nat 1) "" +:+ "\")
     = "&amp;&lt;&gt;&quot;&apos;?\"
  /\ escapeXML ("&<>" +:+ dq +:+ "'" +:+ String (ascii_of_nat 1) "" +:+ "\")
     <> escape_spec ("&<>" +:+ dq +:+ "'" +:+ String (ascii_of_nat 1) "" +:+ "\").
Proof.
  split; [vm_compute; reflexivity |].
  split; [vm_compute; reflexivity |].
  vm_compute. discriminate.
Qed.

(** ** shared-strings.ts: the table *)

Lemma consistent_new (path : string) : consistent (SharedStrings.new path).
Proof. intros str index. simpl. now rewrite lookup_empty, lookup_nil. Qed.

Lemma consistent_destroy (table : SharedStrings.t) :
  consistent (SharedStrings.destroy table).
Proof. intros str index. simpl. now rewrite lookup_empty, lookup_nil. Qed.

Lemma consistent_NoDup (table : SharedStrings.t) :
  consistent table -> NoDup (SharedStrings.strings table).
Proof.
  intros Hc. apply NoDup_alt. intros i j str Hi Hj.
  apply Hc in Hi, Hj. congruence.
Qed.

Lemma consistent_absent (table : SharedStrings.t) (str : string) :
  consistent table ->
  SharedStrings.stringIndexMap table !! str = None
  <-> str ∉ SharedStrings.strings table.
Proof.
  intros Hc. split.
  - intros Hnone [index Hin]%list_elem_of_lookup.
    apply Hc in Hin. congruence.
  - intros Hnotin.
    destruct (SharedStrings.stringIndexMap table !! str) as [index|] eqn:E;
      [| reflexivity].
    apply Hc in E. exfalso. apply Hnotin. eapply list_elem_of_lookup_2, E.
Qed.

(** A string already in the table: its id, and nothing changes. *)
Lemma add_seen (table : SharedStrings.t) (str : string) (index : nat) :
  SharedStrings.stringIndexMap table !! str = Some index ->
  SharedStrings.add str table = (index, table).
Proof. intros Hin. unfold SharedStrings.add. now rewrite Hin. Qed.

(** A string not in the table: it is appended and its id is the size the
    table had. *)
Lemma add_unseen (table : SharedStrings.t) (str : string) :
  SharedStrings.stringIndexMap table !! str = None ->
  SharedStrings.add str table =
  (SharedStrings.size table,
   {| SharedStrings.strings := SharedStrings.strings table ++ [str];
      SharedStrings.stringIndexMap :=
        <[str := SharedStrings.size table]> (SharedStrings.stringIndexMap table);
      SharedStrings.file := SharedStrings.file table |}).
Proof.
  intros Hnone. unfold SharedStrings.add, SharedStrings.size. rewrite Hnone.
  rewrite length_app. simpl.
  replace (length (SharedStrings.strings table) + 1 - 1)%nat
    with (length (SharedStrings.strings table)) by lia.
  reflexivity.
Qed.

Lemma consistent_add (table : SharedStrings.t) (str : string) :
  consistent table -> consistent (snd (SharedStrings.add str table)).
Proof.
  intros Hc.
  destruct (SharedStrings.stringIndexMap table !! str) as [index|] eqn:E.
  - now rewrite (add_seen _ _ _ E).
  - rewrite (add_unseen _ _ E). intros s i. simpl.
    pose proof (proj1 (consistent_absent table str Hc) E) as Hnotin.
    unfold SharedStrings.size.
    destruct (decide (str = s)) as [->|Hne].
    + rewrite lookup_insert_eq. split.
      * intros [= <-]. now rewrite lookup_app_r, Nat.sub_diag by lia.
      * intros Hl. f_equal.
        destruct (decide (i < length (SharedStrings.strings table))%nat)
          as [Hlt|Hge].
        -- rewrite lookup_app_l in Hl by exact Hlt.
           exfalso. apply Hnotin. eapply list_elem_of_lookup_2, Hl.
        -- rewrite lookup_app_r in Hl by lia.
           apply lookup_lt_Some in Hl. simpl in Hl. lia.
    + rewrite lookup_insert_ne by exact Hne. rewrite (Hc s i). split.
      * intros Hl. rewrite lookup_app_l; [exact Hl |].
        now apply lookup_lt_Some in Hl.
      * intros Hl.
        destruct (decide (i < length (SharedStrings.strings table))%nat)
          as [Hlt|Hge].
        -- now rewrite lookup_app_l in Hl by exact Hlt.
        -- rewrite lookup_app_r in Hl by lia.
           destruct (i - length (SharedStrings.strings table))%nat;
             simpl in Hl; [congruence | discriminate].
Qed.

(** The id [add] returns is the position of the string in the table it
    leaves. *)
Lemma add_lookup (table : SharedStrings.t) (str : string) :
  consistent table ->
  SharedStrings.strings (snd (SharedStrings.add str table))
    !! fst (SharedStrings.add str table) = Some str.
Proof.
  intros Hc.
  destruct (SharedStrings.stringIndexMap table !! str) as [index|] eqn:E.
  - rewrite (add_seen _ _ _ E). simpl. now apply Hc.
  - rewrite (add_unseen _ _ E). simpl. unfold SharedStrings.size.
    now rewrite lookup_app_r, Nat.sub_diag by lia.
Qed.

(** [add] only ever appends. *)
Lemma add_prefix (table : SharedStrings.t) (str : string) :
  SharedStrings.strings table
    `prefix_of` SharedStrings.strings (snd (SharedStrings.add str table)).
Proof.
  destruct (SharedStrings.stringIndexMap table !! str) as [index|] eqn:E.
  - now rewrite (add_seen _ _ _ E).
  - rewrite (add_unseen _ _ E). simpl. now exists [str].
Qed.

Lemma add_elem_of (table : SharedStrings.t) (str x : string) :
  consistent table ->
  x ∈ SharedStrings.strings (snd (SharedStrings.add str table))
  <-> x ∈ SharedStrings.strings table \/ x = str.
Proof.
  intros Hc.
  destruct (SharedStrings.stringIndexMap table !! str) as [index|] eqn:E.
  - rewrite (add_seen _ _ _ E). simpl. split; [tauto |].
    intros [Hin | ->]; [exact Hin |].
    apply Hc in E. eapply list_elem_of_lookup_2, E.
  - rewrite (add_unseen _ _ E). simpl. rewrite elem_of_app, list_elem_of_singleton.
    reflexivity.
Qed.

Lemma add_file (table : SharedStrings.t) (str : string) :
  SharedStrings.file (snd (SharedStrings.add str table))
  = SharedStrings.file table.
Proof. unfold SharedStrings.add. now destruct (_ !! str). Qed.

Lemma add_all_cons (str : string) (rest : list string) (table : SharedStrings.t) :
  add_all (str :: rest) table =
  (fst (SharedStrings.add str table)
     :: fst (add_all rest (snd (SharedStrings.add str table))),
   snd (add_all rest (snd (SharedStrings.add str table)))).
Proof.
  simpl. destruct (SharedStrings.add str table) as [id table1].
  simpl. now destruct (add_all rest table1).
Qed.

Lemma add_all_app (calls1 calls2 : list string) (table : SharedStrings.t) :
  add_all (calls1 ++ calls2) table =
  (fst (add_all calls1 table) ++ fst (add_all calls2 (snd (add_all calls1 table))),
   snd (add_all calls2 (snd (add_all calls1 table)))).
Proof.
  revert table. induction calls1 as [|str calls1 IH]; intros table.
  - simpl. now destruct (add_all calls2 table).
  - rewrite <- app_comm_cons, !add_all_cons, IH. reflexivity.
Qed.

Lemma add_all_length (calls : list string) (table : SharedStrings.t) :
  length (fst (add_all calls table)) = length calls.
Proof.
  revert table. induction calls as [|str calls IH]; intros table;
    [reflexivity |].
  rewrite add_all_cons. simpl. now rewrite IH.
Qed.

Lemma add_all_consistent (calls : list string) (table : SharedStrings.t) :
  consistent table -> consistent (snd (add_all calls table)).
Proof.
  revert table. induction calls as [|str calls IH]; intros table Hc;
    [exact Hc |].
  rewrite add_all_cons. simpl. apply IH, consistent_add, Hc.
Qed.

Lemma add_all_prefix (calls : list string) (table : SharedStrings.t) :
  SharedStrings.strings table
    `prefix_of` SharedStrings.strings (snd (add_all calls table)).
Proof.
  revert table. induction calls as [|str calls IH]; intros table;
    [reflexivity |].
  rewrite add_all_cons. simpl.
  etransitivity; [apply (add_prefix table str) | apply IH].
Qed.

Lemma add_all_elem_of (calls : list string) (table : SharedStrings.t) (x : string) :
  consistent table ->
  x ∈ SharedStrings.strings (snd (add_all calls table))
  <-> x ∈ SharedStrings.strings table \/ x ∈ calls.
Proof.
  revert table. induction calls as [|str calls IH]; intros table Hc.
  - simpl. rewrite elem_of_nil. tauto.
  - rewrite add_all_cons. simpl.
    rewrite IH by (apply consistent_add, Hc).
    rewrite add_elem_of by exact Hc. rewrite elem_of_cons. tauto.
Qed.

(** Every call returns the position its string has in the final table. *)
Lemma add_all_lookup (calls : list string) (table : SharedStrings.t)
    (i : nat) (str : string) :
  consistent table ->
  calls !! i = Some str ->
  exists id, fst (add_all calls table) !! i = Some id
             /\ SharedStrings.strings (snd (add_all calls table)) !! id = Some str.
Proof.
  revert table i. induction calls as [|s calls IH]; intros table i Hc Hi;
    [discriminate |].
  rewrite add_all_cons. destruct i as [|i]; simpl in *.
  - injection Hi as ->. eexists. split; [reflexivity |].
    eapply prefix_lookup_Some; [apply add_lookup, Hc | apply add_all_prefix].
  - apply IH; [apply consistent_add, Hc | exact Hi].
Qed.

(** The table a sequence of calls leaves holds each distinct string once. *)
Lemma add_all_size (calls : list string) (path : string) :
  SharedStrings.size (snd (add_all calls (SharedStrings.new path)))
  = size (list_to_set calls : gset string).
Proof.
  pose proof (add_all_consistent calls _ (consistent_new path)) as Hc.
  unfold SharedStrings.size.
  rewrite <- (size_list_to_set (C := gset string))
    by (apply consistent_NoDup, Hc).
  f_equal. apply set_eq. intros x. rewrite !elem_of_list_to_set.
  rewrite add_all_elem_of by apply consistent_new.
  simpl. rewrite elem_of_nil. tauto.
Qed.

(** C2.  On a fresh table, for every sequence of [add] calls: two calls
    return the same id exactly when they were given the same string (the
    same string twice gives the same id, distinct strings give distinct
    ids); a call whose string no earlier call was given returns the size the
    table has at that moment, the ids so running 0, 1, 2, ...; and [size]
    is the number of distinct strings added so far. *)
Theorem add_deduplicates (path : string) (calls : list string) :
  let ids := fst (add_all calls (SharedStrings.new path)) in
  let table_after (n : nat) := snd (add_all (take n calls) (SharedStrings.new path)) in
  length ids = length calls
  /\ (forall i j str1 str2,
        calls !! i = Some str1 -> calls !! j = Some str2 ->
        exists id1 id2, ids !! i = Some id1 /\ ids !! j = Some id2
                        /\ (str1 = str2 <-> id1 = id2))
  /\ (forall i str,
        calls !! i = Some str -> str ∉ take i calls ->
        ids !! i = Some (SharedStrings.size (table_after i)))
  /\ (forall n,
        SharedStrings.size (table_after n)
        = size (list_to_set (take n calls) : gset string)).
Proof.
  intros ids table_after. subst ids table_after. cbv beta.
  pose proof (consistent_new path) as Hnew.
  split; [apply add_all_length |]. split; [| split].
  - intros i j str1 str2 Hi Hj.
    destruct (add_all_lookup calls _ i str1 Hnew Hi) as (id1 & Hid1 & Hs1).
    destruct (add_all_lookup calls _ j str2 Hnew Hj) as (id2 & Hid2 & Hs2).
    exists id1, id2. split; [exact Hid1 |]. split; [exact Hid2 |].
    pose proof (add_all_consistent calls _ Hnew) as Hc.
    split.
    + intros <-. apply Hc in Hs1, Hs2. congruence.
    + intros <-. congruence.
  - intros i str Hi Hfresh.
    rewrite <- (take_drop_middle calls i str Hi) at 1.
    rewrite add_all_app, add_all_cons. cbn [fst].
    pose proof (add_all_length (take i calls) (SharedStrings.new path)) as Hlen.
    rewrite length_take_le in Hlen by (apply lookup_lt_Some in Hi; lia).
    rewrite lookup_app_r by lia. rewrite Hlen, Nat.sub_diag. cbn [lookup list_lookup].
    f_equal.
    pose proof (add_all_consistent (take i calls) _ Hnew) as Hc.
    rewrite add_unseen; [reflexivity |].
    apply consistent_absent; [exact Hc |].
    rewrite add_all_elem_of by exact Hnew. simpl. rewrite elem_of_nil. tauto.
  - intros n. apply add_all_size.
Qed.

(** C2 on the calls a, b, a: the ids are 0, 1, 0; the two calls with a get
    the same id, and b, new at its call, gets the size the table then has. *)
Lemma add_deduplicates_witness :
  fst (add_all ["a"; "b"; "a"] (SharedStrings.new "t.xml")) = [0; 1; 0]%nat
  /\ (exists id1 id2,
        fst (add_all ["a"; "b"; "a"] (SharedStrings.new "t.xml")) !! 0%nat = Some id1
        /\ fst (add_all ["a"; "b"; "a"] (SharedStrings.new "t.xml")) !! 2%nat = Some id2
        /\ ("a" = "a" <-> id1 = id2))
  /\ fst (add_all ["a"; "b"; "a"] (SharedStrings.new "t.xml")) !! 1%nat
     = Some (SharedStrings.size
               (snd (add_all (take 1 ["a"; "b"; "a"]) (SharedStrings.new "t.xml")))).
Proof.
  pose proof (add_deduplicates "t.xml" ["a"; "b"; "a"]) as (_ & Hsame & Hnew & _).
  split; [vm_compute; reflexivity |]. split.
  - apply (Hsame 0%nat 2%nat "a" "a"); reflexivity.
  - apply (Hnew 1%nat "b"); [reflexivity |].
    simpl. rewrite list_elem_of_singleton. discriminate.
Defined.

(** ** shared-strings.ts: generation *)

(** Whatever the batch size, the loop writes every pending and every
    remaining entry once, in order. *)
Lemma entries_loop_content (batch : nat) (strs acc : list string)
    (ws : WriteStream) :
  file_content (snd (SharedStrings.entries_loop batch strs acc ws))
    +:+ join (fst (SharedStrings.entries_loop batch strs acc ws))
  = file_content ws +:+ join acc +:+ join (map SharedStrings.entry strs).
Proof.
  revert acc ws. induction strs as [|str strs IH]; intros acc ws.
  - simpl. now rewrite append_nil_r.
  - cbn [SharedStrings.entries_loop map].
    destruct (length (acc ++ [SharedStrings.entry str]) mod batch =? 0)%nat.
    + rewrite IH, file_content_write, join_singleton, join_app, join_singleton.
      rewrite join_cons. cbn [join foldr].
      now rewrite append_nil_l, !append_assoc.
    + rewrite IH, join_app, join_singleton, join_cons.
      now rewrite !append_assoc.
Qed.

(** With a positive batch size the loop flushes groups of exactly that many
    whole entries and leaves fewer than that pending. *)
Lemma entries_loop_batches (batch : nat) (strs pending : list string)
    (ws : WriteStream) :
  (0 < batch)%nat -> (length pending < batch)%nat ->
  exists groups last,
    SharedStrings.entries_loop batch strs (map SharedStrings.entry pending) ws
    = (map SharedStrings.entry last, ws ++ map batch_write groups)
    /\ pending ++ strs = concat groups ++ last
    /\ Forall (fun group => length group = batch) groups
    /\ (length last < batch)%nat.
Proof.
  intros Hbatch. revert pending ws.
  induction strs as [|str strs IH]; intros pending ws Hpending.
  - exists [], pending. simpl. rewrite !app_nil_r. auto.
  - cbn [SharedStrings.entries_loop].
    replace (map SharedStrings.entry pending ++ [SharedStrings.entry str])
      with (map SharedStrings.entry (pending ++ [str]))
      by (now rewrite map_app).
    rewrite length_map, length_app. simpl.
    destruct (decide (length pending + 1 = batch)%nat) as [Hfull|Hless].
    + rewrite Hfull, Nat.Div0.mod_same. simpl.
      destruct (IH [] (write [join (map SharedStrings.entry (pending ++ [str]))] ws))
        as (groups & last & Heq & Hsplit & Hall & Hlast); [simpl; lia |].
      exists ((pending ++ [str]) :: groups), last.
      simpl in Heq. rewrite Heq. unfold write. rewrite join_singleton.
      split; [| split; [| split]].
      * f_equal. rewrite <- app_assoc. reflexivity.
      * simpl. simpl in Hsplit. rewrite Hsplit, <- !app_assoc. reflexivity.
      * constructor; [rewrite length_app; simpl; lia | exact Hall].
      * exact Hlast.
    + rewrite Nat.mod_small by lia.
      destruct (Nat.eqb_spec (length pending + 1) 0) as [Hz|_]; [lia |].
      destruct (IH (pending ++ [str]) ws) as (groups & last & Heq & Hsplit & Hall & Hlast);
        [rewrite length_app; simpl; lia |].
      exists groups, last. rewrite Heq, <- Hsplit, <- app_assoc. auto.
Qed.

Lemma generate_writes_content (batch : nat) (table : SharedStrings.t) :
  file_content (SharedStrings.generate_writes batch table) = sst_document table.
Proof.
  unfold SharedStrings.generate_writes, sst_document.
  pose proof (entries_loop_content batch (SharedStrings.strings table) []
                (write (SharedStrings.header table) [])) as Hloop.
  destruct (SharedStrings.entries_loop batch (SharedStrings.strings table) []
              (write (SharedStrings.header table) [])) as [acc ws].
  cbn [fst snd] in Hloop.
  rewrite file_content_write, join_cons, join_singleton, <- append_assoc, Hloop.
  rewrite file_content_write. now normalize_strings.
Qed.


(** ** utils.ts: the doubles *)

(** *** Powers of two and of ten *)

Lemma Qpower2_pos (e : Z) : (0 < 2 ^ e)%Q.
Proof. now apply Qpower_0_lt. Qed.

Lemma Qpower10_pos (e : Z) : (0 < 10 ^ e)%Q.
Proof. now apply Qpower_0_lt. Qed.

Lemma Qpower2_plus (a b : Z) : (2 ^ (a + b) == 2 ^ a * 2 ^ b)%Q.
Proof. now apply Qpower_plus. Qed.

Lemma Qpower10_plus (a b : Z) : (10 ^ (a + b) == 10 ^ a * 10 ^ b)%Q.
Proof. now apply Qpower_plus. Qed.

Lemma Qpower2_inject (e : Z) : 0 <= e -> (inject_Z (2 ^ e) == 2 ^ e)%Q.
Proof. intros He. now rewrite Zpower_Qpower. Qed.

Lemma Qpower10_inject (e : Z) : 0 <= e -> (inject_Z (10 ^ e) == 10 ^ e)%Q.
Proof. intros He. now rewrite Zpower_Qpower. Qed.

(** *** The nearest integer *)

Lemma nearest_even_bounds (x : Q) :
  (x - (1 # 2) <= inject_Z (Binary64.nearest_even x)
   /\ inject_Z (Binary64.nearest_even x) <= x + (1 # 2))%Q.
Proof.
  unfold Binary64.nearest_even.
  pose proof (Qfloor_le x) as Hle. pose proof (Qlt_floor x) as Hlt.
  rewrite inject_Z_plus in Hlt. change (inject_Z 1) with 1%Q in Hlt.
  destruct (Qcompare_spec (x - inject_Z (Qfloor x)) (1 # 2)) as [He|Hc|Hc];
    [destruct (Z.even (Qfloor x)) | |];
    rewrite ?inject_Z_plus; change (inject_Z 1) with 1%Q; split; lra.
Qed.

Lemma nearest_even_unique (x : Q) (z : Z) :
  (inject_Z z - (1 # 2) < x)%Q -> (x < inject_Z z + (1 # 2))%Q ->
  Binary64.nearest_even x = z.
Proof.
  intros Hlo Hhi. destruct (nearest_even_bounds x) as [H1 H2].
  assert (inject_Z (Binary64.nearest_even x) < inject_Z (z + 1))%Q as Ha
    by (rewrite inject_Z_plus; change (inject_Z 1) with 1%Q; lra).
  assert (inject_Z z < inject_Z (Binary64.nearest_even x + 1))%Q as Hb
    by (rewrite inject_Z_plus; change (inject_Z 1) with 1%Q; lra).
  rewrite <- Zlt_Qlt in Ha, Hb. lia.
Qed.

Lemma nearest_even_Z (z : Z) : Binary64.nearest_even (inject_Z z) = z.
Proof. apply nearest_even_unique; lra. Qed.

Lemma nearest_even_comp (x y : Q) :
  (x == y)%Q -> Binary64.nearest_even x = Binary64.nearest_even y.
Proof.
  intros Heq. unfold Binary64.nearest_even.
  rewrite (Qfloor_comp _ _ Heq).
  assert ((x - inject_Z (Qfloor y) ?= 1 # 2)%Q = (y - inject_Z (Qfloor y) ?= 1 # 2)%Q)
    as -> by now rewrite Heq.
  reflexivity.
Qed.

Lemma nearest_even_monotone (x y : Q) :
  (x <= y)%Q -> Binary64.nearest_even x <= Binary64.nearest_even y.
Proof.
  intros Hxy. pose proof (Qfloor_resp_le _ _ Hxy) as Hf.
  unfold Binary64.nearest_even.
  pose proof (Qfloor_le x) as Hlx. pose proof (Qlt_floor x) as Hux.
  pose proof (Qfloor_le y) as Hly. pose proof (Qlt_floor y) as Huy.
  rewrite inject_Z_plus in Hux, Huy. change (inject_Z 1) with 1%Q in Hux, Huy.
  destruct (Z.eq_dec (Qfloor x) (Qfloor y)) as [Heq|Hne].
  - rewrite <- Heq in *.
    destruct (Qcompare_spec (x - inject_Z (Qfloor x)) (1 # 2)) as [Hx|Hx|Hx];
      destruct (Qcompare_spec (y - inject_Z (Qfloor x)) (1 # 2)) as [Hy|Hy|Hy];
      destruct (Z.even (Qfloor x)); try lia; exfalso; lra.
  - assert (Qfloor x + 1 <= Qfloor y) by lia.
    destruct (Qcompare_spec (x - inject_Z (Qfloor x)) (1 # 2)) as [Hx|Hx|Hx];
      destruct (Qcompare_spec (y - inject_Z (Qfloor y)) (1 # 2)) as [Hy|Hy|Hy];
      destruct (Z.even (Qfloor x)), (Z.even (Qfloor y)); lia.
Qed.

(** *** The binary exponent *)

Lemma Qpower2_fraction (a b : Z) :
  0 <= a -> 0 <= b -> (2 ^ (a - b) == (2 ^ a)%Z # Z.to_pos (2 ^ b)%Z)%Q.
Proof.
  intros Ha Hb.
  rewrite (Qmake_Qdiv (2 ^ a) (Z.to_pos (2 ^ b))), Z2Pos.id
    by (apply Z.pow_pos_nonneg; lia).
  rewrite Qpower_minus by discriminate. now rewrite !Zpower_Qpower.
Qed.

Lemma exponent_spec (x : Q) :
  (0 < x)%Q ->
  (2 ^ Binary64.exponent x <= x /\ x < 2 ^ (Binary64.exponent x + 1))%Q.
Proof.
  intros Hpos. unfold Binary64.exponent. destruct x as [n d]. cbn [Qnum Qden].
  assert (0 < n) as Hn by (unfold Qlt in Hpos; cbn in Hpos; lia).
  pose proof (Z.log2_spec n Hn) as [Hn1 Hn2].
  pose proof (Z.log2_spec (Zpos d) (Pos2Z.is_pos d)) as [Hd1 Hd2].
  pose proof (Z.log2_nonneg n) as Hln. pose proof (Z.log2_nonneg (Zpos d)) as Hld.
  set (ln := Z.log2 n) in *. set (ld := Z.log2 (Zpos d)) in *.
  assert (0 < 2 ^ ld) as Hpd by (apply Z.pow_pos_nonneg; lia).
  assert (0 < 2 ^ ln) as Hpn by (apply Z.pow_pos_nonneg; lia).
  assert (n # d < 2 ^ (ln - ld + 1))%Q as Hupper.
  { replace (ln - ld + 1) with (Z.succ ln - ld) by lia.
    rewrite Qpower2_fraction by lia. unfold Qlt. cbn [Qnum Qden].
    rewrite Z2Pos.id by lia. nia. }
  assert (2 ^ (ln - ld - 1) <= n # d)%Q as Hlower.
  { replace (ln - ld - 1) with (ln - Z.succ ld) by lia.
    rewrite Qpower2_fraction by lia. unfold Qle. cbn [Qnum Qden].
    rewrite Z2Pos.id by (apply Z.pow_pos_nonneg; lia). nia. }
  destruct (Qle_bool (2 ^ (ln - ld)) (n # d)) eqn:Htest.
  - split; [now apply Qle_bool_iff | exact Hupper].
  - split; [exact Hlower |].
    replace (ln - ld - 1 + 1) with (ln - ld) by lia.
    apply Qnot_le_lt. intros Hle. apply Qle_bool_iff in Hle. congruence.
Qed.

Lemma exponent_unique (x : Q) (e : Z) :
  (2 ^ e <= x)%Q -> (x < 2 ^ (e + 1))%Q -> Binary64.exponent x = e.
Proof.
  intros Hlo Hhi.
  assert (0 < x)%Q as Hpos by (pose proof (Qpower2_pos e); lra).
  destruct (exponent_spec x Hpos) as [Hlo' Hhi'].
  assert (2 ^ e < 2 ^ (Binary64.exponent x + 1))%Q as H1 by lra.
  assert (2 ^ Binary64.exponent x < 2 ^ (e + 1))%Q as H2 by lra.
  apply Qpower_lt_compat_l_inv in H1; [| reflexivity].
  apply Qpower_lt_compat_l_inv in H2; [| reflexivity]. lia.
Qed.

Lemma exponent_comp (x y : Q) :
  (0 < x)%Q -> (x == y)%Q -> Binary64.exponent x = Binary64.exponent y.
Proof.
  intros Hpos Heq. symmetry. apply exponent_unique; rewrite <- Heq;
    now apply exponent_spec.
Qed.

Lemma exponent_monotone (x y : Q) :
  (0 < x)%Q -> (x <= y)%Q -> Binary64.exponent x <= Binary64.exponent y.
Proof.
  intros Hpos Hxy.
  destruct (exponent_spec x Hpos) as [Hlo _].
  destruct (exponent_spec y ltac:(lra)) as [_ Hhi].
  assert (2 ^ Binary64.exponent x < 2 ^ (Binary64.exponent y + 1))%Q as H by lra.
  apply Qpower_lt_compat_l_inv in H; [| reflexivity]. lia.
Qed.

(** *** Rounding: error, exact values, sign *)

Lemma min_normal_small (x : Q) : (1 # 1073741824 <= x)%Q -> (min_normal <= x)%Q.
Proof.
  intros Hx. unfold min_normal.
  assert (2 ^ (-1022) <= 2 ^ (-30))%Q as H
    by (apply Qpower_le_compat_l; [lia | discriminate]).
  assert (2 ^ (-30) == 1 # 1073741824)%Q as E by reflexivity.
  rewrite E in H. lra.
Qed.

Lemma normal_exponent (x : Q) :
  (min_normal <= x)%Q -> Z.max (Binary64.exponent x) (-1022) = Binary64.exponent x.
Proof.
  intros Hx. unfold min_normal in Hx.
  assert (0 < x)%Q as Hpos by (pose proof (Qpower2_pos (-1022)); lra).
  destruct (exponent_spec x Hpos) as [_ Hhi].
  assert (2 ^ (-1022) < 2 ^ (Binary64.exponent x + 1))%Q as H by lra.
  apply Qpower_lt_compat_l_inv in H; [| reflexivity]. lia.
Qed.

Lemma round_magnitude_near (x : Q) :
  (min_normal <= x)%Q ->
  (x * (1 - unit_roundoff) <= Binary64.round_magnitude x
   /\ Binary64.round_magnitude x <= x * (1 + unit_roundoff))%Q.
Proof.
  intros Hx. unfold Binary64.round_magnitude. rewrite (normal_exponent x Hx).
  assert (0 < x)%Q as Hpos
    by (unfold min_normal in Hx; pose proof (Qpower2_pos (-1022)); lra).
  destruct (exponent_spec x Hpos) as [Hlo _].
  set (e := Binary64.exponent x) in *.
  pose proof (Qpower2_pos (e - 52)) as Hulp.
  assert (2 ^ e == 2 ^ (e - 52) * 4503599627370496)%Q as He.
  { replace e with (e - 52 + 52) at 1 by lia. rewrite Qpower2_plus. reflexivity. }
  set (ulp := (2 ^ (e - 52))%Q) in *.
  destruct (nearest_even_bounds (x / ulp)) as [H1 H2].
  set (N := inject_Z (Binary64.nearest_even (x / ulp))) in *.
  assert ((x / ulp - (1 # 2)) * ulp <= N * ulp)%Q as H1'
    by (apply Qmult_le_compat_r; lra).
  assert (N * ulp <= (x / ulp + (1 # 2)) * ulp)%Q as H2'
    by (apply Qmult_le_compat_r; lra).
  assert ((x / ulp - (1 # 2)) * ulp == x - ulp * (1 # 2))%Q as E1 by (field; lra).
  assert ((x / ulp + (1 # 2)) * ulp == x + ulp * (1 # 2))%Q as E2 by (field; lra).
  rewrite E1 in H1'. rewrite E2 in H2'. unfold unit_roundoff. split; lra.
Qed.

Lemma round_magnitude_exact (m j : Z) :
  0 < m < 2 ^ 53 -> -1074 <= j ->
  (Binary64.round_magnitude (inject_Z m * 2 ^ j) == inject_Z m * 2 ^ j)%Q.
Proof.
  intros [Hm1 Hm2] Hj. unfold Binary64.round_magnitude.
  pose proof (Qpower2_pos j) as Hpj.
  assert (1 <= inject_Z m)%Q as Hm1'
    by (change 1%Q with (inject_Z 1); rewrite <- Zle_Qle; lia).
  assert (inject_Z m < 2 ^ 53)%Q as Hm2'
    by (change (2 ^ 53)%Q with (inject_Z (2 ^ 53)); now rewrite <- Zlt_Qlt).
  assert (0 < inject_Z m * 2 ^ j)%Q as Hpos by nra.
  destruct (exponent_spec _ Hpos) as [Hlo _].
  set (e := Binary64.exponent (inject_Z m * 2 ^ j)) in *.
  assert (e < j + 53) as He.
  { assert (inject_Z m * 2 ^ j < 2 ^ 53 * 2 ^ j)%Q as H
      by (apply Qmult_lt_compat_r; assumption).
    rewrite <- Qpower2_plus in H.
    assert (2 ^ e < 2 ^ (53 + j))%Q as H' by lra.
    apply Qpower_lt_compat_l_inv in H'; [lia | reflexivity]. }
  set (E := Z.max e (-1022) - 52).
  assert (E <= j) as HE by lia.
  assert (2 ^ j == 2 ^ E * inject_Z (2 ^ (j - E)))%Q as Hsplit.
  { rewrite Qpower2_inject by lia. rewrite <- Qpower2_plus.
    now replace (E + (j - E)) with j by lia. }
  pose proof (Qpower2_pos E) as HpE.
  assert (inject_Z m * 2 ^ j / 2 ^ E == inject_Z (m * 2 ^ (j - E)))%Q as Hquot.
  { rewrite Hsplit, inject_Z_mult. field. lra. }
  rewrite (nearest_even_comp _ _ Hquot), nearest_even_Z.
  rewrite inject_Z_mult, Hsplit. ring.
Qed.

Lemma round_pos (x : Q) :
  (0 < x)%Q -> Binary64.round x = Binary64.round_magnitude x.
Proof.
  intros Hx. unfold Binary64.round. now rewrite (proj1 (Qgt_alt x 0) Hx).
Qed.

Lemma round_neg (x : Q) :
  (x < 0)%Q -> Binary64.round x = (- Binary64.round_magnitude (- x))%Q.
Proof.
  intros Hx. unfold Binary64.round. now rewrite (proj1 (Qlt_alt x 0) Hx).
Qed.

Lemma round_zero (x : Q) : (x == 0)%Q -> Binary64.round x = 0%Q.
Proof.
  intros Hx. unfold Binary64.round. now rewrite (proj1 (Qeq_alt x 0) Hx).
Qed.

Lemma round_magnitude_comp (x y : Q) :
  (0 < x)%Q -> (x == y)%Q ->
  (Binary64.round_magnitude x == Binary64.round_magnitude y)%Q.
Proof.
  intros Hpos Heq. unfold Binary64.round_magnitude.
  rewrite <- (exponent_comp x y Hpos Heq).
  assert (x / 2 ^ (Z.max (Binary64.exponent x) (-1022) - 52)
          == y / 2 ^ (Z.max (Binary64.exponent x) (-1022) - 52))%Q as E
    by (apply Qmult_comp; [exact Heq | reflexivity]).
  now rewrite (nearest_even_comp _ _ E).
Qed.

#[global] Instance round_comp : Proper (Qeq ==> Qeq) Binary64.round.
Proof.
  intros x y Heq.
  destruct (Q_dec x 0) as [[Hneg|Hpos]|Hzero].
  - rewrite !round_neg by lra.
    apply Qopp_comp, round_magnitude_comp; [lra | now rewrite Heq].
  - rewrite !round_pos by lra. now apply round_magnitude_comp.
  - rewrite !round_zero by (try rewrite <- Heq; assumption). reflexivity.
Qed.

Lemma round_opp (x : Q) : (Binary64.round (- x) == - Binary64.round x)%Q.
Proof.
  destruct (Q_dec x 0) as [[Hneg|Hpos]|Hzero].
  - rewrite (round_neg x Hneg), (round_pos (- x)) by lra. ring.
  - rewrite (round_pos x Hpos), (round_neg (- x)) by lra.
    apply Qopp_comp, round_magnitude_comp; [lra | ring].
  - rewrite (round_zero x Hzero), (round_zero (- x)) by lra. reflexivity.
Qed.

Lemma round_near_pos (x : Q) :
  (min_normal <= x)%Q ->
  (x * (1 - unit_roundoff) <= Binary64.round x
   /\ Binary64.round x <= x * (1 + unit_roundoff))%Q.
Proof.
  intros Hx.
  assert (0 < x)%Q as Hpos
    by (unfold min_normal in Hx; pose proof (Qpower2_pos (-1022)); lra).
  rewrite (round_pos x Hpos). now apply round_magnitude_near.
Qed.

Lemma round_near_neg (x : Q) :
  (x <= - min_normal)%Q ->
  (x * (1 + unit_roundoff) <= Binary64.round x
   /\ Binary64.round x <= x * (1 - unit_roundoff))%Q.
Proof.
  intros Hx.
  assert (x < 0)%Q as Hneg
    by (unfold min_normal in Hx; pose proof (Qpower2_pos (-1022)); lra).
  rewrite (round_neg x Hneg).
  destruct (round_magnitude_near (- x) ltac:(lra)) as [H1 H2]. split; lra.
Qed.

Lemma round_exact (m j : Z) :
  Z.abs m < 2 ^ 53 -> -1074 <= j ->
  (Binary64.round (inject_Z m * 2 ^ j) == inject_Z m * 2 ^ j)%Q.
Proof.
  intros Hm Hj. pose proof (Qpower2_pos j) as Hpj.
  destruct (Z.lt_trichotomy m 0) as [Hneg|[->|Hpos]].
  - assert (inject_Z m <= -1)%Q as Hm'
      by (change (-1)%Q with (inject_Z (-1)); rewrite <- Zle_Qle; lia).
    assert (inject_Z m * 2 ^ j < 0)%Q as Hlt
      by (set (p := (2 ^ j)%Q) in *; nra).
    rewrite round_neg by exact Hlt.
    assert (- (inject_Z m * 2 ^ j) == inject_Z (- m) * 2 ^ j)%Q as E
      by (rewrite inject_Z_opp; ring).
    assert (0 < - (inject_Z m * 2 ^ j))%Q as Hgt by lra.
    rewrite (round_magnitude_comp _ _ Hgt E).
    rewrite round_magnitude_exact by lia. rewrite inject_Z_opp. ring.
  - rewrite round_zero by ring. ring.
  - assert (1 <= inject_Z m)%Q as Hm'
      by (change 1%Q with (inject_Z 1); rewrite <- Zle_Qle; lia).
    assert (0 < inject_Z m * 2 ^ j)%Q as Hlt
      by (set (p := (2 ^ j)%Q) in *; nra).
    rewrite round_pos by exact Hlt. apply round_magnitude_exact; lia.
Qed.

Lemma round_inject_Z (z : Z) :
  Z.abs z < 2 ^ 53 -> (Binary64.round (inject_Z z) == inject_Z z)%Q.
Proof.
  intros Hz. pose proof (round_exact z 0 Hz ltac:(lia)) as H.
  change (2 ^ 0)%Q with 1%Q in H. now rewrite !Qmult_1_r in H.
Qed.

(** *** Rounding keeps the order *)

Lemma round_magnitude_nonneg (x : Q) :
  (0 <= x)%Q -> (0 <= Binary64.round_magnitude x)%Q.
Proof.
  intros Hx. unfold Binary64.round_magnitude.
  set (ulp := (2 ^ (Z.max (Binary64.exponent x) (-1022) - 52))%Q).
  assert (0 < ulp)%Q as Hulp by apply Qpower2_pos.
  assert (0 <= x / ulp)%Q as Hq
    by (apply Qle_shift_div_l; [exact Hulp | lra]).
  pose proof (nearest_even_monotone _ _ Hq) as Hn.
  change 0%Q with (inject_Z 0) in Hn. rewrite nearest_even_Z in Hn.
  apply Qmult_le_0_compat; [| lra].
  change 0%Q with (inject_Z 0). now rewrite <- Zle_Qle.
Qed.

Lemma round_magnitude_upper (x : Q) :
  (0 < x)%Q ->
  (Binary64.round_magnitude x <= 2 ^ (Z.max (Binary64.exponent x) (-1022) + 1))%Q.
Proof.
  intros Hpos. unfold Binary64.round_magnitude.
  destruct (exponent_spec x Hpos) as [_ Hhi].
  set (E := Z.max (Binary64.exponent x) (-1022)).
  assert (2 ^ (Binary64.exponent x + 1) <= 2 ^ (E + 1))%Q as Hle
    by (apply Qpower_le_compat_l; [lia | discriminate]).
  pose proof (Qpower2_pos (E - 52)) as Hulp.
  assert (2 ^ (E + 1) == inject_Z (2 ^ 53) * 2 ^ (E - 52))%Q as Hsplit.
  { replace (E + 1) with (53 + (E - 52)) by lia. now rewrite Qpower2_plus. }
  assert (x / 2 ^ (E - 52) <= inject_Z (2 ^ 53))%Q as Hq.
  { apply Qle_shift_div_r; [exact Hulp |]. rewrite <- Hsplit. lra. }
  pose proof (nearest_even_monotone _ _ Hq) as Hn.
  rewrite nearest_even_Z in Hn. rewrite Hsplit.
  apply Qmult_le_compat_r; [| lra]. now rewrite <- Zle_Qle.
Qed.

Lemma round_magnitude_lower (x : Q) :
  (min_normal <= x)%Q ->
  (2 ^ Binary64.exponent x <= Binary64.round_magnitude x)%Q.
Proof.
  intros Hx. unfold Binary64.round_magnitude. rewrite (normal_exponent x Hx).
  assert (0 < x)%Q as Hpos
    by (unfold min_normal in Hx; pose proof (Qpower2_pos (-1022)); lra).
  destruct (exponent_spec x Hpos) as [Hlo _].
  set (e := Binary64.exponent x) in *.
  pose proof (Qpower2_pos (e - 52)) as Hulp.
  assert (2 ^ e == inject_Z (2 ^ 52) * 2 ^ (e - 52))%Q as Hsplit.
  { replace e with (52 + (e - 52)) at 1 by lia. now rewrite Qpower2_plus. }
  assert (inject_Z (2 ^ 52) <= x / 2 ^ (e - 52))%Q as Hq.
  { apply Qle_shift_div_l; [exact Hulp |]. rewrite <- Hsplit. exact Hlo. }
  pose proof (nearest_even_monotone _ _ Hq) as Hn.
  rewrite nearest_even_Z in Hn. rewrite Hsplit.
  apply Qmult_le_compat_r; [| lra]. now rewrite <- Zle_Qle.
Qed.

Lemma round_magnitude_monotone (x y : Q) :
  (0 < x)%Q -> (x <= y)%Q ->
  (Binary64.round_magnitude x <= Binary64.round_magnitude y)%Q.
Proof.
  intros Hpos Hxy.
  pose proof (exponent_monotone x y Hpos Hxy) as He.
  destruct (Z.eq_dec (Z.max (Binary64.exponent x) (-1022))
                     (Z.max (Binary64.exponent y) (-1022))) as [Heq|Hne].
  - unfold Binary64.round_magnitude. rewrite <- Heq.
    set (ulp := (2 ^ (Z.max (Binary64.exponent x) (-1022) - 52))%Q).
    assert (0 < ulp)%Q as Hulp by apply Qpower2_pos.
    assert (x / ulp <= y / ulp)%Q as Hq
      by (apply Qmult_le_compat_r; [exact Hxy | apply Qinv_le_0_compat; lra]).
    pose proof (nearest_even_monotone _ _ Hq) as Hn.
    apply Qmult_le_compat_r; [| lra]. now rewrite <- Zle_Qle.
  - assert (-1022 < Binary64.exponent y) as Hy by lia.
    assert (min_normal <= y)%Q as Hnormal.
    { destruct (exponent_spec y ltac:(lra)) as [Hlo _]. unfold min_normal.
      assert (2 ^ (-1022) <= 2 ^ Binary64.exponent y)%Q
        by (apply Qpower_le_compat_l; [lia | discriminate]).
      lra. }
    pose proof (round_magnitude_upper x Hpos) as Hupper.
    pose proof (round_magnitude_lower y Hnormal) as Hlower.
    assert (2 ^ (Z.max (Binary64.exponent x) (-1022) + 1)
            <= 2 ^ Binary64.exponent y)%Q
      by (apply Qpower_le_compat_l; [lia | discriminate]).
    lra.
Qed.

Lemma round_monotone (x y : Q) :
  (x <= y)%Q -> (Binary64.round x <= Binary64.round y)%Q.
Proof.
  intros Hxy.
  destruct (Q_dec x 0) as [[Hx|Hx]|Hx], (Q_dec y 0) as [[Hy|Hy]|Hy];
    try (exfalso; lra).
  - rewrite (round_neg x Hx), (round_neg y Hy).
    pose proof (round_magnitude_monotone (- y) (- x) ltac:(lra) ltac:(lra)). lra.
  - rewrite (round_neg x Hx), (round_pos y Hy).
    pose proof (round_magnitude_nonneg (- x) ltac:(lra)).
    pose proof (round_magnitude_nonneg y ltac:(lra)). lra.
  - rewrite (round_neg x Hx), (round_zero y Hy).
    pose proof (round_magnitude_nonneg (- x) ltac:(lra)). lra.
  - rewrite (round_pos x Hx), (round_pos y Hy).
    now apply round_magnitude_monotone.
  - rewrite (round_zero x Hx), (round_pos y Hy).
    apply round_magnitude_nonneg. lra.
  - rewrite (round_zero x Hx), (round_zero y Hy). lra.
Qed.

(** *** The digits [toString] finds *)

Lemma first_power_above_unique (x : Q) (n start : Z) (fuel : nat) :
  start <= n <= start + Z.of_nat fuel ->
  (10 ^ (n - 1) <= x)%Q -> (x < 10 ^ n)%Q ->
  Binary64.first_power_above x start fuel = n.
Proof.
  revert start. induction fuel as [|fuel IH]; intros start Hrange Hlo Hhi;
    cbn [Binary64.first_power_above]; [lia |].
  destruct (Qle_bool (10 ^ start) x) eqn:Htest.
  - apply Qle_bool_iff in Htest.
    assert (10 ^ start < 10 ^ n)%Q as H by lra.
    apply Qpower_lt_compat_l_inv in H; [| reflexivity].
    apply IH; [lia | assumption..].
  - destruct (Z.eq_dec start n) as [Heq|Hne]; [exact Heq |]. exfalso.
    assert (10 ^ start <= 10 ^ (n - 1))%Q as H
      by (apply Qpower_le_compat_l; [lia | discriminate]).
    assert (10 ^ start <= x)%Q as H' by lra.
    apply Qle_bool_iff in H'. congruence.
Qed.

Lemma decimal_exponent_unique (x : Q) (n : Z) :
  -330 <= n <= 330 -> (10 ^ (n - 1) <= x)%Q -> (x < 10 ^ n)%Q ->
  Binary64.decimal_exponent x = n.
Proof. intros Hn. apply first_power_above_unique. lia. Qed.

Lemma shortest_found (x : Q) (n s k : Z) (fuel : nat) (start : Z) :
  start <= k <= start + Z.of_nat fuel ->
  Binary64.nearest_even (x * 10 ^ (k - n)) = s ->
  (Binary64.round (inject_Z s * 10 ^ (n - k)) == x)%Q ->
  (forall j, start <= j < k ->
     ~ (Binary64.round
          (inject_Z (Binary64.nearest_even (x * 10 ^ (j - n))) * 10 ^ (n - j))
        == x)%Q) ->
  Binary64.shortest fuel start n x = (s, k).
Proof.
  revert start. induction fuel as [|fuel IH]; intros start Hrange Hs Hvalid Hmin;
    cbn [Binary64.shortest].
  - assert (start = k) as -> by lia. now rewrite Hs.
  - destruct (Z.eq_dec start k) as [->|Hne].
    + rewrite Hs. apply Qeq_bool_iff in Hvalid. now rewrite Hvalid.
    + destruct (Qeq_bool _ x) eqn:Htest.
      * apply Qeq_bool_iff in Htest. destruct (Hmin start ltac:(lia) Htest).
      * apply IH; [lia | assumption.. |]. intros j Hj. apply Hmin. lia.
Qed.

(** Two values on the grid of hundred-thousandths that round to the same
    double are the same value. *)
Lemma round_grid_injective (a b : Z) :
  0 <= a < 2 ^ 50 -> 0 <= b < 2 ^ 50 ->
  (Binary64.round (inject_Z a / 100000) == Binary64.round (inject_Z b / 100000))%Q ->
  a = b.
Proof.
  assert (forall c, 0 < c < 2 ^ 50 ->
            (inject_Z c * (1 # 100000) * (1 - unit_roundoff)
               <= Binary64.round (inject_Z c / 100000)
             /\ Binary64.round (inject_Z c / 100000)
                <= inject_Z c * (1 # 100000) * (1 + unit_roundoff))%Q
            /\ (1 <= inject_Z c < 1125899906842624)%Q) as Hnear.
  { intros c [Hc1 Hc2].
    assert (1 <= inject_Z c)%Q as H1
      by (change 1%Q with (inject_Z 1); rewrite <- Zle_Qle; lia).
    assert (inject_Z c < 1125899906842624)%Q as H2
      by (change 1125899906842624%Q with (inject_Z (2 ^ 50)); now rewrite <- Zlt_Qlt).
    split; [| split; assumption].
    change (inject_Z c / 100000)%Q with (inject_Z c * (1 # 100000))%Q.
    apply round_near_pos, min_normal_small. lra. }
  intros Ha Hb Heq.
  destruct (Z.eq_dec a 0) as [->|Ha0], (Z.eq_dec b 0) as [->|Hb0].
  - reflexivity.
  - exfalso. destruct (Hnear b ltac:(lia)) as [[H1 _] [H2 _]].
    rewrite <- Heq, round_zero in H1 by reflexivity.
    unfold unit_roundoff in H1. lra.
  - exfalso. destruct (Hnear a ltac:(lia)) as [[H1 _] [H2 _]].
    rewrite Heq, round_zero in H1 by reflexivity.
    unfold unit_roundoff in H1. lra.
  - destruct (Hnear a ltac:(lia)) as [[Ha1 Ha2] [Ha3 Ha4]].
    destruct (Hnear b ltac:(lia)) as [[Hb1 Hb2] [Hb3 Hb4]].
    rewrite Heq in Ha1, Ha2. unfold unit_roundoff in *.
    assert (inject_Z a < inject_Z (b + 1))%Q as H1
      by (rewrite inject_Z_plus; change (inject_Z 1) with 1%Q; lra).
    assert (inject_Z b < inject_Z (a + 1))%Q as H2
      by (rewrite inject_Z_plus; change (inject_Z 1) with 1%Q; lra).
    rewrite <- Zlt_Qlt in H1, H2. lia.
Qed.

(** *** Decimal numerals *)

Lemma trailing_zeros (k : Z) :
  0 < k -> exists s z, k = s * 10 ^ z /\ 0 <= z /\ 0 < s /\ s mod 10 <> 0.
Proof.
  intros Hk. remember (Z.to_nat k) as m eqn:Hm. revert k Hk Hm.
  induction m as [m IH] using lt_wf_ind. intros k Hk ->.
  destruct (Z.eq_dec (k mod 10) 0) as [Hz|Hnz].
  - pose proof (Z.div_mod k 10 ltac:(lia)) as Hdiv. rewrite Hz in Hdiv.
    destruct (IH (Z.to_nat (k / 10)) ltac:(lia) (k / 10) ltac:(lia) eq_refl)
      as (s & z & Hs & Hz0 & Hs0 & Hs10).
    exists s, (z + 1). rewrite Z.pow_add_r by lia. repeat split; try lia.
  - exists k, 0. rewrite Z.pow_0_r. repeat split; lia.
Qed.

Lemma decimal_length (s : Z) :
  0 < s -> exists d, 1 <= d /\ 10 ^ (d - 1) <= s < 10 ^ d.
Proof.
  intros Hs. remember (Z.to_nat s) as m eqn:Hm. revert s Hs Hm.
  induction m as [m IH] using lt_wf_ind. intros s Hs ->.
  destruct (Z_lt_le_dec s 10) as [Hsmall|Hbig].
  - exists 1. cbn. lia.
  - pose proof (Z.div_mod s 10 ltac:(lia)) as Hdiv.
    pose proof (Z.mod_pos_bound s 10 ltac:(lia)) as Hmod.
    destruct (IH (Z.to_nat (s / 10)) ltac:(lia) (s / 10) ltac:(lia) eq_refl)
      as (d & Hd & Hlo & Hhi).
    exists (d + 1). replace (d + 1 - 1) with (d - 1 + 1) by lia.
    rewrite !Z.pow_add_r by lia. change (10 ^ 1) with 10. lia.
Qed.

Lemma digits_fraction (count fuel : nat) (s z : Z) :
  0 <= z -> s mod 10 <> 0 -> (count <= fuel)%nat ->
  fraction_digits fuel (s mod 10 ^ Z.of_nat count * 10 ^ z)
    (10 ^ (Z.of_nat count + z))
  = Binary64.digits count s.
Proof.
  intros Hz Hs. revert fuel z Hz.
  induction count as [|count IH]; intros fuel z Hz Hfuel.
  - change (10 ^ Z.of_nat 0) with 1. rewrite Z.mod_1_r, Z.mul_0_l.
    destruct fuel; reflexivity.
  - destruct fuel as [|fuel]; [lia |].
    cbn [fraction_digits Binary64.digits].
    set (P := 10 ^ Z.of_nat count).
    assert (0 < P) as HP by (apply Z.pow_pos_nonneg; lia).
    assert (0 < 10 ^ z) as HZ by (apply Z.pow_pos_nonneg; lia).
    assert (10 ^ Z.of_nat (S count) = P * 10) as E1
      by (rewrite Nat2Z.inj_succ, Z.pow_succ_r by lia; subst P; lia).
    assert (10 ^ (Z.of_nat (S count) + z) = P * 10 * 10 ^ z) as E2
      by (rewrite Z.pow_add_r, E1 by lia; reflexivity).
    rewrite E1, E2.
    pose proof (Z.rem_mul_r s P 10 ltac:(lia) ltac:(lia)) as Hsplit.
    pose proof (Z.mod_pos_bound s P HP) as HmodP.
    pose proof (Z.mod_pos_bound (s / P) 10 ltac:(lia)) as Hdigit.
    pose proof (Z.rem_mul_r s 10 P ltac:(lia) ltac:(lia)) as Hsplit'.
    pose proof (Z.mod_pos_bound s 10 ltac:(lia)) as Hmod10.
    pose proof (Z.mod_pos_bound (s / 10) P HP) as Hrest.
    assert (s mod (P * 10) <> 0) as Hnz
      by (rewrite (Z.mul_comm P 10), Hsplit'; nia).
    destruct (Z.eqb_spec (s mod (P * 10) * 10 ^ z) 0) as [H0|_]; [nia |].
    assert (10 * (s mod (P * 10) * 10 ^ z) / (P * 10 * 10 ^ z) = s / P mod 10)
      as Hd.
    { replace (10 * (s mod (P * 10) * 10 ^ z))
        with (s mod (P * 10) * (10 * 10 ^ z)) by lia.
      replace (P * 10 * 10 ^ z) with (P * (10 * 10 ^ z)) by lia.
      rewrite Z.div_mul_cancel_r by lia.
      rewrite Hsplit, Z.mul_comm, Z.div_add by lia.
      rewrite Z.div_small by lia. lia. }
    rewrite Hd. f_equal.
    replace (10 * (s mod (P * 10) * 10 ^ z) - s / P mod 10 * (P * 10 * 10 ^ z))
      with (s mod P * 10 ^ (z + 1))
      by (rewrite Hsplit, Z.pow_add_r by lia; change (10 ^ 1) with 10; lia).
    replace (P * 10 * 10 ^ z) with (10 ^ (Z.of_nat count + (z + 1)))
      by (rewrite !Z.pow_add_r by lia; change (10 ^ 1) with 10; subst P; lia).
    apply IH; lia.
Qed.

Lemma format_hundred_thousandths (s z d : Z) :
  0 < s -> s mod 10 <> 0 -> 0 <= z -> 1 <= d -> 10 ^ (d - 1) <= s < 10 ^ d ->
  d + z <= 14 ->
  Binary64.format s d (d + z - 5) = hundred_thousandths (s * 10 ^ z).
Proof.
  intros Hs Hs10 Hz Hd [Hlo Hhi] Hsize.
  assert (0 < 10 ^ z) as HZ by (apply Z.pow_pos_nonneg; lia).
  unfold hundred_thousandths, Binary64.format.
  destruct (Z.ltb_spec (s * 10 ^ z) 0) as [Hneg|_]; [nia |].
  rewrite append_nil_l, (Z.abs_eq (s * 10 ^ z))
    by (apply Z.mul_nonneg_nonneg; lia).
  destruct (Z_le_gt_dec 5 z) as [Hbig|Hsmall].
  - assert (10 ^ z = 10 ^ (z - 5) * 100000) as E
      by (replace z with (z - 5 + 5) at 1 by lia; now rewrite Z.pow_add_r by lia).
    rewrite E, Z.mul_assoc, Z.div_mul, Z.mod_mul by lia.
    cbn [Z.eqb]. rewrite append_nil_r.
    destruct (Z.leb_spec d (d + z - 5)) as [_|Hc]; [| lia].
    destruct (Z.leb_spec (d + z - 5) 21) as [_|Hc]; [| lia].
    cbn [andb]. now replace (d + z - 5 - d) with (z - 5) by lia.
  - assert (100000 = 10 ^ (5 - z) * 10 ^ z) as E
      by (rewrite <- Z.pow_add_r by lia; now replace (5 - z + z) with 5 by lia).
    assert (0 < 10 ^ (5 - z)) as HP by (apply Z.pow_pos_nonneg; lia).
    rewrite E, Z.div_mul_cancel_r, Z.mul_mod_distr_r by lia.
    assert (s mod 10 ^ (5 - z) <> 0) as Hnz.
    { replace (5 - z) with (1 + (4 - z)) by lia.
      rewrite Z.pow_add_r by lia. change (10 ^ 1) with 10.
      rewrite Z.rem_mul_r by (try apply Z.pow_pos_nonneg; lia).
      pose proof (Z.mod_pos_bound s 10 ltac:(lia)).
      pose proof (Z.mod_pos_bound (s / 10) (10 ^ (4 - z))
                    ltac:(apply Z.pow_pos_nonneg; lia)).
      nia. }
    destruct (Z.eqb_spec (s mod 10 ^ (5 - z) * 10 ^ z) 0) as [H0|_]; [nia |].
    rewrite <- E.
    assert (fraction_digits 5 (s mod 10 ^ (5 - z) * 10 ^ z) 100000
            = Binary64.digits (Z.to_nat (5 - z)) s) as Hfraction.
    { rewrite <- (digits_fraction (Z.to_nat (5 - z)) 5 s z) by lia.
      rewrite Z2Nat.id by lia. now replace (5 - z + z) with 5 by lia. }
    rewrite Hfraction.
    destruct (Z.leb_spec d (d + z - 5)) as [Hc|_]; [lia |]. cbn [andb].
    replace (d - (d + z - 5)) with (5 - z) by lia.
    destruct (Z.ltb_spec 0 (d + z - 5)) as [Hn|Hn].
    + destruct (Z.leb_spec (d + z - 5) 21) as [_|Hc]; [| lia]. reflexivity.
    + cbn [andb].
      destruct (Z.ltb_spec (-6) (d + z - 5)) as [_|Hc]; [| lia].
      destruct (Z.leb_spec (d + z - 5) 0) as [_|Hc]; [| lia]. cbn [andb].
      assert (s / 10 ^ (5 - z) = 0) as ->.
      { apply Z.div_small. split; [lia |].
        assert (10 ^ d <= 10 ^ (5 - z)) by (apply Z.pow_le_mono_r; lia). lia. }
      reflexivity.
Qed.

Lemma Qpower10_cancel (w : Z) : (10 ^ w * 10 ^ (- w) == 1)%Q.
Proof. rewrite <- Qpower10_plus, Z.add_opp_diag_r. reflexivity. Qed.

Lemma round_power_of_ten (z : Z) :
  0 <= z <= 13 -> (10 ^ (z - 5) <= Binary64.round (10 ^ (z - 5)))%Q.
Proof.
  intros Hz. destruct (Z_lt_le_dec z 5) as [Hsmall|Hbig].
  - assert (z = 0 \/ z = 1 \/ z = 2 \/ z = 3 \/ z = 4) as Hcases by lia.
    destruct Hcases as [->|[->|[->|[->| ->]]]];
      apply Qle_bool_iff; vm_compute; reflexivity.
  - rewrite <- (Qpower10_inject (z - 5)) by lia.
    rewrite round_inject_Z; [apply Qle_refl |].
    rewrite Z.abs_eq by (apply Z.pow_nonneg; lia).
    apply Z.le_lt_trans with (10 ^ 8); [apply Z.pow_le_mono_r; lia | reflexivity].
Qed.

Lemma positive_toString_grid (k : Z) (x : Q) :
  0 < k < 10 ^ 14 ->
  (x == Binary64.round (inject_Z k / 100000))%Q ->
  Binary64.positive_toString x = hundred_thousandths k.
Proof.
  intros [Hk1 Hk2] Hx.
  destruct (trailing_zeros k Hk1) as (s & z & -> & Hz & Hs & Hs10).
  destruct (decimal_length s Hs) as (d & Hd & Hlo & Hhi).
  assert (0 < 10 ^ z) as HZ by (apply Z.pow_pos_nonneg; lia).
  assert (0 < 10 ^ (d - 1)) as HD by (apply Z.pow_pos_nonneg; lia).
  assert (d + z <= 14) as Hsize.
  { assert (10 ^ (d - 1 + z) < 10 ^ 14) as H
      by (rewrite Z.pow_add_r by lia; nia).
    apply Z.pow_lt_mono_r_iff in H; lia. }
  assert (s < 10 ^ 14) as Hs14.
  { apply Z.lt_le_trans with (10 ^ d); [exact Hhi |].
    apply Z.pow_le_mono_r; lia. }
  set (w := z - 5). set (n := d + w).
  pose proof (Qpower10_pos w) as Hpw. pose proof (Qpower10_pos (- w)) as Hpw'.
  pose proof (Qpower10_cancel w) as Hcancel.
  (* the value on the grid *)
  assert (inject_Z (s * 10 ^ z) / 100000 == inject_Z s * 10 ^ w)%Q as Hr.
  { unfold w. replace (z - 5) with (z + - 5) by lia.
    rewrite Qpower10_plus, inject_Z_mult, (Qpower10_inject z Hz).
    change (10 ^ (-5))%Q with (1 # 100000)%Q.
    change (?a / 100000)%Q with (a * (1 # 100000))%Q. ring. }
  assert (1 <= inject_Z s)%Q as Hs1
    by (change 1%Q with (inject_Z 1); rewrite <- Zle_Qle; lia).
  assert (inject_Z s < 100000000000000)%Q as Hs2
    by (change 100000000000000%Q with (inject_Z (10 ^ 14)); now rewrite <- Zlt_Qlt).
  (* the double is within the rounding error of it *)
  assert (inject_Z s - (1 # 2) < x * 10 ^ (- w)
          /\ x * 10 ^ (- w) < inject_Z s + (1 # 2))%Q as [Hy1 Hy2].
  { assert (1 # 100000 <= inject_Z (s * 10 ^ z) * (1 # 100000))%Q as Hsmall.
    { assert (1 <= inject_Z (s * 10 ^ z))%Q
        by (change 1%Q with (inject_Z 1); rewrite <- Zle_Qle; nia).
      lra. }
    destruct (round_near_pos (inject_Z (s * 10 ^ z) / 100000)
                ltac:(apply min_normal_small;
                      change (?a / 100000)%Q with (a * (1 # 100000))%Q; lra))
      as [H1 H2].
    rewrite <- Hx, Hr in H1, H2.
    assert (inject_Z s * 10 ^ w * (1 - unit_roundoff) * 10 ^ (- w)
            <= x * 10 ^ (- w))%Q as H1'
      by (apply Qmult_le_compat_r; lra).
    assert (x * 10 ^ (- w)
            <= inject_Z s * 10 ^ w * (1 + unit_roundoff) * 10 ^ (- w))%Q as H2'
      by (apply Qmult_le_compat_r; lra).
    assert (inject_Z s * 10 ^ w * (1 - unit_roundoff) * 10 ^ (- w)
            == inject_Z s * (1 - unit_roundoff) * (10 ^ w * 10 ^ (- w)))%Q as E1
      by ring.
    assert (inject_Z s * 10 ^ w * (1 + unit_roundoff) * 10 ^ (- w)
            == inject_Z s * (1 + unit_roundoff) * (10 ^ w * 10 ^ (- w)))%Q as E2
      by ring.
    rewrite E1, Hcancel in H1'. rewrite E2, Hcancel in H2'.
    unfold unit_roundoff in *. split; lra. }
  assert (x == x * 10 ^ (- w) * 10 ^ w)%Q as Hscale.
  { rewrite <- Qmult_assoc, (Qmult_comm (10 ^ (- w))), Hcancel. ring. }
  (* its decimal exponent *)
  assert (x < 10 ^ n)%Q as Hupper.
  { unfold n. rewrite Qpower10_plus, Hscale.
    apply Qmult_lt_compat_r; [exact Hpw |].
    rewrite <- (Qpower10_inject d) by lia.
    assert (inject_Z s + 1 <= inject_Z (10 ^ d))%Q.
    { change 1%Q with (inject_Z 1). rewrite <- inject_Z_plus, <- Zle_Qle. lia. }
    lra. }
  assert (10 ^ (n - 1) <= x)%Q as Hlower.
  { destruct (Z.eq_dec s (10 ^ (d - 1))) as [Heq|Hne].
    - assert (d = 1) as ->.
      { destruct (Z.eq_dec d 1) as [|Hd1]; [assumption | exfalso].
        apply Hs10. rewrite Heq. replace (d - 1) with (1 + (d - 2)) by lia.
        rewrite Z.pow_add_r by lia. change (10 ^ 1) with 10.
        now rewrite Z.mul_comm, Z.mod_mul. }
      change (10 ^ (1 - 1)) with 1 in Heq. subst s. unfold n.
      replace (1 + w - 1) with (z - 5) by lia.
      rewrite Hx, Hr. change (inject_Z 1) with 1%Q. rewrite Qmult_1_l.
      apply round_power_of_ten. lia.
    - unfold n. replace (d + w - 1) with (d - 1 + w) by lia.
      rewrite Qpower10_plus, Hscale.
      apply Qmult_le_compat_r; [| lra].
      rewrite <- (Qpower10_inject (d - 1)) by lia.
      assert (inject_Z (10 ^ (d - 1)) + 1 <= inject_Z s)%Q.
      { change 1%Q with (inject_Z 1). rewrite <- inject_Z_plus, <- Zle_Qle. lia. }
      lra. }
  assert (Binary64.decimal_exponent x = n) as Hexponent
    by (apply decimal_exponent_unique; [lia | assumption..]).
  (* the shortest digits *)
  assert (Binary64.shortest 16 1 n x = (s, d)) as Hshortest.
  { apply shortest_found.
    - lia.
    - replace (d - n) with (- w) by lia. now apply nearest_even_unique.
    - replace (n - d) with w by lia. rewrite Hx. apply round_comp.
      now rewrite Hr.
    - intros j Hj Hvalid.
      set (sj := Binary64.nearest_even (x * 10 ^ (j - n))) in *.
      pose proof (Qpower10_pos (j - n)) as Hpj.
      assert (0 <= sj) as Hsj0.
      { assert (inject_Z 0 <= x * 10 ^ (j - n))%Q as H0.
        { pose proof (Qpower10_pos (n - 1)).
          apply Qmult_le_0_compat; lra. }
        pose proof (nearest_even_monotone _ _ H0) as H.
        now rewrite nearest_even_Z in H. }
      assert (sj <= 10 ^ j) as Hsj1.
      { assert (x * 10 ^ (j - n) <= inject_Z (10 ^ j))%Q as H0.
        { rewrite Qpower10_inject by lia.
          replace j with (n + (j - n)) at 2 by lia.
          rewrite Qpower10_plus. apply Qmult_le_compat_r; lra. }
        pose proof (nearest_even_monotone _ _ H0) as H.
        now rewrite nearest_even_Z in H. }
      assert (0 < 10 ^ (d - j)) as Hpdj by (apply Z.pow_pos_nonneg; lia).
      assert (inject_Z sj * 10 ^ (n - j)
              == inject_Z (sj * 10 ^ (d - j) * 10 ^ z) / 100000)%Q as Hgrid.
      { rewrite !inject_Z_mult, !Qpower10_inject by lia.
        replace (n - j) with ((d - j) + z + - 5) by lia.
        rewrite !Qpower10_plus.
        change (10 ^ (-5))%Q with (1 # 100000)%Q.
        change (?a / 100000)%Q with (a * (1 # 100000))%Q. ring. }
      rewrite Hgrid, Hx in Hvalid.
      apply round_grid_injective in Hvalid.
      + apply Hs10.
        assert (s = sj * 10 ^ (d - j)) as -> by nia.
        replace (d - j) with (d - j - 1 + 1) by lia.
        rewrite Z.pow_add_r by lia. change (10 ^ 1) with 10.
        now rewrite Z.mul_assoc, Z.mod_mul.
      + split; [nia |].
        apply Z.le_lt_trans with (10 ^ 14); [| reflexivity].
        apply Z.le_trans with (10 ^ j * 10 ^ (d - j) * 10 ^ z); [nia |].
        rewrite <- !Z.pow_add_r by lia. apply Z.pow_le_mono_r; lia.
      + split; [nia |].
        apply Z.lt_trans with (10 ^ 14); [exact Hk2 | reflexivity]. }
  unfold Binary64.positive_toString. rewrite Hexponent, Hshortest.
  destruct (Z.eqb_spec s (10 ^ d)) as [Heq|_]; [lia |].
  unfold n, w. replace (d + (z - 5)) with (d + z - 5) by lia.
  now apply format_hundred_thousandths.
Qed.

Lemma toString_grid (k : Z) :
  Z.abs k < 10 ^ 14 ->
  Binary64.toString (Binary64.round (inject_Z k / 100000)) = hundred_thousandths k.
Proof.
  intros Hk. unfold Binary64.toString.
  destruct (Z.lt_trichotomy k 0) as [Hneg|[->|Hpos]].
  - assert (inject_Z k <= -1)%Q as Hk'
      by (change (-1)%Q with (inject_Z (-1)); rewrite <- Zle_Qle; lia).
    assert (inject_Z k * (1 # 100000) <= - (1 # 1073741824))%Q as Hsmall by lra.
    destruct (round_near_neg (inject_Z k / 100000)
                ltac:(pose proof (min_normal_small (- (inject_Z k * (1 # 100000)))
                                    ltac:(lra));
                      change (?a / 100000)%Q with (a * (1 # 100000))%Q; lra))
      as [_ H2].
    change (inject_Z k / 100000)%Q with (inject_Z k * (1 # 100000))%Q in H2 at 2.
    assert (Binary64.round (inject_Z k / 100000) < 0)%Q as Hlt
      by (unfold unit_roundoff in H2; lra).
    rewrite (proj1 (Qlt_alt _ 0) Hlt).
    rewrite (positive_toString_grid (- k)); [| lia |].
    + unfold hundred_thousandths. rewrite Z.abs_opp.
      destruct (Z.ltb_spec k 0) as [_|?]; [| lia].
      destruct (Z.ltb_spec (- k) 0) as [?|_]; [lia |]. reflexivity.
    + rewrite <- round_opp. apply round_comp.
      rewrite inject_Z_opp.
      change (?a / 100000)%Q with (a * (1 # 100000))%Q. ring.
  - reflexivity.
  - assert (1 <= inject_Z k)%Q as Hk'
      by (change 1%Q with (inject_Z 1); rewrite <- Zle_Qle; lia).
    destruct (round_near_pos (inject_Z k / 100000)
                ltac:(apply min_normal_small;
                      change (?a / 100000)%Q with (a * (1 # 100000))%Q; lra))
      as [H1 _].
    change (inject_Z k / 100000)%Q with (inject_Z k * (1 # 100000))%Q in H1 at 1.
    assert (0 < Binary64.round (inject_Z k / 100000))%Q as Hgt
      by (unfold unit_roundoff in H1; lra).
    rewrite (proj1 (Qgt_alt _ 0) Hgt).
    apply positive_toString_grid; [lia | reflexivity].
Qed.

(** ** sheet.ts: rows and batches *)

Section SheetFacts.
Context `{Runtime}.

Lemma cells_loop_cons (row : string) (ci : Z) (cell : Sheet.Cell)
    (rest : list Sheet.Cell) (strings : SharedStrings.t) :
  Sheet.cells_loop row ci (cell :: rest) strings =
  (fst (Sheet.writeCell (Sheet.getExcelColumn ci +:+ row) cell strings)
     :: fst (Sheet.cells_loop row (ci + 1) rest
               (snd (Sheet.writeCell (Sheet.getExcelColumn ci +:+ row) cell strings))),
   snd (Sheet.cells_loop row (ci + 1) rest
          (snd (Sheet.writeCell (Sheet.getExcelColumn ci +:+ row) cell strings)))).
Proof.
  cbn [Sheet.cells_loop].
  destruct (Sheet.writeCell _ cell strings) as [c strings1]. cbn [fst snd].
  now destruct (Sheet.cells_loop row (ci + 1) rest strings1).
Qed.

Lemma rows_loop_cons (startIndex i : Z) (cols : Sheet.Row)
    (rest : list Sheet.Row) (strings : SharedStrings.t) :
  let row := Z_toString (startIndex + i + 1) in
  Sheet.rows_loop startIndex i (cols :: rest) strings =
  (("<row r=" +:+ quoted row +:+ ">")
     :: fst (Sheet.cells_loop row 0 cols strings) ++ ["</row>"]
     ++ fst (Sheet.rows_loop startIndex (i + 1) rest
               (snd (Sheet.cells_loop row 0 cols strings))),
   snd (Sheet.rows_loop startIndex (i + 1) rest
          (snd (Sheet.cells_loop row 0 cols strings)))).
Proof.
  cbn [Sheet.rows_loop].
  destruct (Sheet.cells_loop _ 0 cols strings) as [cs strings1]. cbn [fst snd].
  now destruct (Sheet.rows_loop startIndex (i + 1) rest strings1).
Qed.

(** A row is numbered by its absolute position, the start of its batch plus
    its place in the batch, and the batch enters its encoding in no other
    way. *)
Lemma rows_loop_absolute (startIndex i : Z) (rows : list Sheet.Row)
    (strings : SharedStrings.t) :
  Sheet.rows_loop startIndex i rows strings
  = Sheet.rows_loop 0 (startIndex + i) rows strings.
Proof.
  revert i strings. induction rows as [|cols rows IH]; intros i strings;
    [reflexivity |].
  rewrite !rows_loop_cons. cbv zeta.
  replace (0 + (startIndex + i) + 1) with (startIndex + i + 1) by lia.
  rewrite IH.
  replace (startIndex + (i + 1)) with (startIndex + i + 1) by lia.
  reflexivity.
Qed.

Lemma rows_loop_nil (startIndex i : Z) (strings : SharedStrings.t) :
  Sheet.rows_loop startIndex i [] strings = ([], strings).
Proof. reflexivity. Qed.

Lemma rows_loop_app (startIndex i : Z) (rows1 rows2 : list Sheet.Row)
    (strings : SharedStrings.t) :
  Sheet.rows_loop startIndex i (rows1 ++ rows2) strings =
  (fst (Sheet.rows_loop startIndex i rows1 strings)
     ++ fst (Sheet.rows_loop startIndex (i + Z.of_nat (length rows1)) rows2
               (snd (Sheet.rows_loop startIndex i rows1 strings))),
   snd (Sheet.rows_loop startIndex (i + Z.of_nat (length rows1)) rows2
          (snd (Sheet.rows_loop startIndex i rows1 strings)))).
Proof.
  revert i strings. induction rows1 as [|cols rows1 IH]; intros i strings.
  - cbn [app length fst snd Sheet.rows_loop]. rewrite Z.add_0_r.
    now destruct (Sheet.rows_loop startIndex i rows2 strings).
  - rewrite <- app_comm_cons, !rows_loop_cons. cbv zeta. rewrite IH.
    cbn [fst snd length].
    replace (i + 1 + Z.of_nat (length rows1))
      with (i + Z.of_nat (S (length rows1))) by lia.
    f_equal. cbn [app]. rewrite <- ?app_assoc. reflexivity.
Qed.

Lemma writeChunk_eq (ws : WriteStream) (rows : list Sheet.Row)
    (startIndex : Z) (strings : SharedStrings.t) :
  Sheet.writeChunk ws rows startIndex strings =
  (write [join (fst (Sheet.rows_loop startIndex 0 rows strings))] ws,
   snd (Sheet.rows_loop startIndex 0 rows strings)).
Proof.
  unfold Sheet.writeChunk.
  now destruct (Sheet.rows_loop startIndex 0 rows strings).
Qed.

Lemma chunks_loop_step (size : positive) (rows : list Sheet.Row) (i : nat)
    (ws : WriteStream) (strings : SharedStrings.t) :
  Sheet.chunks_loop size rows i ws strings =
  if decide (i < length rows)%nat
  then Sheet.chunks_loop size rows (i + Pos.to_nat size)%nat
         (fst (Sheet.writeChunk ws (take (Pos.to_nat size) (drop i rows))
                 (Z.of_nat i) strings))
         (snd (Sheet.writeChunk ws (take (Pos.to_nat size) (drop i rows))
                 (Z.of_nat i) strings))
  else (ws, strings).
Proof.
  rewrite Sheet.chunks_loop_equation_1 at 1.
  destruct (decide (i < length rows)%nat); reflexivity.
Qed.

(** From position [i] on, the batches write what one pass over the
    remaining rows pushes, and leave the table that pass leaves. *)
Lemma chunks_loop_rows_loop (size : positive) (rows : list Sheet.Row) (i : nat)
    (ws : WriteStream) (strings : SharedStrings.t) :
  file_content (fst (Sheet.chunks_loop size rows i ws strings))
  = file_content ws
      +:+ join (fst (Sheet.rows_loop 0 (Z.of_nat i) (drop i rows) strings))
  /\ snd (Sheet.chunks_loop size rows i ws strings)
     = snd (Sheet.rows_loop 0 (Z.of_nat i) (drop i rows) strings).
Proof.
  remember (length rows - i)%nat as n eqn:Hn.
  revert i ws strings Hn.
  induction n as [n IH] using lt_wf_ind. intros i ws strings ->.
  rewrite chunks_loop_step.
  destruct (decide (i < length rows)%nat) as [Hlt|Hge].
  - set (k := Pos.to_nat size). assert (0 < k)%nat as Hk by (subst k; lia).
    rewrite writeChunk_eq. cbn [fst snd].
    destruct (IH (length rows - (i + k))%nat ltac:(lia) (i + k)%nat
                (write [join (fst (Sheet.rows_loop (Z.of_nat i) 0
                                     (take k (drop i rows)) strings))] ws)
                (snd (Sheet.rows_loop (Z.of_nat i) 0
                        (take k (drop i rows)) strings)) eq_refl)
      as [Hcontent Htable].
    rewrite Hcontent, Htable, file_content_write, join_singleton.
    assert (Sheet.rows_loop 0 (Z.of_nat i) (drop i rows) strings
            = (fst (Sheet.rows_loop (Z.of_nat i) 0 (take k (drop i rows)) strings)
                 ++ fst (Sheet.rows_loop 0 (Z.of_nat (i + k)) (drop (i + k) rows)
                           (snd (Sheet.rows_loop (Z.of_nat i) 0
                                   (take k (drop i rows)) strings))),
               snd (Sheet.rows_loop 0 (Z.of_nat (i + k)) (drop (i + k) rows)
                      (snd (Sheet.rows_loop (Z.of_nat i) 0
                              (take k (drop i rows)) strings)))))
      as Hsplit.
    { rewrite <- (take_drop k (drop i rows)) at 1.
      rewrite rows_loop_app, drop_drop.
      rewrite (rows_loop_absolute (Z.of_nat i) 0), Z.add_0_r.
      destruct (decide (i + k <= length rows)%nat) as [Hfull|Hpart].
      - rewrite length_take_le by (rewrite length_drop; lia).
        now rewrite Nat2Z.inj_add.
      - rewrite (drop_ge rows (i + k)) by lia.
        now rewrite !rows_loop_nil. }
    rewrite Hsplit. cbn [fst snd].
    now rewrite join_app, append_assoc.
  - cbn [fst snd]. rewrite drop_ge by lia. rewrite rows_loop_nil.
    cbn [fst snd join foldr]. now rewrite append_nil_r.
Qed.

Lemma generate_writes_sheet (size : positive) (sheet : Sheet.t)
    (strings : SharedStrings.t) :
  file_content (fst (Sheet.generate_writes size sheet strings))
  = worksheet_document sheet strings
  /\ snd (Sheet.generate_writes size sheet strings)
     = snd (Sheet.rows_loop 0 0 (Sheet.rows sheet) strings).
Proof.
  unfold Sheet.generate_writes, worksheet_document.
  match goal with
  | |- context [Sheet.chunks_loop size (Sheet.rows sheet) 0 ?ws strings] =>
      pose proof (chunks_loop_rows_loop size (Sheet.rows sheet) 0 ws strings)
        as [Hcontent Htable];
      destruct (Sheet.chunks_loop size (Sheet.rows sheet) 0 ws strings)
        as [ws' strings']
  end.
  cbn [fst snd] in *. rewrite drop_0 in Hcontent, Htable.
  split; [| exact Htable].
  rewrite file_content_write, Hcontent, file_content_write.
  destruct (0 <? length (Sheet.columnWidths sheet))%nat;
    rewrite !file_content_write, !join_cons; now normalize_strings.
Qed.



(** ** utils.ts and sheet.ts: dates *)

Lemma Math_round_bounds (x : Q) :
  (x - (1 # 2) < inject_Z (Math_round x)
   /\ inject_Z (Math_round x) <= x + (1 # 2))%Q.
Proof.
  unfold Math_round.
  pose proof (Qfloor_le (x + (1 # 2))) as Hle.
  pose proof (Qlt_floor (x + (1 # 2))) as Hlt.
  rewrite inject_Z_plus in Hlt. change (inject_Z 1) with 1%Q in Hlt.
  split; lra.
Qed.

Lemma Qfloor_unique (q : Q) (z : Z) :
  (inject_Z z <= q)%Q -> (q < inject_Z (z + 1))%Q -> Qfloor q = z.
Proof.
  intros Hle Hlt.
  pose proof (Qfloor_le q) as Hfloor. pose proof (Qlt_floor q) as Hceil.
  assert (inject_Z z < inject_Z (Qfloor q + 1))%Q as H1 by lra.
  assert (inject_Z (Qfloor q) < inject_Z (z + 1))%Q as H2 by lra.
  rewrite <- Zlt_Qlt in H1, H2. lia.
Qed.

Lemma Math_round_monotone (x y : Q) :
  (x <= y)%Q -> Math_round x <= Math_round y.
Proof. intros Hle. unfold Math_round. apply Qfloor_resp_le. lra. Qed.

Lemma Math_round_comp (x y : Q) : (x == y)%Q -> Math_round x = Math_round y.
Proof. intros Heq. unfold Math_round. apply Qfloor_comp. now rewrite Heq. Qed.

Lemma Math_round_Z (z : Z) : Math_round (inject_Z z) = z.
Proof.
  unfold Math_round. apply Qfloor_unique;
    rewrite ?inject_Z_plus; change (inject_Z 1) with 1%Q; lra.
Qed.

Lemma inject_Z_minus (a b : Z) : (inject_Z a - inject_Z b == inject_Z (a - b))%Q.
Proof.
  unfold Z.sub. rewrite inject_Z_plus, inject_Z_opp. reflexivity.
Qed.

Lemma convertToExcelDate_units (time : Z) :
  convertToExcelDate time
  = Binary64.round (inject_Z (serial_units time) / 100000).
Proof. reflexivity. Qed.

(** The product [(time - EPOCH) / DAY_MS * 100000] as the doubles compute
    it, against the exact [(time - EPOCH) / 864]: two roundings apart. *)
Lemma product_near (time : Z) :
  Z.abs (time - EPOCH) < 2 ^ 53 ->
  let n := time - EPOCH in
  let c := Binary64.multiply
             (Binary64.divide
                (Binary64.subtract (inject_Z time) (inject_Z EPOCH))
                (inject_Z DAY_MS))
             (inject_Z 100000) in
  let spread := (inject_Z (Z.abs n) * (1 # 864)
                 * (2 * unit_roundoff + unit_roundoff * unit_roundoff))%Q in
  (inject_Z n * (1 # 864) - spread <= c
   /\ c <= inject_Z n * (1 # 864) + spread)%Q.
Proof.
  intros Hn. cbv zeta. set (n := time - EPOCH) in *.
  unfold Binary64.multiply, Binary64.divide, Binary64.subtract.
  assert (Binary64.round (inject_Z time - inject_Z EPOCH) == inject_Z n)%Q as ->
    by (rewrite inject_Z_minus; now apply round_inject_Z).
  change (inject_Z DAY_MS) with 86400000%Q. change (inject_Z 100000) with 100000%Q.
  assert (inject_Z n / 86400000 == inject_Z n * (1 # 86400000))%Q as -> by reflexivity.
  destruct (Z.lt_trichotomy n 0) as [Hneg|[->|Hpos]].
  - assert (inject_Z n <= -1)%Q as Hn'
      by (change (-1)%Q with (inject_Z (-1)); rewrite <- Zle_Qle; lia).
    rewrite Z.abs_neq, inject_Z_opp by lia.
    destruct (round_near_neg (inject_Z n * (1 # 86400000))
                ltac:(pose proof (min_normal_small (- (inject_Z n * (1 # 86400000)))
                                    ltac:(lra)); lra)) as [H1 H2].
    set (b := Binary64.round (inject_Z n * (1 # 86400000))) in *.
    unfold unit_roundoff in *.
    destruct (round_near_neg (b * 100000)
                ltac:(pose proof (min_normal_small (- (b * 100000))
                                    ltac:(lra)); lra)) as [H3 H4].
    unfold unit_roundoff in *. split; lra.
  - split; vm_compute; discriminate.
  - assert (1 <= inject_Z n)%Q as Hn'
      by (change 1%Q with (inject_Z 1); rewrite <- Zle_Qle; lia).
    rewrite Z.abs_eq by lia.
    destruct (round_near_pos (inject_Z n * (1 # 86400000))
                ltac:(apply min_normal_small; lra)) as [H1 H2].
    set (b := Binary64.round (inject_Z n * (1 # 86400000))) in *.
    unfold unit_roundoff in *.
    destruct (round_near_pos (b * 100000) ltac:(apply min_normal_small; lra))
      as [H3 H4].
    unfold unit_roundoff in *. split; lra.
Qed.

(** What [Math.round] makes of that product is one of the integers nearest
    to [(time - EPOCH) / 864], but for the error of the two roundings. *)
Lemma serial_units_near (time : Z) :
  Z.abs (time - EPOCH) < 2 ^ 53 ->
  Z.abs (864 * serial_units time - (time - EPOCH)) <= 434
  /\ (Z.abs (time - EPOCH) <= 2 ^ 51 ->
      Z.abs (864 * serial_units time - (time - EPOCH)) <= 432).
Proof.
  intros Hn. pose proof (product_near time Hn) as Hc. cbv zeta in Hc.
  unfold serial_units.
  set (c := Binary64.multiply _ _) in *. set (n := time - EPOCH) in *.
  destruct (Math_round_bounds c) as [Hk1 Hk2]. set (k := Math_round c) in *.
  assert (0 <= inject_Z (Z.abs n))%Q as Ha0
    by (change 0%Q with (inject_Z 0); rewrite <- Zle_Qle; lia).
  assert (inject_Z (Z.abs n) < 9007199254740992)%Q as Ha1
    by (change 9007199254740992%Q with (inject_Z (2 ^ 53)); now rewrite <- Zlt_Qlt).
  assert (inject_Z (864 * k - n) == 864 * inject_Z k - inject_Z n)%Q as Hdiff
    by (rewrite <- inject_Z_minus, inject_Z_mult; reflexivity).
  unfold unit_roundoff in Hc. destruct Hc as [Hc1 Hc2].
  split.
  - assert (inject_Z (864 * k - n) < inject_Z 435)%Q as H1
      by (rewrite Hdiff; change (inject_Z 435) with 435%Q; lra).
    assert (inject_Z (- 435) < inject_Z (864 * k - n))%Q as H2
      by (rewrite Hdiff; change (inject_Z (- 435)) with (- 435)%Q; lra).
    rewrite <- Zlt_Qlt in H1, H2. lia.
  - intros Hsmall.
    assert (inject_Z (Z.abs n) <= 2251799813685248)%Q as Ha2
      by (change 2251799813685248%Q with (inject_Z (2 ^ 51)); now rewrite <- Zle_Qle).
    assert (inject_Z (864 * k - n) < inject_Z 433)%Q as H1
      by (rewrite Hdiff; change (inject_Z 433) with 433%Q; lra).
    assert (inject_Z (- 433) < inject_Z (864 * k - n))%Q as H2
      by (rewrite Hdiff; change (inject_Z (- 433)) with (- 433)%Q; lra).
    rewrite <- Zlt_Qlt in H1, H2. lia.
Qed.

(** The text of a date cell is the numeral of that many
    hundred-thousandths. *)
Lemma date_text_units (time : Z) :
  Z.abs (time - EPOCH) < 2 ^ 53 ->
  date_text (Some time) = hundred_thousandths (serial_units time).
Proof.
  intros Hn. destruct (serial_units_near time Hn) as [Hk _].
  unfold date_text. rewrite convertToExcelDate_units.
  apply toString_grid.
  assert (2 ^ 53 = 9007199254740992) as E53 by reflexivity.
  assert (10 ^ 14 = 100000000000000) as E14 by reflexivity.
  lia.
Qed.

(** C5, amended.  A date cell is written with the style attribute [s] set
    to 1, the one date style of the style sheet (format 164, [yyyy-mm-dd]),
    and with no type attribute.  Its value is the text of
    [convertToExcelDate], computed in doubles: for a time less than
    [2 ^ 53] milliseconds from the epoch, which every date is, the text is
    the decimal numeral of [k / 100000], with at most five decimals, for a
    whole number [k] within 434/864 of [days * 100000], where
    [days = (time - EPOCH) / 86400000] exactly; that is, within
    0.00000503 of [days].  For a time within [2 ^ 51] milliseconds of the
    epoch, some seventy thousand years, [k / 100000] is one of the
    hundred-thousandths nearest to [days], and it is [days] rounded to five
    decimals with [round(days * 100000) / 100000] unless [days] is exactly
    halfway between two hundred-thousandths: there the rounding of the
    doubles decides which way the tie goes.  [EPOCH] is the time value of
    local midnight on 30 December 1899, day -25569 of the time scale and the
    day before 31 December 1899, so that on a host on UTC midnight of 31
    January 2024 is 45322 and its noon 45322.5.  An invalid date, whose time
    value is NaN, gives NaN. *)
Theorem date_cell_serial (ref : string) (time : Z) (strings : SharedStrings.t) :
  Z.abs (time - EPOCH) < 2 ^ 53 ->
  (exists k : Z,
     Sheet.writeCell ref (Sheet.CDate (Some time)) strings
     = ("<c r=" +:+ quoted ref +:+ " s=" +:+ quoted "1" +:+ "><v>"
          +:+ hundred_thousandths k +:+ "</v></c>", strings)
     /\ (convertToExcelDate time == Binary64.round (inject_Z k / 100000))%Q
     /\ Z.abs (864 * k - (time - EPOCH)) <= 434
     /\ (Z.abs (time - EPOCH) <= 2 ^ 51 ->
         Z.abs (864 * k - (time - EPOCH)) <= 432)
     /\ (Z.abs (time - EPOCH) <= 2 ^ 51 -> (time - EPOCH) mod 864 <> 432 ->
         k = Math_round (inject_Z (time - EPOCH) / 86400000 * 100000)%Q))
  /\ EPOCH = MakeDay 1899 11 30 * 86400000 - LocalTZA
  /\ MakeDay 1899 11 30 = -25569
  /\ MakeDay 1899 11 31 = MakeDay 1899 11 30 + 1
  /\ Sheet.writeCell ref (Sheet.CDate None) strings
     = ("<c r=" +:+ quoted ref +:+ " s=" +:+ quoted "1" +:+ "><v>NaN</v></c>",
        strings)
  /\ occurs ("<numFmt numFmtId=" +:+ quoted "164" +:+ " formatCode="
               +:+ quoted "yyyy-mm-dd" +:+ "/>") generateStyles = true
  /\ @date_text utc_integers (Some 1706659200000) = "45322"
  /\ @date_text utc_integers (Some 1706702400000) = "45322.5".
Proof.
  intros Hn. split.
  { exists (serial_units time).
    destruct (serial_units_near time Hn) as [Hk Hk'].
    split; [cbn [Sheet.writeCell]; now rewrite (date_text_units time Hn) |].
    split; [now rewrite convertToExcelDate_units |].
    split; [exact Hk |]. split; [exact Hk' |].
    intros Hsmall Htie. specialize (Hk' Hsmall).
    set (k := serial_units time) in *. set (n := time - EPOCH) in *.
    symmetry. unfold Math_round. apply Qfloor_unique.
    - assert (inject_Z n / 86400000 * 100000 == inject_Z n * (1 # 864))%Q as ->
        by field.
      assert (inject_Z (864 * k - n) <= inject_Z 432)%Q as Hq
        by (rewrite <- Zle_Qle; lia).
      rewrite <- inject_Z_minus, inject_Z_mult in Hq.
      change (inject_Z 864) with 864%Q in Hq.
      change (inject_Z 432) with 432%Q in Hq.
      lra.
    - assert (inject_Z n / 86400000 * 100000 == inject_Z n * (1 # 864))%Q as ->
        by field.
      assert (n - 864 * k <> 432) as Hne.
      { intros Heq. apply Htie. replace n with (432 + k * 864) by lia.
        now rewrite Z.mod_add. }
      assert (inject_Z (n - 864 * k) <= inject_Z 431)%Q as Hq
        by (rewrite <- Zle_Qle; lia).
      rewrite <- inject_Z_minus, inject_Z_mult in Hq.
      change (inject_Z 864) with 864%Q in Hq.
      change (inject_Z 431) with 431%Q in Hq.
      rewrite inject_Z_plus. change (inject_Z 1) with 1%Q. lra. }
  split; [reflexivity |]. split; [reflexivity |]. split; [reflexivity |].
  split; [reflexivity |].
  repeat split; vm_compute; reflexivity.
Qed.

End SheetFacts.

(** C5 as stated fails at a tie.  On a host on UTC, the time value
    1501690136400 (2 August 2017, 16:08:56.400) is 42949.672875 days after
    the epoch, exactly halfway between two hundred-thousandths, and
    [round(days * 100000) / 100000] is 42949.67288.  In doubles the
    quotient is 5902958091904745 / 2 ^ 37 and the product
    9007199236915199 / 2 ^ 21, that is 4294967287.4999995..., just below
    the tie; [Math.round] gives 4294967287, and the cell is written with
    42949.67287. *)
Lemma tie_rounds_down :
  let time := 1501690136400 in
  let days := (inject_Z (time - @EPOCH utc_integers) / 86400000)%Q in
  let product :=
    Binary64.multiply
      (Binary64.divide
         (Binary64.subtract (inject_Z time) (inject_Z (@EPOCH utc_integers)))
         (inject_Z DAY_MS))
      (inject_Z 100000) in
  (days * 100000 == 4294967287 + (1 # 2))%Q
  /\ Math_round (days * 100000) = 4294967288
  /\ hundred_thousandths 4294967288 = "42949.67288"
  /\ (Binary64.divide
        (Binary64.subtract (inject_Z time) (inject_Z (@EPOCH utc_integers)))
        (inject_Z DAY_MS)
      == 5902958091904745 # 137438953472)%Q
  /\ (product == 9007199236915199 # 2097152)%Q
  /\ (product < 4294967287 + (1 # 2))%Q
  /\ @serial_units utc_integers time = 4294967287
  /\ fst (@Sheet.writeCell utc_integers "A1" (Sheet.CDate (Some time))
            (SharedStrings.new "sst.xml"))
     = "<c r=" +:+ dq +:+ "A1" +:+ dq +:+ " s=" +:+ dq +:+ "1" +:+ dq +:+ "><v>42949.67287</v></c>".
Proof.
  cbv zeta. split; [reflexivity |]. split; [reflexivity |].
  split; [reflexivity |]. split; [reflexivity |]. split; [reflexivity |].
  split; [reflexivity |]. split; vm_compute; reflexivity.
Qed.

(** C5 on a host on UTC: noon of 31 January 2024. *)
Lemma date_cell_serial_witness :
  Z.abs (1706702400000 - @EPOCH utc_integers) < 2 ^ 53
  /\ exists k : Z,
       @Sheet.writeCell utc_integers "A1" (Sheet.CDate (Some 1706702400000))
         (SharedStrings.new "sst.xml")
       = ("<c r=" +:+ quoted "A1" +:+ " s=" +:+ quoted "1" +:+ "><v>"
            +:+ hundred_thousandths k +:+ "</v></c>", SharedStrings.new "sst.xml")
       /\ Z.abs (864 * k - (1706702400000 - @EPOCH utc_integers)) <= 432.
Proof.
  split; [reflexivity |].
  destruct (proj1 (@date_cell_serial utc_integers "A1" 1706702400000
                     (SharedStrings.new "sst.xml") eq_refl))
    as (k & Hcell & _ & _ & Hnear & _).
  exists k. split; [exact Hcell |]. apply Hnear. discriminate.
Defined.


(** ** sheet.ts: cells *)

Lemma writeCell_null `{Runtime} (ref : string) (strings : SharedStrings.t) :
  Sheet.writeCell ref Sheet.CNull strings
  = ("<c r=" +:+ quoted ref +:+ "/>", strings)
  /\ Sheet.writeCell ref Sheet.CUndefined strings
     = ("<c r=" +:+ quoted ref +:+ "/>", strings).
Proof. split; reflexivity. Qed.

(** The element pushed for the cell at a position of a row. *)
Lemma cells_loop_lookup `{Runtime} (row : string) (ci : Z)
    (before after : list Sheet.Cell) (cell : Sheet.Cell)
    (strings : SharedStrings.t) :
  fst (Sheet.cells_loop row ci (before ++ cell :: after) strings) !! length before
  = Some (fst (Sheet.writeCell
                 (Sheet.getExcelColumn (ci + Z.of_nat (length before)) +:+ row)
                 cell
                 (snd (Sheet.cells_loop row ci before strings)))).
Proof.
  revert ci strings. induction before as [|c before IH]; intros ci strings.
  - cbn [app length]. rewrite cells_loop_cons, Z.add_0_r. reflexivity.
  - rewrite <- app_comm_cons, !cells_loop_cons. cbn [fst snd length].
    rewrite lookup_cons_ne_0 by lia. cbn [pred]. rewrite IH.
    replace (ci + 1 + Z.of_nat (length before))
      with (ci + Z.of_nat (S (length before))) by lia.
    reflexivity.
Qed.

(** C1 as stated fails.  In the worksheet written for the rows Name, Age and
    John, 25 with a batch size of 1, the cell B1, which holds Age, is a
    shared-string cell with id 1, and no inline numeric cell with the
    reference B1 occurs anywhere. *)
Lemma age_cell_is_shared_string :
  let xml :=
    file_content
      (fst (Sheet.generate_writes 1 name_age_sheet (SharedStrings.new "sst.xml"))) in
  occurs ("<c r=" +:+ dq +:+ "B1" +:+ dq +:+ " t=" +:+ dq +:+ "s" +:+ dq +:+ "><v>1</v></c>") xml = true
  /\ ~ (exists before value after,
          xml = before +:+ "<c r=" +:+ quoted "B1" +:+ "><v>" +:+ value
                  +:+ "</v></c>" +:+ after).
Proof.
  cbv zeta. split; [vm_compute; reflexivity |].
  intros (before & value & after & Hxml).
  pose proof (occurs_intro before ("<c r=" +:+ quoted "B1" +:+ "><v>")
                (value +:+ "</v></c>" +:+ after)) as Hocc.
  rewrite !append_assoc in Hocc. rewrite <- Hxml in Hocc.
  vm_compute in Hocc. discriminate.
Qed.

(** C1, amended.  For the rows Name, Age and John, 25 with a batch size of
    1, the sheet data is written as two batches of one row element each,
    numbered 1 and 2, with the cells A1, B1 and A2, B2; the three strings
    Name, Age and John are shared-string cells with the ids 0, 1 and 2, in
    the order the table receives them, and 25 is an inline numeric cell.
    For every row, a cell that is [null] or [undefined] is written, whatever
    its position, as an element with its reference alone, no type and no
    value, and leaves the table as it is. *)
Theorem worksheet_cell_dispatch :
  fst (Sheet.generate_writes 1 name_age_sheet (SharedStrings.new "sst.xml"))
  = [ "<?xml version=" +:+ dq +:+ "1.0" +:+ dq +:+ " encoding=" +:+ dq +:+ "UTF-8" +:+ dq +:+ " standalone=" +:+ dq +:+ "yes" +:+ dq +:+ "?>" +:+ nl +:+ "<worksheet xmlns=" +:+ dq +:+ "http://schemas.openxmlformats.org/spreadsheetml/2006/main" +:+ dq +:+ ">";
      "<sheetData>";
      "<row r=" +:+ dq +:+ "1" +:+ dq +:+ "><c r=" +:+ dq +:+ "A1" +:+ dq +:+ " t=" +:+ dq +:+ "s" +:+ dq +:+ "><v>0</v></c><c r=" +:+ dq +:+ "B1" +:+ dq +:+ " t=" +:+ dq +:+ "s" +:+ dq +:+ "><v>1</v></c></row>";
      "<row r=" +:+ dq +:+ "2" +:+ dq +:+ "><c r=" +:+ dq +:+ "A2" +:+ dq +:+ " t=" +:+ dq +:+ "s" +:+ dq +:+ "><v>2</v></c><c r=" +:+ dq +:+ "B2" +:+ dq +:+ "><v>25</v></c></row>";
      "</sheetData></worksheet>" ]
  /\ SharedStrings.strings
       (snd (Sheet.generate_writes 1 name_age_sheet (SharedStrings.new "sst.xml")))
     = ["Name"; "Age"; "John"]
  /\ (forall (R : Runtime) ref strings,
       @Sheet.writeCell R ref Sheet.CNull strings
       = ("<c r=" +:+ quoted ref +:+ "/>", strings)
       /\ @Sheet.writeCell R ref Sheet.CUndefined strings
          = ("<c r=" +:+ quoted ref +:+ "/>", strings))
  /\ (forall (R : Runtime) row before after strings,
       let ref := columnName (Z.of_nat (length before)) +:+ row in
       fst (@Sheet.cells_loop R row 0 (before ++ Sheet.CNull :: after) strings)
         !! length before
       = Some ("<c r=" +:+ quoted ref +:+ "/>")
       /\ fst (@Sheet.cells_loop R row 0 (before ++ Sheet.CUndefined :: after) strings)
            !! length before
          = Some ("<c r=" +:+ quoted ref +:+ "/>")).
Proof.
  split; [vm_compute; reflexivity |].
  split; [vm_compute; reflexivity |].
  split; [intros R ref strings; apply writeCell_null |].
  intros R row before after strings. cbv zeta.
  rewrite !cells_loop_lookup, getExcelColumn_columnName, Z.add_0_l.
  split; reflexivity.
Qed.

(** ** sheet.ts: what reaches the string table *)

Section TableFacts.
Context `{Runtime}.

Lemma omap_cell_text_cons (cell : Sheet.Cell) (cols : Sheet.Row) :
  omap cell_text (cell :: cols)
  = match cell_text cell with
    | Some text => text :: omap cell_text cols
    | None => omap cell_text cols
    end.
Proof. reflexivity. Qed.

Lemma writeCell_table (ref : string) (cell : Sheet.Cell)
    (strings : SharedStrings.t) :
  snd (Sheet.writeCell ref cell strings)
  = match cell_text cell with
    | Some text => snd (SharedStrings.add text strings)
    | None => strings
    end.
Proof.
  destruct cell; cbn [Sheet.writeCell cell_text]; try reflexivity;
    now destruct (SharedStrings.add _ strings).
Qed.

Lemma cells_loop_table (row : string) (ci : Z) (cols : Sheet.Row)
    (strings : SharedStrings.t) :
  snd (Sheet.cells_loop row ci cols strings)
  = snd (add_all (omap cell_text cols) strings).
Proof.
  revert ci strings. induction cols as [|cell cols IH]; intros ci strings;
    [reflexivity |].
  rewrite cells_loop_cons. cbn [snd].
  rewrite IH, writeCell_table, omap_cell_text_cons.
  destruct (cell_text cell) as [text|]; [| reflexivity].
  now rewrite add_all_cons.
Qed.

(** Generating the rows leaves the table that adding their texts in order
    leaves. *)
Lemma rows_loop_table (startIndex i : Z) (rows : list Sheet.Row)
    (strings : SharedStrings.t) :
  snd (Sheet.rows_loop startIndex i rows strings)
  = snd (add_all (texts rows) strings).
Proof.
  revert i strings. induction rows as [|cols rows IH]; intros i strings;
    [reflexivity |].
  rewrite rows_loop_cons. cbv zeta. cbn [snd]. rewrite IH, cells_loop_table.
  unfold texts. cbn [map concat]. now rewrite add_all_app.
Qed.

Lemma generateSheetXML_eq (sheet : Sheet.t) (strings : SharedStrings.t)
    (fs : FileSystem) :
  Sheet.generateSheetXML sheet strings fs
  = (Sheet.file sheet,
     snd (add_all (texts (Sheet.rows sheet)) strings),
     <[Sheet.file sheet := worksheet_document sheet strings]> fs).
Proof.
  unfold Sheet.generateSheetXML.
  destruct (generate_writes_sheet Sheet.CHUNK_SIZE sheet strings)
    as [Hcontent Htable].
  destruct (Sheet.generate_writes Sheet.CHUNK_SIZE sheet strings) as [ws strings'].
  cbn [fst snd] in *. now rewrite Hcontent, Htable, rows_loop_table.
Qed.

End TableFacts.

(** ** packing.ts *)

Section PackageFacts.
Context `{Runtime} `{Templates}.

Lemma addMockFiles_new :
  Package.addMockFiles Package.new
  = {| Package.zip := fixed_parts; Package.disposable := [] |}.
Proof. reflexivity. Qed.

(** A local file that was just written is there to be added. *)
Lemma addFile_written (file localpath content : string) (fs : FileSystem)
    (this : Package.t) :
  Package.addFile file localpath (<[localpath := content]> fs) this
  = Some {| Package.zip := Map_set file content (Package.zip this);
            Package.disposable := Package.disposable this ++ [localpath] |}.
Proof. unfold Package.addFile. now rewrite lookup_insert_eq. Qed.

(** [build] returns, and what it returns: the fixed parts, the worksheet,
    and the string table when it is not empty once the worksheet is
    generated. *)
Lemma build_eq (sheet : Sheet.t) (strings : SharedStrings.t) (fs : FileSystem) :
  let strings' := snd (add_all (texts (Sheet.rows sheet)) strings) in
  exists fs',
    build sheet strings fs
    = Some (fixed_parts
              ++ [("xl/worksheets/sheet1.xml", worksheet_document sheet strings)]
              ++ (if (0 <? SharedStrings.size strings')%nat
                  then [("xl/sharedStrings.xml", sst_document strings')]
                  else []),
            strings', fs').
Proof.
  cbv zeta. unfold build, Package.build.
  rewrite addMockFiles_new, generateSheetXML_eq, addFile_written.
  cbn [mbind option_bind Package.zip Package.disposable].
  destruct (0 <? SharedStrings.size _)%nat.
  - unfold SharedStrings.generateSharedStringsXML.
    rewrite addFile_written, generate_writes_content.
    cbn [mbind option_bind Package.zip Package.disposable].
    eexists. reflexivity.
  - cbn [mbind option_bind Package.zip Package.disposable].
    eexists. reflexivity.
Qed.

Lemma texts_nil (rows : list Sheet.Row) :
  texts rows = []
  <-> Forall (Forall (fun cell => cell_text cell = None)) rows.
Proof.
  unfold texts. induction rows as [|cols rows IH].
  - split; [constructor | reflexivity].
  - cbn [map concat]. rewrite Forall_cons, <- IH. split.
    + intros [Hcols Hrows]%app_eq_nil. split; [| exact Hrows].
      clear -Hcols. induction cols as [|cell cols IHc]; [constructor |].
      rewrite omap_cell_text_cons in Hcols.
      destruct (cell_text cell) eqn:E; [discriminate |].
      constructor; [exact E | exact (IHc Hcols)].
    + intros [Hcols ->]. rewrite app_nil_r.
      induction Hcols as [|cell cols Hcell _ IHc]; [reflexivity |].
      now rewrite omap_cell_text_cons, Hcell.
Qed.

(** On a fresh table, generation leaves it empty exactly when no cell of
    the rows is a text cell. *)
Lemma fresh_table_empty (rows : list Sheet.Row) (path : string) :
  SharedStrings.size (snd (add_all (texts rows) (SharedStrings.new path))) = 0%nat
  <-> texts rows = [].
Proof.
  split.
  - intros Hsize. destruct (texts rows) as [|text rest] eqn:E; [reflexivity |].
    exfalso.
    assert (text ∈ SharedStrings.strings
                     (snd (add_all (text :: rest) (SharedStrings.new path))))
      as Hin.
    { apply add_all_elem_of; [apply consistent_new |]. right. left. }
    unfold SharedStrings.size in Hsize.
    apply length_zero_iff_nil in Hsize. rewrite Hsize in Hin.
    now apply elem_of_nil in Hin.
  - intros ->. reflexivity.
Qed.

(** On a table in a state [add] can leave it in, one text cell is enough
    for the table not to be empty after generation. *)
Lemma text_cell_fills_table (rows : list Sheet.Row) (strings : SharedStrings.t) :
  consistent strings -> texts rows <> [] ->
  (0 < SharedStrings.size (snd (add_all (texts rows) strings)))%nat.
Proof.
  intros Hc Htexts. destruct (texts rows) as [|text rest]; [congruence |].
  assert (text ∈ SharedStrings.strings (snd (add_all (text :: rest) strings)))
    as Hin by (apply add_all_elem_of; [exact Hc | right; left]).
  unfold SharedStrings.size.
  destruct (SharedStrings.strings (snd (add_all (text :: rest) strings)));
    [now apply elem_of_nil in Hin | simpl; lia].
Qed.

(** C3.  [build] always returns.  It generates the worksheet first, which
    hands the texts of the rows to the string table, and only then looks at
    the size of the table: the archive holds the fixed parts, the worksheet
    and, if and only if the table is not empty at that moment, the string
    table part, generated from the table as the worksheet left it.  With a
    fresh table, the part is absent exactly when no cell of any row is a
    text cell: absent if no text cell was ever added, present as soon as a
    row holds one; and on any table [add] can have produced, a row with a
    text cell makes the part present. *)
Theorem build_string_table_part (sheet : Sheet.t) (strings : SharedStrings.t)
    (fs : FileSystem) :
  let after := snd (Sheet.generate_writes Sheet.CHUNK_SIZE sheet strings) in
  after = snd (add_all (texts (Sheet.rows sheet)) strings)
  /\ (exists fs',
        build sheet strings fs
        = Some (fixed_parts
                  ++ [("xl/worksheets/sheet1.xml", worksheet_document sheet strings)]
                  ++ (if (0 <? SharedStrings.size after)%nat
                      then [("xl/sharedStrings.xml", sst_document after)]
                      else []),
                after, fs'))
  /\ string_table_part (built sheet strings fs)
     = (if (0 <? SharedStrings.size after)%nat
        then Some (sst_document after) else None)
  /\ (forall path,
        string_table_part (built sheet (SharedStrings.new path) fs) = None
        <-> Forall (Forall (fun cell => cell_text cell = None)) (Sheet.rows sheet))
  /\ (consistent strings -> texts (Sheet.rows sheet) <> [] ->
      string_table_part (built sheet strings fs) = Some (sst_document after)).
Proof.
  cbv zeta.
  assert (forall table,
            snd (Sheet.generate_writes Sheet.CHUNK_SIZE sheet table)
            = snd (add_all (texts (Sheet.rows sheet)) table)) as Hafter.
  { intros table.
    destruct (generate_writes_sheet Sheet.CHUNK_SIZE sheet table) as [_ ->].
    apply rows_loop_table. }
  assert (forall table,
            string_table_part (built sheet table fs)
            = (if (0 <? SharedStrings.size
                          (snd (add_all (texts (Sheet.rows sheet)) table)))%nat
               then Some (sst_document
                            (snd (add_all (texts (Sheet.rows sheet)) table)))
               else None)) as Hpart.
  { intros table. unfold built.
    destruct (build_eq sheet table fs) as [fs' ->]. cbv zeta.
    destruct (0 <? SharedStrings.size _)%nat; reflexivity. }
  rewrite Hafter. split; [reflexivity |].
  split; [apply build_eq |]. split; [apply Hpart |]. split.
  - intros path. rewrite Hpart, <- texts_nil, <- (fresh_table_empty _ path).
    destruct (Nat.ltb_spec 0 (SharedStrings.size
                (snd (add_all (texts (Sheet.rows sheet)) (SharedStrings.new path)))));
      split; try discriminate; try reflexivity; lia.
  - intros Hc Htexts. rewrite Hpart.
    pose proof (text_cell_fills_table _ _ Hc Htexts) as Hsize.
    apply Nat.ltb_lt in Hsize. now rewrite Hsize.
Qed.

End PackageFacts.

(** C3 on the rows Name, Age and John, 25 and a fresh table: the rows hold
    text cells, and the archive has its string table part. *)
Lemma build_string_table_part_witness :
  consistent (SharedStrings.new "sst.xml")
  /\ @texts utc_integers (Sheet.rows name_age_sheet) <> []
  /\ is_Some (string_table_part
                (@built utc_integers some_templates name_age_sheet
                   (SharedStrings.new "sst.xml") ∅)).
Proof.
  split; [apply consistent_new |]. split; [discriminate |].
  eexists.
  apply (proj2 (proj2 (proj2 (proj2
           (@build_string_table_part utc_integers some_templates
              name_age_sheet (SharedStrings.new "sst.xml") ∅)))));
    [apply consistent_new | discriminate].
Defined.

(** ** sheet.ts: column widths *)

Section WidthFacts.
Context `{Runtime}.

Lemma Map_get_set {V : Type} (i j : Z) (v : V) (m : list (Z * V)) :
  Map_get j (Map_set i v m) = if decide (i = j) then Some v else Map_get j m.
Proof.
  induction m as [|[k w] m IH]; cbn [Map_set Map_get].
  - reflexivity.
  - destruct (decide (k = i)) as [->|Hki]; cbn [Map_get].
    + destruct (decide (i = j)); reflexivity.
    + rewrite IH. destruct (decide (k = j)) as [->|Hkj]; [| reflexivity].
      now rewrite decide_False by congruence.
Qed.

Lemma Map_get_writes {V : Type} (j : Z) (writes : list (Z * V))
    (m : list (Z * V)) :
  Map_get j (foldl (fun m iw => Map_set (fst iw) (snd iw) m) m writes)
  = match last_write j writes with
    | Some w => Some w
    | None => Map_get j m
    end.
Proof.
  revert m. induction writes as [|[k v] writes IH]; intros m; [reflexivity |].
  cbn [foldl last_write fst snd]. rewrite IH, Map_get_set.
  destruct (last_write j writes); [reflexivity |].
  destruct (decide (k = j)); reflexivity.
Qed.

Lemma last_write_app {V : Type} (j : Z) (writes1 writes2 : list (Z * V)) :
  last_write j (writes1 ++ writes2)
  = match last_write j writes2 with
    | Some w => Some w
    | None => last_write j writes1
    end.
Proof.
  induction writes1 as [|[k v] writes1 IH]; cbn [app last_write].
  - now destruct (last_write j writes2).
  - rewrite IH. now destruct (last_write j writes2).
Qed.

Lemma sizes_loop_writes (elements : list Sheet.Element)
    (m : list (Z * Sheet.WidthArg)) :
  snd (Sheet.sizes_loop elements m)
  = foldl (fun m iw => Map_set (fst iw) (snd iw) m) m (pairs_before_throw elements).
Proof.
  revert m. induction elements as [|[index width|] rest IH]; intros m;
    [reflexivity | | reflexivity].
  cbn [Sheet.sizes_loop pairs_before_throw foldl fst snd]. apply IH.
Qed.

Lemma sizes_loop_completion (elements : list Sheet.Element)
    (m : list (Z * Sheet.WidthArg)) :
  fst (Sheet.sizes_loop elements m)
  = if forallb destructurable elements
    then Sheet.Normal else Sheet.Throw "TypeError".
Proof.
  revert m. induction elements as [|[index width|] rest IH]; intros m;
    [reflexivity | | reflexivity].
  cbn [Sheet.sizes_loop forallb destructurable andb]. apply IH.
Qed.

Lemma pairs_before_throw_app (before after : list Sheet.Element) :
  forallb destructurable before = true ->
  pairs_before_throw (before ++ after)
  = pairs_before_throw before ++ pairs_before_throw after.
Proof.
  induction before as [|[index width|] before IH]; intros Hall;
    [reflexivity | | discriminate].
  cbn [app pairs_before_throw]. now rewrite (IH Hall).
Qed.

Lemma setColumWidth_array (elements : list Sheet.Element)
    (width : Sheet.WidthArg) (sheet : Sheet.t) :
  Sheet.setColumWidth_run (Sheet.Array elements) width sheet
  = (fst (Sheet.sizes_loop elements (Sheet.columnWidths sheet)),
     Sheet.with_widths (snd (Sheet.sizes_loop elements (Sheet.columnWidths sheet)))
       sheet).
Proof.
  unfold Sheet.setColumWidth_run.
  now destruct (Sheet.sizes_loop elements (Sheet.columnWidths sheet)).
Qed.

(** A call does to the width map what its writes do, in their order, and
    touches nothing else. *)
Lemma setColumWidth_writes (call : Sheet.IndexOrSizes * Sheet.WidthArg)
    (sheet : Sheet.t) :
  Sheet.setColumWidth (fst call) (snd call) sheet
  = Sheet.with_widths
      (foldl (fun m iw => Map_set (fst iw) (snd iw) m)
         (Sheet.columnWidths sheet) (writes_of call))
      sheet.
Proof.
  destruct call as [[elements|index|] width]; cbn [fst snd].
  - unfold Sheet.setColumWidth. rewrite setColumWidth_array. cbn [snd].
    now rewrite sizes_loop_writes.
  - destruct sheet as [rows file widths]. destruct width; reflexivity.
  - destruct sheet as [rows file widths]. reflexivity.
Qed.

Lemma setColumWidth_all_get (calls : list (Sheet.IndexOrSizes * Sheet.WidthArg))
    (sheet : Sheet.t) (index : Z) :
  Map_get index (Sheet.columnWidths (setColumWidth_all calls sheet))
  = match last_write index (concat (map writes_of calls)) with
    | Some w => Some w
    | None => Map_get index (Sheet.columnWidths sheet)
    end.
Proof.
  unfold setColumWidth_all. revert sheet.
  induction calls as [|call calls IH]; intros sheet; [reflexivity |].
  cbn [foldl map concat]. rewrite IH, last_write_app, setColumWidth_writes.
  cbn [Sheet.with_widths Sheet.columnWidths]. rewrite Map_get_writes.
  destruct (last_write index (concat (map writes_of calls))); reflexivity.
Qed.

Lemma setColumWidth_all_rows (calls : list (Sheet.IndexOrSizes * Sheet.WidthArg))
    (sheet : Sheet.t) :
  Sheet.rows (setColumWidth_all calls sheet) = Sheet.rows sheet
  /\ Sheet.file (setColumWidth_all calls sheet) = Sheet.file sheet.
Proof.
  unfold setColumWidth_all. revert sheet.
  induction calls as [|call calls IH]; intros sheet; [split; reflexivity |].
  cbn [foldl]. destruct (IH (Sheet.setColumWidth (fst call) (snd call) sheet))
    as [-> ->].
  rewrite setColumWidth_writes. split; reflexivity.
Qed.

(** C8, amended.  After any sequence of [setColumWidth] calls, single or
    bulk, the width recorded for an index is the one the last write for that
    index gave, the pairs of a bulk call counting in list order, and the
    width the sheet had before if no write was for it; rows and file are
    untouched.  Two malformed calls are ignored, returning normally and
    leaving the sheet as it is: a first argument that is neither an array
    nor a number, and a numeric index whose width is not a number.  The
    elements of an array are not checked: a well-typed array returns
    normally and writes its pairs as they are; a pair whose width is not a
    number (or is missing) is stored all the same; and an element that
    cannot be destructured makes the call throw a [TypeError], the pairs
    before it having been stored and those after it not.  Setting column 0
    to 15 and then to 20 leaves it at 20, and so does the bulk call with the
    pairs (0, 15), (1, 10), (0, 20), which keeps column 0 in front. *)
Theorem setColumWidth_last_write_wins
    (calls : list (Sheet.IndexOrSizes * Sheet.WidthArg)) (sheet : Sheet.t)
    (index : Z) :
  Map_get index (Sheet.columnWidths (setColumWidth_all calls sheet))
  = match last_write index (concat (map writes_of calls)) with
    | Some w => Some w
    | None => Map_get index (Sheet.columnWidths sheet)
    end
  /\ Sheet.rows (setColumWidth_all calls sheet) = Sheet.rows sheet
  /\ Sheet.file (setColumWidth_all calls sheet) = Sheet.file sheet
  /\ (forall width,
        Sheet.setColumWidth_run Sheet.NoIndex width sheet = (Sheet.Normal, sheet))
  /\ (forall i width, (forall w, width <> Sheet.Width w) ->
        Sheet.setColumWidth_run (Sheet.Index i) width sheet = (Sheet.Normal, sheet))
  /\ (forall i w,
        Sheet.setColumWidth_run (Sheet.Index i) (Sheet.Width w) sheet
        = (Sheet.Normal,
           Sheet.with_widths (Map_set i (Sheet.Width w) (Sheet.columnWidths sheet))
             sheet))
  /\ (forall sizes width,
        fst (Sheet.setColumWidth_run (Sheet.Sizes sizes) width sheet) = Sheet.Normal
        /\ writes_of (Sheet.Sizes sizes, width)
           = map (fun iw => (fst iw, Sheet.Width (snd iw))) sizes)
  /\ (forall elements width,
        fst (Sheet.setColumWidth_run (Sheet.Array elements) width sheet)
        = if forallb destructurable elements
          then Sheet.Normal else Sheet.Throw "TypeError")
  /\ (forall i w width,
        Map_get i (Sheet.columnWidths
                     (Sheet.setColumWidth (Sheet.Array [Sheet.Pair i w]) width sheet))
        = Some w)
  /\ (forall before after width,
        forallb destructurable before = true ->
        Sheet.setColumWidth_run
          (Sheet.Array (before ++ Sheet.NotIterable :: after)) width sheet
        = (Sheet.Throw "TypeError",
           Sheet.setColumWidth (Sheet.Array before) width sheet))
  /\ Sheet.columnWidths
       (@setColumWidth_all utc_integers
          [ (Sheet.Index 0, @Sheet.Width utc_integers 15);
            (Sheet.Index 0, @Sheet.Width utc_integers 20) ]
          (Sheet.new "sheet.xml"))
     = [(0, @Sheet.Width utc_integers 20)]
  /\ Sheet.columnWidths
       (@setColumWidth_all utc_integers
          [ (@Sheet.Sizes utc_integers [(0, 15); (1, 10); (0, 20)], Sheet.NoWidth) ]
          (Sheet.new "sheet.xml"))
     = [(0, @Sheet.Width utc_integers 20); (1, @Sheet.Width utc_integers 10)].
Proof.
  split; [apply setColumWidth_all_get |].
  split; [apply setColumWidth_all_rows |].
  split; [apply setColumWidth_all_rows |].
  split; [reflexivity |].
  split.
  { intros i [w| |text] Hwidth; [now destruct (Hwidth w) | reflexivity..]. }
  split; [reflexivity |].
  split.
  { intros sizes width. unfold Sheet.Sizes.
    rewrite setColumWidth_array, sizes_loop_completion. cbn [fst writes_of].
    split.
    - induction sizes as [|[i w] sizes IH]; [reflexivity | exact IH].
    - induction sizes as [|[i w] sizes IH]; [reflexivity |].
      cbn [map pairs_before_throw fst snd]. now rewrite IH. }
  split.
  { intros elements width. rewrite setColumWidth_array. cbn [fst].
    apply sizes_loop_completion. }
  split.
  { intros i w width.
    rewrite (setColumWidth_writes (Sheet.Array [Sheet.Pair i w], width)).
    cbn [Sheet.with_widths Sheet.columnWidths writes_of pairs_before_throw
           foldl fst snd].
    rewrite Map_get_set. now rewrite decide_True. }
  split.
  { intros before after width Hall.
    unfold Sheet.setColumWidth. rewrite !setColumWidth_array. cbn [snd].
    rewrite sizes_loop_completion, !sizes_loop_writes, forallb_app, Hall.
    rewrite (pairs_before_throw_app _ _ Hall).
    cbn [forallb destructurable andb pairs_before_throw].
    now rewrite app_nil_r. }
  split; reflexivity.
Qed.

End WidthFacts.

(** C8 as stated fails.  The bulk call with the one-item pair [[5]], whose
    width is missing, is not ignored: it returns normally and stores
    [undefined] as the width of column 5, so that the width map changes and
    the worksheet carries that width; and the bulk call with the array
    [1, 2], whose elements are no pairs at all, is rejected with a
    [TypeError]. *)
Lemma malformed_sizes_not_ignored :
  let sheet := @Sheet.new utc_integers "sheet.xml" in
  let stored :=
    Sheet.setColumWidth (Sheet.Array [Sheet.Pair 5 Sheet.NoWidth]) Sheet.NoWidth
      sheet in
  Sheet.setColumWidth_run (Sheet.Array [Sheet.Pair 5 Sheet.NoWidth]) Sheet.NoWidth
    sheet
  = (Sheet.Normal, Sheet.with_widths [(5, Sheet.NoWidth)] sheet)
  /\ Sheet.columnWidths stored <> Sheet.columnWidths sheet
  /\ occurs ("<cols><col min=" +:+ dq +:+ "6" +:+ dq +:+ " max=" +:+ dq +:+ "6" +:+ dq +:+ " width=" +:+ dq +:+ "undefined" +:+ dq +:+ " customWidth=" +:+ dq +:+ "1" +:+ dq +:+ "/></cols>")
       (file_content
          (fst (Sheet.generate_writes Sheet.CHUNK_SIZE stored
                  (SharedStrings.new "sst.xml")))) = true
  /\ fst (Sheet.setColumWidth_run
            (Sheet.Array [Sheet.NotIterable; Sheet.NotIterable]) Sheet.NoWidth
            sheet)
     = Sheet.Throw "TypeError".
Proof.
  cbv zeta. split; [reflexivity |]. split; [discriminate |].
  split; [vm_compute; reflexivity | reflexivity].
Qed.

(** * Further properties *)

(** ** column.ts: the names as a numbering *)

Lemma append_last_inj (s1 s2 : string) (c1 c2 : ascii) :
  s1 +:+ String c1 "" = s2 +:+ String c2 "" -> s1 = s2 /\ c1 = c2.
Proof.
  revert s2. induction s1 as [|x s1 IH]; intros [|y s2] Heq.
  - rewrite !append_nil_l in Heq. now injection Heq.
  - rewrite append_nil_l, append_cons in Heq. injection Heq as _ Heq.
    destruct s2; discriminate.
  - rewrite append_nil_l, append_cons in Heq. injection Heq as _ Heq.
    destruct s1; discriminate.
  - rewrite !append_cons in Heq. injection Heq as -> Heq.
    destruct (IH _ Heq) as [-> ->]. split; reflexivity.
Qed.

Lemma length_append (s1 s2 : string) :
  String.length (s1 +:+ s2) = (String.length s1 + String.length s2)%nat.
Proof.
  induction s1 as [|c s1 IH]; [reflexivity |].
  rewrite append_cons. simpl. now rewrite IH.
Qed.

Lemma columnName_step (index : Z) :
  0 <= index ->
  columnName index
  = columnName (index / 26 - 1)
      +:+ String (fromCharCode (65 + index mod 26)) "".
Proof.
  intros Hpos. rewrite columnName_recurrence at 1.
  destruct (decide (0 <= index)); [| lia].
  rewrite fromCharCode_letter; [reflexivity |].
  apply Z.mod_pos_bound. lia.
Qed.

Lemma columnName_negative (index : Z) : index < 0 -> columnName index = "".
Proof.
  intros Hneg. rewrite columnName_recurrence.
  destruct (decide (0 <= index)); [lia | reflexivity].
Qed.

Lemma columnName_nonempty (index : Z) : 0 <= index -> columnName index <> "".
Proof.
  intros Hpos. rewrite columnName_step by exact Hpos.
  destruct (columnName (index / 26 - 1)); discriminate.
Qed.

Lemma fromCharCode_inj (r1 r2 : Z) :
  0 <= r1 < 26 -> 0 <= r2 < 26 ->
  fromCharCode (65 + r1) = fromCharCode (65 + r2) -> r1 = r2.
Proof.
  intros H1 H2 Heq. unfold fromCharCode in Heq.
  apply (f_equal N_of_ascii) in Heq.
  rewrite !N_ascii_embedding in Heq by lia. lia.
Qed.

(** X1.  Two different non-negative column indices never get the same
    name: [columnName] is one-to-one on the indices a sheet uses. *)
Theorem columnName_injective (a b : Z) :
  0 <= a -> 0 <= b -> columnName a = columnName b -> a = b.
Proof.
  remember (Z.to_nat a) as n eqn:Hn. revert a b Hn.
  induction n as [n IH] using lt_wf_ind. intros a b -> Ha Hb Heq.
  rewrite (columnName_step a Ha), (columnName_step b Hb) in Heq.
  apply append_last_inj in Heq as [Hprefix Hletter].
  apply fromCharCode_inj in Hletter; try (apply Z.mod_pos_bound; lia).
  assert (a / 26 = b / 26) as Hdiv.
  { assert (0 <= a / 26) by (apply Z.div_pos; lia).
    assert (0 <= b / 26) by (apply Z.div_pos; lia).
    destruct (decide (0 <= a / 26 - 1)) as [Ha'|Ha'];
      destruct (decide (0 <= b / 26 - 1)) as [Hb'|Hb'].
    - pose proof (div26_decreases a Ha).
      assert (a / 26 - 1 = b / 26 - 1)
        by (apply (IH (Z.to_nat (a / 26 - 1))); auto; lia).
      lia.
    - rewrite (columnName_negative (b / 26 - 1)) in Hprefix by lia.
      now apply columnName_nonempty in Hprefix.
    - rewrite (columnName_negative (a / 26 - 1)) in Hprefix by lia.
      symmetry in Hprefix. now apply columnName_nonempty in Hprefix.
    - lia. }
  rewrite (Z.div_mod a 26), (Z.div_mod b 26) by lia. congruence.
Qed.

(** X1 at the indices 701 and 26 * 27 - 1. *)
Lemma columnName_injective_witness :
  0 <= 701 /\ 0 <= 26 * 27 - 1 /\ 701 = 26 * 27 - 1.
Proof.
  split; [lia |]. split; [lia |].
  apply columnName_injective; [lia | lia | vm_compute; reflexivity].
Defined.

Lemma columnName_length_step (index : Z) :
  0 <= index ->
  String.length (columnName index)
  = S (String.length (columnName (index / 26 - 1))).
Proof.
  intros Hpos. rewrite columnName_step by exact Hpos.
  rewrite length_append. simpl. lia.
Qed.

Lemma string_forall_app (test : ascii -> bool) (s1 s2 : string) :
  string_forall test (s1 +:+ s2)
  = string_forall test s1 && string_forall test s2.
Proof.
  induction s1 as [|c s1 IH]; [reflexivity |].
  rewrite append_cons. simpl. now rewrite IH, andb_assoc.
Qed.

Lemma fromCharCode_upper (r : Z) :
  0 <= r < 26 -> is_upper (fromCharCode (65 + r)) = true.
Proof.
  intros Hr. unfold is_upper, fromCharCode.
  rewrite N_ascii_embedding by lia.
  apply andb_true_iff. split; apply N.leb_le; lia.
Qed.

(** X2.  A column name is made of upper-case letters only; it is empty
    exactly for a negative index; and it has one letter up to index 25, two
    from 26 to 701 (the range of the precomputed table) and three from 702
    to 18277. *)
Theorem columnName_shape (index : Z) :
  string_forall is_upper (columnName index) = true
  /\ (columnName index = "" <-> index < 0)
  /\ (0 <= index < 26 -> String.length (columnName index) = 1%nat)
  /\ (26 <= index < 702 -> String.length (columnName index) = 2%nat)
  /\ (702 <= index < 18278 -> String.length (columnName index) = 3%nat).
Proof.
  assert (forall i, 0 <= i < 26 -> String.length (columnName i) = 1%nat) as H1.
  { intros i Hi. rewrite columnName_length_step by lia.
    rewrite (columnName_negative (i / 26 - 1)); [reflexivity |].
    rewrite Z.div_small by lia. lia. }
  assert (forall i, 26 <= i < 702 -> String.length (columnName i) = 2%nat) as H2.
  { intros i Hi. rewrite columnName_length_step by lia.
    rewrite H1; [reflexivity |].
    assert (1 <= i / 26) by (apply Z.div_le_lower_bound; lia).
    assert (i / 26 < 27) by (apply Z.div_lt_upper_bound; lia). lia. }
  assert (forall i, 702 <= i < 18278 -> String.length (columnName i) = 3%nat) as H3.
  { intros i Hi. rewrite columnName_length_step by lia.
    rewrite H2; [reflexivity |].
    assert (27 <= i / 26) by (apply Z.div_le_lower_bound; lia).
    assert (i / 26 < 703) by (apply Z.div_lt_upper_bound; lia). lia. }
  split; [| split; [| auto]].
  - remember (Z.to_nat (index + 1)) as n eqn:Hn. revert index Hn.
    induction n as [n IH] using lt_wf_ind. intros index ->.
    destruct (decide (0 <= index)) as [Hpos|Hneg].
    + rewrite columnName_step by exact Hpos.
      rewrite string_forall_app. apply andb_true_iff. split.
      * pose proof (div26_decreases index Hpos).
        apply (IH (Z.to_nat (index / 26 - 1 + 1))); [lia | reflexivity].
      * simpl. rewrite fromCharCode_upper; [reflexivity |].
        apply Z.mod_pos_bound. lia.
    + now rewrite columnName_negative by lia.
  - split.
    + intros Hempty. destruct (decide (0 <= index)) as [Hpos|]; [| lia].
      now apply columnName_nonempty in Hempty.
    + apply columnName_negative.
Qed.

(** X2 at index 701, the last one of the precomputed table. *)
Lemma columnName_shape_witness :
  26 <= 701 < 702 /\ String.length (columnName 701) = 2%nat.
Proof.
  split; [lia |].
  apply (proj1 (proj2 (proj2 (proj2 (columnName_shape 701))))). lia.
Defined.

(** ** utils.ts: what escaped text is made of *)

Lemma special_class_false (char : ascii) :
  special_class char = false ->
  Ascii.eqb char "&" = false /\ Ascii.eqb char "<" = false
  /\ Ascii.eqb char ">" = false /\ Ascii.eqb char (ascii_of_nat 34) = false
  /\ Ascii.eqb char "'" = false /\ Ascii.eqb char (ascii_of_nat 92) = false.
Proof.
  unfold special_class. intros Hs.
  repeat (apply orb_false_iff in Hs as [Hs ?]). auto 10.
Qed.

(** The six characters of the second class, one by one. *)
Lemma special_class_true (char : ascii) :
  special_class char = true ->
  char = "&"%char \/ char = "<"%char \/ char = ">"%char
  \/ char = ascii_of_nat 34 \/ char = "'"%char \/ char = ascii_of_nat 92.
Proof.
  unfold special_class. intros Hs.
  repeat (apply orb_true_iff in Hs as [Hs | Hs]);
    apply Ascii.eqb_eq in Hs; auto 10.
Qed.

Lemma escapeXML_char_markup_free (char : ascii) :
  string_forall markup_free (escapeXML_char char) = true.
Proof.
  unfold escapeXML_char.
  destruct (control_class char) eqn:Hcontrol; [reflexivity |].
  destruct (special_class char) eqn:Hspecial.
  - apply special_class_true in Hspecial.
    destruct Hspecial as [-> | [-> | [-> | [-> | [-> | ->]]]]]; reflexivity.
  - apply special_class_false in Hspecial
      as (_ & Hlt & Hgt & Hquot & Hapos & Hbackslash).
    simpl. unfold markup_free.
    now rewrite Hcontrol, Hlt, Hgt, Hquot, Hapos, Hbackslash.
Qed.

Lemma escapeXML_char_escaped (char : ascii) (rest : string) :
  escaped rest -> escaped (escapeXML_char char +:+ rest).
Proof.
  intros Hrest. unfold escapeXML_char.
  destruct (control_class char) eqn:Hcontrol.
  - apply (escaped_char "?"); [reflexivity | exact Hrest].
  - destruct (special_class char) eqn:Hspecial.
    + apply special_class_true in Hspecial.
      destruct Hspecial as [-> | [-> | [-> | [-> | [-> | ->]]]]];
        try (apply escaped_entity; [simpl; tauto | exact Hrest]).
      change (ToString (entities (ascii_of_nat 92))) with "undefined".
      repeat (rewrite append_cons; apply escaped_char; [reflexivity |]).
      exact Hrest.
    + apply escaped_char; [| exact Hrest].
      unfold plain_char. now rewrite Hcontrol, Hspecial.
Qed.

(** X3.  Whatever the string, its escaped text holds no control byte and
    none of the characters less-than, greater-than, double quote, apostrophe
    and backslash, and every ampersand in it opens one of the five entities:
    the text cannot close the element it is written in, nor an attribute. *)
Theorem escapeXML_output_safe (value : string) :
  string_forall markup_free (escapeXML value) = true
  /\ escaped (escapeXML value).
Proof.
  induction value as [|char value [IHfree IHescaped]].
  - split; [reflexivity | constructor].
  - rewrite escapeXML_cons. split.
    + now rewrite string_forall_app, escapeXML_char_markup_free, IHfree.
    + apply escapeXML_char_escaped, IHescaped.
Qed.

Lemma escapeXML_char_length (char : ascii) :
  (1 <= String.length (escapeXML_char char))%nat.
Proof.
  unfold escapeXML_char.
  destruct (control_class char); [simpl; lia |].
  destruct (special_class char) eqn:Hspecial; [| simpl; lia].
  apply special_class_true in Hspecial.
  destruct Hspecial as [-> | [-> | [-> | [-> | [-> | ->]]]]]; simpl; lia.
Qed.

(** Escaping never shortens a string. *)
Lemma escapeXML_length (value : string) :
  (String.length value <= String.length (escapeXML value))%nat.
Proof.
  induction value as [|char value IH]; [reflexivity |].
  rewrite escapeXML_cons, length_append.
  pose proof (escapeXML_char_length char). simpl. lia.
Qed.

(** X4.  Escaping returns a string unchanged exactly when no character of
    it is a control byte or one of the six characters of the second class;
    any other string comes back different, and never shorter. *)
Theorem escapeXML_identity (value : string) :
  (escapeXML value = value <-> string_forall plain_char value = true)
  /\ (String.length value <= String.length (escapeXML value))%nat.
Proof.
  split; [| apply escapeXML_length].
  induction value as [|char value IH]; [split; reflexivity |].
  rewrite escapeXML_cons. cbn [string_forall]. unfold escapeXML_char, plain_char.
  destruct (control_class char) eqn:Hcontrol.
  - split; [| discriminate].
    rewrite append_cons, append_nil_l. intros [= <- _]. discriminate Hcontrol.
  - destruct (special_class char) eqn:Hspecial.
    + split; [| discriminate]. intros Heq. exfalso.
      apply special_class_true in Hspecial.
      destruct Hspecial as [-> | [-> | [-> | [-> | [-> | ->]]]]];
        try discriminate Heq.
      change (ToString (entities "&")) with "&amp;" in Heq.
      rewrite append_cons in Heq. injection Heq as Heq.
      apply (f_equal String.length) in Heq.
      rewrite length_append in Heq. pose proof (escapeXML_length value).
      simpl in Heq. lia.
    + rewrite append_cons, append_nil_l. simpl. rewrite <- IH.
      split; [now intros [= ->] | now intros ->].
Qed.

(** ** shared-strings.ts: one call of [add] *)

(** X5.  On a table in a state [add] can leave it in, a call of [add]
    returns an id below the new size, at which the table holds the string;
    every string already in the table keeps its position; the size grows by
    at most one; and the same call again returns the same id and changes
    nothing. *)
Theorem add_id_valid (table : SharedStrings.t) (str : string) :
  consistent table ->
  let id := fst (SharedStrings.add str table) in
  let table' := snd (SharedStrings.add str table) in
  (id < SharedStrings.size table')%nat
  /\ SharedStrings.strings table' !! id = Some str
  /\ (forall i s, SharedStrings.strings table !! i = Some s ->
                 SharedStrings.strings table' !! i = Some s)
  /\ (SharedStrings.size table <= SharedStrings.size table'
      <= S (SharedStrings.size table))%nat
  /\ SharedStrings.add str table' = (id, table')
  /\ consistent table'.
Proof.
  intros Hc. cbv zeta.
  pose proof (add_lookup table str Hc) as Hlookup.
  pose proof (consistent_add table str Hc) as Hc'.
  split; [apply lookup_lt_Some in Hlookup; exact Hlookup |].
  split; [exact Hlookup |]. split.
  { intros i s Hi. eapply prefix_lookup_Some; [exact Hi | apply add_prefix]. }
  split.
  { unfold SharedStrings.size.
    destruct (SharedStrings.stringIndexMap table !! str) as [index|] eqn:E.
    - rewrite (add_seen _ _ _ E). simpl. lia.
    - rewrite (add_unseen _ _ E). simpl. rewrite length_app. simpl. lia. }
  split; [| exact Hc'].
  apply add_seen. now apply Hc'.
Qed.

(** X5 on a fresh table. *)
Lemma add_id_valid_witness :
  consistent (SharedStrings.new "sst.xml")
  /\ SharedStrings.strings (snd (SharedStrings.add "a" (SharedStrings.new "sst.xml")))
       !! fst (SharedStrings.add "a" (SharedStrings.new "sst.xml")) = Some "a".
Proof.
  split; [apply consistent_new |].
  exact (proj1 (proj2 (add_id_valid (SharedStrings.new "sst.xml") "a"
                         (consistent_new _)))).
Defined.

(** ** sheet.ts: the ids written in the cells *)

Section ReferenceFacts.
Context `{Runtime}.

Lemma writeCell_text (ref : string) (cell : Sheet.Cell) (text : string)
    (strings : SharedStrings.t) :
  cell_text cell = Some text ->
  Sheet.writeCell ref cell strings
  = (shared_cell ref (fst (SharedStrings.add text strings)),
     snd (SharedStrings.add text strings)).
Proof.
  destruct cell; cbn [cell_text]; try discriminate; intros [= ->];
    cbn [Sheet.writeCell]; now destruct (SharedStrings.add text strings).
Qed.

Lemma writeCell_no_text (ref : string) (cell : Sheet.Cell)
    (strings strings' : SharedStrings.t) :
  cell_text cell = None ->
  Sheet.writeCell ref cell strings' 
  = (fst (Sheet.writeCell ref cell strings), strings').
Proof. destruct cell; cbn [cell_text]; try discriminate; reflexivity. Qed.


Lemma texts_cons (cols : Sheet.Row) (rows : list Sheet.Row) :
  texts (cols :: rows) = omap cell_text cols ++ texts rows.
Proof. reflexivity. Qed.



End ReferenceFacts.


(** ** sheet.ts: generating again, and sharing the table *)

Section RegenerationFacts.
Context `{Runtime}.

(** On a table that already holds the texts of a row at the positions the
    row's generation gave them, the row is written as before and the table
    is left alone. *)
Lemma cells_loop_again (row : string) (ci : Z) (cols : Sheet.Row)
    (strings later : SharedStrings.t) :
  consistent strings -> consistent later ->
  SharedStrings.strings (snd (add_all (omap cell_text cols) strings))
    `prefix_of` SharedStrings.strings later ->
  Sheet.cells_loop row ci cols later
  = (fst (Sheet.cells_loop row ci cols strings), later).
Proof.
  revert ci strings. induction cols as [|cell cols IH];
    intros ci strings Hc Hlater Hprefix; [reflexivity |].
  rewrite !cells_loop_cons. rewrite omap_cell_text_cons in Hprefix.
  destruct (cell_text cell) as [text|] eqn:Htext.
  - rewrite add_all_cons in Hprefix. cbn [snd] in Hprefix.
    rewrite (writeCell_text (Sheet.getExcelColumn ci +:+ row) cell text later Htext).
    rewrite (writeCell_text (Sheet.getExcelColumn ci +:+ row) cell text strings Htext).
    cbn [fst snd].
    assert (SharedStrings.add text later
            = (fst (SharedStrings.add text strings), later)) as Hadd.
    { apply add_seen, Hlater.
      eapply prefix_lookup_Some; [apply add_lookup, Hc |].
      etransitivity; [apply add_all_prefix | exact Hprefix]. }
    rewrite Hadd. cbn [fst snd].
    rewrite (IH (ci + 1) (snd (SharedStrings.add text strings)));
      [reflexivity | apply consistent_add, Hc | exact Hlater | exact Hprefix].
  - rewrite (writeCell_no_text _ _ strings later Htext).
    rewrite (writeCell_no_text _ _ strings strings Htext). cbn [fst snd].
    rewrite (IH (ci + 1) strings); [reflexivity | assumption..].
Qed.

Lemma rows_loop_again (startIndex i : Z) (rows : list Sheet.Row)
    (strings later : SharedStrings.t) :
  consistent strings -> consistent later ->
  SharedStrings.strings (snd (add_all (texts rows) strings))
    `prefix_of` SharedStrings.strings later ->
  Sheet.rows_loop startIndex i rows later
  = (fst (Sheet.rows_loop startIndex i rows strings), later).
Proof.
  revert i strings. induction rows as [|cols rows IH];
    intros i strings Hc Hlater Hprefix; [reflexivity |].
  pose proof (rows_loop_cons startIndex i cols rows later) as Hl.
  pose proof (rows_loop_cons startIndex i cols rows strings) as Hs.
  cbv zeta in Hl, Hs. rewrite Hl, Hs. clear Hl Hs.
  rewrite texts_cons, add_all_app in Hprefix. cbn [snd] in Hprefix.
  rewrite (cells_loop_again _ 0 cols strings later Hc Hlater).
  - cbn [fst snd]. rewrite (cells_loop_table _ 0 cols strings).
    rewrite (IH (i + 1) (snd (add_all (omap cell_text cols) strings)));
      [reflexivity | apply add_all_consistent, Hc | exact Hlater | exact Hprefix].
  - etransitivity; [apply add_all_prefix | exact Hprefix].
Qed.

Lemma generate_writes_consistent (size : positive) (sheet : Sheet.t)
    (strings : SharedStrings.t) :
  consistent strings ->
  consistent (snd (Sheet.generate_writes size sheet strings)).
Proof.
  intros Hc. destruct (generate_writes_sheet size sheet strings) as [_ ->].
  rewrite rows_loop_table. apply add_all_consistent, Hc.
Qed.

(** X7.  Once a sheet is generated, generating it again, with any batch
    size, against the table it filled or against that table grown by
    further [add] calls, gives the same document and leaves the table
    unchanged: the ids in a generated worksheet stay valid while the shared
    table only grows. *)
Theorem generation_repeatable (size : positive) (sheet : Sheet.t)
    (strings later : SharedStrings.t) :
  consistent strings -> consistent later ->
  SharedStrings.strings
    (snd (Sheet.generate_writes Sheet.CHUNK_SIZE sheet strings))
    `prefix_of` SharedStrings.strings later ->
  file_content (fst (Sheet.generate_writes size sheet later))
  = file_content (fst (Sheet.generate_writes Sheet.CHUNK_SIZE sheet strings))
  /\ snd (Sheet.generate_writes size sheet later) = later.
Proof.
  intros Hc Hlater Hprefix.
  destruct (generate_writes_sheet size sheet later) as [-> ->].
  destruct (generate_writes_sheet Sheet.CHUNK_SIZE sheet strings)
    as [Hdoc Htable].
  rewrite Hdoc. rewrite Htable, rows_loop_table in Hprefix.
  unfold worksheet_document.
  rewrite (rows_loop_again 0 0 (Sheet.rows sheet) strings later Hc Hlater Hprefix).
  split; reflexivity.
Qed.

(** X8.  Generation on a table in a state [add] can leave it in keeps the
    entries the table had, at their positions, and appends exactly the texts
    of the text cells that were not there yet, each once: afterwards the
    table has no repetition and holds a string exactly when it held it
    before or some text cell has it. *)
Theorem generated_table (sheet : Sheet.t) (strings : SharedStrings.t) :
  consistent strings ->
  let after := snd (Sheet.generate_writes Sheet.CHUNK_SIZE sheet strings) in
  consistent after
  /\ NoDup (SharedStrings.strings after)
  /\ SharedStrings.strings strings `prefix_of` SharedStrings.strings after
  /\ (forall x, x ∈ SharedStrings.strings after
               <-> x ∈ SharedStrings.strings strings
                   \/ x ∈ texts (Sheet.rows sheet))
  /\ SharedStrings.file after = SharedStrings.file strings.
Proof.
  intros Hc. cbv zeta.
  destruct (generate_writes_sheet Sheet.CHUNK_SIZE sheet strings) as [_ ->].
  rewrite rows_loop_table.
  pose proof (add_all_consistent (texts (Sheet.rows sheet)) strings Hc) as Hafter.
  split; [exact Hafter |]. split; [apply consistent_NoDup, Hafter |].
  split; [apply add_all_prefix |].
  split; [intros x; apply add_all_elem_of, Hc |].
  generalize (texts (Sheet.rows sheet)) as calls. clear.
  intros calls. revert strings. induction calls as [|str calls IH];
    intros strings; [reflexivity |].
  rewrite add_all_cons. cbn [snd]. rewrite IH. apply add_file.
Qed.

End RegenerationFacts.

(** X7 on the rows Name, Age and John, 25: generated a second time, one row
    to a batch, against the table a first generation filled. *)
Lemma generation_repeatable_witness :
  consistent (SharedStrings.new "sst.xml")
  /\ snd (Sheet.generate_writes 1 name_age_sheet
            (snd (Sheet.generate_writes Sheet.CHUNK_SIZE name_age_sheet
                    (SharedStrings.new "sst.xml"))))
     = snd (Sheet.generate_writes Sheet.CHUNK_SIZE name_age_sheet
              (SharedStrings.new "sst.xml")).
Proof.
  split; [apply consistent_new |].
  apply (@generation_repeatable utc_integers 1 name_age_sheet
           (SharedStrings.new "sst.xml")
           (snd (Sheet.generate_writes Sheet.CHUNK_SIZE name_age_sheet
                   (SharedStrings.new "sst.xml")))).
  - apply consistent_new.
  - apply (@generate_writes_consistent utc_integers), consistent_new.
  - reflexivity.
Defined.

(** X8 on the rows Name, Age and John, 25 and a fresh table. *)
Lemma generated_table_witness :
  consistent (SharedStrings.new "sst.xml")
  /\ NoDup (SharedStrings.strings
              (snd (Sheet.generate_writes Sheet.CHUNK_SIZE name_age_sheet
                      (SharedStrings.new "sst.xml")))).
Proof.
  split; [apply consistent_new |].
  apply (@generated_table utc_integers name_age_sheet
           (SharedStrings.new "sst.xml") (consistent_new _)).
Defined.

(** ** packing.ts: the temporary files *)

Lemma add_all_file (calls : list string) (table : SharedStrings.t) :
  SharedStrings.file (snd (add_all calls table)) = SharedStrings.file table.
Proof.
  revert table. induction calls as [|str calls IH]; intros table;
    [reflexivity |].
  rewrite add_all_cons. cbn [snd]. rewrite IH. apply add_file.
Qed.

Lemma settled_lookup (removed : string -> bool) (files : list string)
    (fs : FileSystem) (path : string) :
  settled removed (fs, files) !! path
  = if decide (path ∈ files /\ removed path = true) then None else fs !! path.
Proof.
  unfold settled. cbn [fst snd]. revert fs.
  induction files as [|file files IH]; intros fs; cbn [foldl].
  - rewrite decide_False; [reflexivity |]. intros [Hin _].
    now apply elem_of_nil in Hin.
  - rewrite IH. destruct (decide (path ∈ files /\ removed path = true))
      as [[Hin Hrem]|Hnot].
    + rewrite decide_True; [reflexivity |]. split; [now right | exact Hrem].
    + destruct (decide (path = file)) as [->|Hne].
      * destruct (removed file) eqn:E.
        -- rewrite lookup_delete, decide_True by reflexivity.
           rewrite decide_True; [reflexivity |]. split; [left | reflexivity].
        -- rewrite decide_False; [reflexivity |]. intros [_ ?]. discriminate.
      * assert ((if removed file then delete file fs else fs) !! path = fs !! path)
          as -> by (destruct (removed file); [| reflexivity];
                    rewrite lookup_delete; now rewrite decide_False).
        rewrite decide_False; [reflexivity |].
        intros [[?|?]%elem_of_cons ?]; [congruence | tauto].
Qed.

(** X9.  When [build] returns, it has handed over an unlink for the file of
    the worksheet and, if the string table part was generated, for the file
    of the string table, and for no other file; it has waited for none of
    them and learns of no failure.  Apart from these unlinks, the two files
    hold what was generated, the file of an empty string table has not been
    written, and every other file is as it was before the call.  From then
    on, a file is gone exactly when it is one of the two and its unlink has
    taken effect; one whose unlink has failed stays.  If both take effect,
    the temporary files are gone and every other file is as it was. *)
Theorem build_cleans_up `{Runtime} `{Templates} (sheet : Sheet.t)
    (strings : SharedStrings.t) (fs : FileSystem)
    (buffer : list (string * string)) (after : SharedStrings.t)
    (state : FileSystem * list string) :
  build sheet strings fs = Some (buffer, after, state) ->
  let generated := (0 <? SharedStrings.size after)%nat in
  snd state
  = Sheet.file sheet :: (if generated then [SharedStrings.file strings] else [])
  /\ (forall path,
        fst state !! path
        = if decide (generated = true /\ path = SharedStrings.file strings)
          then Some (sst_document after)
          else if decide (path = Sheet.file sheet)
               then Some (worksheet_document sheet strings)
               else fs !! path)
  /\ (forall removed path,
        settled removed state !! path
        = if decide (path ∈ snd state /\ removed path = true)
          then None else fst state !! path)
  /\ (forall path,
        settled (fun _ => true) state !! path
        = if decide (path = Sheet.file sheet) then None
          else if decide (path = SharedStrings.file strings)
               then (if generated then None else fs !! path)
               else fs !! path).
Proof.
  unfold build, Package.build.
  rewrite addMockFiles_new, generateSheetXML_eq, addFile_written.
  cbn [mbind option_bind Package.zip Package.disposable].
  destruct (0 <? SharedStrings.size _)%nat eqn:Hsize.
  - unfold SharedStrings.generateSharedStringsXML.
    rewrite addFile_written, generate_writes_content.
    cbn [mbind option_bind Package.zip Package.disposable].
    intros [= <- <- <-]. cbv zeta. rewrite Hsize, add_all_file.
    unfold Package.dispose. cbn [Package.disposable app fst snd].
    split; [reflexivity |]. split; [| split].
    + intros path. rewrite !lookup_insert.
      repeat case_decide; destruct_and?; try reflexivity; try congruence; naive_solver.
    + intros removed path. apply settled_lookup.
    + intros path. rewrite settled_lookup, !lookup_insert.
      case_decide as Hin.
      * destruct Hin as [Hin _].
        repeat case_decide; try reflexivity; exfalso; revert Hin;
          rewrite !elem_of_cons, elem_of_nil; intuition.
      * assert (~ path ∈ [Sheet.file sheet; SharedStrings.file strings]) as Hout by tauto.
        revert Hout. rewrite !not_elem_of_cons. intros Hout.
        repeat case_decide; try reflexivity; intuition congruence.
  - cbn [mbind option_bind Package.zip Package.disposable].
    intros [= <- <- <-]. cbv zeta. rewrite Hsize.
    unfold Package.dispose. cbn [Package.disposable app fst snd].
    split; [reflexivity |]. split; [| split].
    + intros path. rewrite !lookup_insert.
      repeat case_decide; destruct_and?; try reflexivity; try congruence;
        try discriminate; naive_solver.
    + intros removed path. apply settled_lookup.
    + intros path. rewrite settled_lookup, !lookup_insert.
      case_decide as Hin.
      * destruct Hin as [Hin _].
        repeat case_decide; try reflexivity; exfalso; revert Hin;
          rewrite !elem_of_cons, elem_of_nil; intuition.
      * assert (~ path ∈ [Sheet.file sheet]) as Hout by tauto.
        revert Hout. rewrite !not_elem_of_cons. intros Hout.
        repeat case_decide; try reflexivity; intuition congruence.
Qed.

(** X9 on the rows Name, Age and John, 25: both temporary files are being
    unlinked when [build] returns. *)
Lemma build_cleans_up_witness :
  exists buffer after state,
    @build utc_integers some_templates name_age_sheet
      (SharedStrings.new "sst.xml") ∅ = Some (buffer, after, state)
    /\ snd state = ["sheet.xml"; "sst.xml"].
Proof.
  let result :=
    eval vm_compute in
      (@build utc_integers some_templates name_age_sheet
         (SharedStrings.new "sst.xml") ∅) in
  match result with
  | Some (?buffer, ?after, ?state) =>
      assert (@build utc_integers some_templates name_age_sheet
                (SharedStrings.new "sst.xml") ∅ = Some (buffer, after, state))
        as Hbuild by (vm_compute; reflexivity);
      exists buffer, after, state; split; [exact Hbuild |];
      exact (proj1 (@build_cleans_up utc_integers some_templates name_age_sheet
                      (SharedStrings.new "sst.xml") ∅ buffer after state Hbuild))
  end.
Defined.

(** ** sheet.ts: the order of the column widths *)

Section WidthOrderFacts.
Context `{Runtime}.

Lemma Map_set_keys {V : Type} (k : Z) (v : V) (m : list (Z * V)) :
  map fst (Map_set k v m)
  = if decide (k ∈ map fst m) then map fst m else map fst m ++ [k].
Proof.
  induction m as [|[k' v'] m IH]; cbn [Map_set map fst].
  - rewrite decide_False by apply not_elem_of_nil. reflexivity.
  - destruct (decide (k' = k)) as [->|Hne]; cbn [map fst].
    + rewrite decide_True by left. reflexivity.
    + rewrite IH. destruct (decide (k ∈ map fst m)) as [Hin|Hnin].
      * rewrite decide_True by (now right). reflexivity.
      * rewrite decide_False; [reflexivity |].
        intros [Heq|Hin]%elem_of_cons; [congruence | contradiction].
Qed.

Lemma writes_keys {V : Type} (writes : list (Z * V)) (m : list (Z * V)) :
  NoDup (map fst m) ->
  NoDup (map fst (foldl (fun m iw => Map_set (fst iw) (snd iw) m) m writes))
  /\ map fst m
       `prefix_of` map fst (foldl (fun m iw => Map_set (fst iw) (snd iw) m) m writes)
  /\ (forall k,
        k ∈ map fst (foldl (fun m iw => Map_set (fst iw) (snd iw) m) m writes)
        <-> k ∈ map fst m \/ k ∈ map fst writes).
Proof.
  revert m. induction writes as [|[k v] writes IH]; intros m Hnodup.
  - cbn [foldl map]. split; [exact Hnodup |]. split; [reflexivity |].
    intros k. rewrite elem_of_nil. tauto.
  - cbn [foldl map fst snd].
    assert (NoDup (map fst (Map_set k v m))) as Hnodup'.
    { rewrite Map_set_keys. case_decide; [exact Hnodup |].
      apply NoDup_app. split; [exact Hnodup |]. split.
      - intros x Hx ->%list_elem_of_singleton. contradiction.
      - apply NoDup_singleton. }
    destruct (IH _ Hnodup') as (Hn & Hp & Hk).
    split; [exact Hn |]. split.
    + etransitivity; [| exact Hp]. rewrite Map_set_keys.
      case_decide; [reflexivity | now apply prefix_app_r].
    + intros x. rewrite Hk, Map_set_keys, elem_of_cons.
      case_decide as Hin.
      * split; [tauto |]. intros [? | [-> | ?]]; tauto.
      * rewrite elem_of_app, list_elem_of_singleton. tauto.
Qed.

(** X10.  The entries of the width map are kept one per column index, in
    the order in which the indices were first given a width: a sequence of
    [setColumWidth] calls never duplicates nor moves an index that is
    already there, only appends the new ones, and afterwards the map holds
    exactly the indices it held before and those the calls wrote. *)
Theorem column_width_order
    (calls : list (Sheet.IndexOrSizes * Sheet.WidthArg)) (sheet : Sheet.t) :
  NoDup (map fst (Sheet.columnWidths sheet)) ->
  let after := setColumWidth_all calls sheet in
  NoDup (map fst (Sheet.columnWidths after))
  /\ map fst (Sheet.columnWidths sheet)
       `prefix_of` map fst (Sheet.columnWidths after)
  /\ (forall k,
        k ∈ map fst (Sheet.columnWidths after)
        <-> k ∈ map fst (Sheet.columnWidths sheet)
            \/ k ∈ map fst (concat (map writes_of calls))).
Proof.
  cbv zeta. unfold setColumWidth_all. revert sheet.
  induction calls as [|call calls IH]; intros sheet Hnodup.
  - cbn [foldl map concat]. split; [exact Hnodup |]. split; [reflexivity |].
    intros k. rewrite elem_of_nil. tauto.
  - cbn [foldl map concat]. rewrite setColumWidth_writes.
    destruct (writes_keys (writes_of call) (Sheet.columnWidths sheet) Hnodup)
      as (Hn & Hp & Hk).
    destruct (IH (Sheet.with_widths
                    (foldl (fun m iw => Map_set (fst iw) (snd iw) m)
                       (Sheet.columnWidths sheet) (writes_of call)) sheet) Hn)
      as (Hn' & Hp' & Hk').
    cbn [Sheet.with_widths Sheet.columnWidths] in Hp', Hk'.
    split; [exact Hn' |]. split; [etransitivity; eassumption |].
    intros k. rewrite Hk', Hk, map_app, elem_of_app. tauto.
Qed.

(** ** sheet.ts: the row buffer *)

(** X11.  Whatever the sequence of [addRow] and [addRows] calls, the buffer
    afterwards is the buffer before followed by the rows given, in the order
    of the calls, so [rowsCount] grows by their number; the width map and
    the file are untouched, and setting a width before or after adding rows
    makes no difference. *)
Theorem row_buffer_appends (ops : list RowOp) (sheet : Sheet.t) :
  Sheet.rows (foldl apply_row_op sheet ops)
  = Sheet.rows sheet ++ concat (map rows_of_op ops)
  /\ Sheet.rowsCount (foldl apply_row_op sheet ops)
     = (Sheet.rowsCount sheet + length (concat (map rows_of_op ops)))%nat
  /\ Sheet.columnWidths (foldl apply_row_op sheet ops) = Sheet.columnWidths sheet
  /\ Sheet.file (foldl apply_row_op sheet ops) = Sheet.file sheet
  /\ (forall indexOrSizes width,
        Sheet.setColumWidth indexOrSizes width (foldl apply_row_op sheet ops)
        = foldl apply_row_op (Sheet.setColumWidth indexOrSizes width sheet) ops).
Proof.
  assert (Sheet.rows (foldl apply_row_op sheet ops)
          = Sheet.rows sheet ++ concat (map rows_of_op ops)
          /\ Sheet.columnWidths (foldl apply_row_op sheet ops)
             = Sheet.columnWidths sheet
          /\ Sheet.file (foldl apply_row_op sheet ops) = Sheet.file sheet)
    as (Hrows & Hwidths & Hfile).
  { revert sheet. induction ops as [|op ops IH]; intros sheet.
    - cbn [foldl map concat]. now rewrite app_nil_r.
    - cbn [foldl map concat]. destruct (IH (apply_row_op sheet op)) as (-> & -> & ->).
      destruct op; cbn [apply_row_op rows_of_op Sheet.addRow Sheet.addRows
                          Sheet.rows Sheet.columnWidths Sheet.file];
        now rewrite <- app_assoc. }
  split; [exact Hrows |].
  split; [unfold Sheet.rowsCount; now rewrite Hrows, length_app |].
  split; [exact Hwidths |]. split; [exact Hfile |].
  intros indexOrSizes width. clear. revert sheet.
  induction ops as [|op ops IH]; intros sheet; [reflexivity |].
  cbn [foldl]. rewrite IH. f_equal.
  destruct op; rewrite !(setColumWidth_writes (indexOrSizes, width)); reflexivity.
Qed.

End WidthOrderFacts.

(** X10 on a new sheet. *)
Lemma column_width_order_witness :
  NoDup (map fst (Sheet.columnWidths (@Sheet.new utc_integers "sheet.xml")))
  /\ NoDup (map fst (Sheet.columnWidths
                       (@setColumWidth_all utc_integers
                          [ (@Sheet.Sizes utc_integers [(2, 15); (0, 10); (2, 20)],
                             Sheet.NoWidth) ]
                          (Sheet.new "sheet.xml")))).
Proof.
  split; [apply NoDup_nil_2 |].
  apply (@column_width_order utc_integers), NoDup_nil_2.
Defined.

(** ** utils.ts: serial numbers and whole days *)

Section SerialFacts.
Context `{Runtime}.

(** On a whole number of days the doubles make no error: every
    intermediate result is an integer below [2 ^ 53]. *)
Lemma serial_units_whole_days (n : Z) :
  Z.abs n * DAY_MS < 2 ^ 53 ->
  serial_units (EPOCH + n * DAY_MS) = n * 100000.
Proof.
  intros Hn.
  assert (DAY_MS = 86400000) as Hday by reflexivity.
  assert (2 ^ 53 = 9007199254740992) as E53 by reflexivity.
  unfold serial_units, Binary64.multiply, Binary64.divide, Binary64.subtract.
  transitivity (Math_round (inject_Z (n * 100000))); [| apply Math_round_Z].
  apply Math_round_comp.
  assert (Binary64.round (inject_Z (EPOCH + n * DAY_MS) - inject_Z EPOCH)
          == inject_Z (n * DAY_MS))%Q as ->.
  { rewrite inject_Z_minus.
    replace (EPOCH + n * DAY_MS - EPOCH) with (n * DAY_MS) by lia.
    apply round_inject_Z. rewrite Z.abs_mul. lia. }
  assert (inject_Z (n * DAY_MS) / inject_Z DAY_MS == inject_Z n)%Q as ->.
  { rewrite inject_Z_mult, Hday. field. }
  rewrite (round_inject_Z n) by lia.
  rewrite <- inject_Z_mult. apply round_inject_Z. rewrite Z.abs_mul. lia.
Qed.

(** X12.  A time value a whole number of days from the epoch has that
    number as its serial, with no fraction and no rounding error, before
    the epoch as after it, as long as the time is less than [2 ^ 53]
    milliseconds from the epoch, which every date is; and a later time
    value never has a smaller serial.  The arithmetic is that of the
    doubles. *)
Theorem serial_whole_days (time n : Z) :
  (Z.abs n * DAY_MS < 2 ^ 53 ->
   (convertToExcelDate (EPOCH + n * DAY_MS) == inject_Z n)%Q)
  /\ (forall later, time <= later ->
        (convertToExcelDate time <= convertToExcelDate later)%Q).
Proof.
  split.
  - intros Hn. rewrite convertToExcelDate_units, (serial_units_whole_days n Hn).
    assert (inject_Z (n * 100000) / 100000 == inject_Z n)%Q as ->
      by (rewrite inject_Z_mult; field).
    apply round_inject_Z.
    assert (DAY_MS = 86400000) as Hday by reflexivity. lia.
  - intros later Hle.
    unfold convertToExcelDate, Binary64.divide, Binary64.multiply,
      Binary64.subtract.
    apply round_monotone. apply Qmult_le_compat_r; [| discriminate].
    rewrite <- Zle_Qle. apply Math_round_monotone.
    apply round_monotone. apply Qmult_le_compat_r; [| discriminate].
    apply round_monotone. apply Qmult_le_compat_r; [| discriminate].
    apply round_monotone. rewrite !inject_Z_minus, <- Zle_Qle. lia.
Qed.

(** X13.  A date a whole, non-negative number of days after the epoch, and
    less than [2 ^ 53] milliseconds after it, as every date is, is written
    with that number as its value, in plain decimal digits without a
    fraction. *)
Theorem whole_day_text (ref : string) (n : Z) (strings : SharedStrings.t) :
  0 <= n -> n * DAY_MS < 2 ^ 53 ->
  date_text (Some (EPOCH + n * DAY_MS)) = Z_toString n
  /\ Sheet.writeCell ref (Sheet.CDate (Some (EPOCH + n * DAY_MS))) strings
     = ("<c r=" +:+ quoted ref +:+ " s=" +:+ quoted "1" +:+ "><v>"
          +:+ Z_toString n +:+ "</v></c>", strings).
Proof.
  intros Hn Hrange.
  assert (date_text (Some (EPOCH + n * DAY_MS)) = Z_toString n) as Htext.
  { rewrite date_text_units
      by (replace (EPOCH + n * DAY_MS - EPOCH) with (n * DAY_MS) by lia;
          rewrite Z.abs_eq by (unfold DAY_MS; lia); exact Hrange).
    rewrite serial_units_whole_days by (rewrite Z.abs_eq by lia; exact Hrange).
    unfold hundred_thousandths.
    rewrite Z.abs_eq, Z.div_mul, Z.mod_mul by lia.
    destruct (Z.ltb_spec (n * 100000) 0) as [Hneg|_]; [lia |].
    cbn [Z.eqb]. now rewrite append_nil_l, append_nil_r. }
  split; [exact Htext |].
  cbn [Sheet.writeCell]. now rewrite Htext.
Qed.

End SerialFacts.

(** X12 on a host on UTC: noon of 31 January 2024 is not before its
    midnight. *)
Lemma serial_whole_days_witness :
  1706659200000 <= 1706702400000
  /\ (@convertToExcelDate utc_integers 1706659200000
      <= @convertToExcelDate utc_integers 1706702400000)%Q.
Proof.
  split; [lia |].
  apply (proj2 (@serial_whole_days utc_integers 1706659200000 0)). lia.
Defined.

(** X13 on a host on UTC: day 45322 is 31 January 2024. *)
Lemma whole_day_text_witness :
  0 <= 45322 /\ 45322 * DAY_MS < 2 ^ 53
  /\ @date_text utc_integers (Some (@EPOCH utc_integers + 45322 * DAY_MS))
     = Z_toString 45322.
Proof.
  split; [lia |]. split; [reflexivity |].
  apply (@whole_day_text utc_integers "C2" 45322 (SharedStrings.new "sst.xml"));
    [lia | reflexivity].
Defined.

(** ** shared-strings.ts and sheet.ts: the number of writes *)

Lemma concat_length_uniform {A : Type} (n : nat) (groups : list (list A)) :
  Forall (fun group => length group = n) groups ->
  length (concat groups) = (n * length groups)%nat.
Proof.
  induction 1 as [|group groups Hgroup _ IH]; cbn [concat length]; [lia |].
  rewrite length_app, IH, Hgroup. lia.
Qed.

(** X14.  The string table is written in two writes plus one for every
    full batch of 5000 entries: the header, [size / 5000] batches, and a last
    write with the entries left over and the closing tag. *)
Theorem shared_strings_write_count (table : SharedStrings.t) :
  length (SharedStrings.generate_writes 5000 table)
  = (2 + SharedStrings.size table / 5000)%nat.
Proof.
  unfold SharedStrings.generate_writes, SharedStrings.size.
  destruct (entries_loop_batches 5000 (SharedStrings.strings table) []
              (write (SharedStrings.header table) []))
    as (groups & last & Heq & Hsplit & Hall & Hlast); [lia | simpl; lia |].
  change (map SharedStrings.entry []) with (@nil string) in Heq.
  rewrite Heq. unfold write.
  rewrite !length_app, length_map. cbn [length app].
  cbn [app] in Hsplit. rewrite Hsplit, length_app.
  rewrite (concat_length_uniform 5000 groups Hall).
  rewrite (Nat.mul_comm 5000), Nat.div_add_l by lia.
  rewrite (Nat.div_small (length last)) by exact Hlast. lia.
Qed.

Section WriteCountFacts.
Context `{Runtime}.

Lemma chunks_loop_count (size : positive) (rows : list Sheet.Row) (i : nat)
    (ws : WriteStream) (strings : SharedStrings.t) :
  length (fst (Sheet.chunks_loop size rows i ws strings))
  = (length ws
     + (length rows - i + Pos.to_nat size - 1) / Pos.to_nat size)%nat.
Proof.
  remember (length rows - i)%nat as n eqn:Hn.
  revert i ws strings Hn.
  induction n as [n IH] using lt_wf_ind. intros i ws strings ->.
  rewrite chunks_loop_step.
  set (k := Pos.to_nat size) in *.
  assert (0 < k)%nat as Hk by (subst k; lia).
  destruct (decide (i < length rows)%nat) as [Hlt|Hge].
  - rewrite writeChunk_eq. cbn [fst snd].
    rewrite (IH (length rows - (i + k))%nat ltac:(lia) (i + k)%nat _ _ eq_refl).
    unfold write. rewrite length_app. cbn [length].
    destruct (decide (i + k <= length rows)%nat) as [Hfull|Hpart].
    + replace (length rows - i + k - 1)%nat
        with (length rows - (i + k) + k - 1 + 1 * k)%nat by lia.
      rewrite Nat.div_add by lia. lia.
    + replace (length rows - (i + k) + k - 1)%nat with (k - 1)%nat by lia.
      rewrite (Nat.div_small (k - 1)) by lia.
      rewrite <- (Nat.div_unique (length rows - i + k - 1) k 1
                    (length rows - i - 1)) by lia.
      lia.
  - cbn [fst]. replace (length rows - i + k - 1)%nat with (k - 1)%nat by lia.
    rewrite Nat.div_small by lia. lia.
Qed.

(** X15.  The worksheet is written in one write for the header, one for
    the column widths when any is set, one for the opening of the sheet
    data, one for each batch of rows, of which there are the row count
    divided by the batch size, rounded up, and one for the closing tags; a
    sheet without rows writes no batch. *)
Theorem worksheet_write_count (size : positive) (sheet : Sheet.t)
    (strings : SharedStrings.t) :
  length (fst (Sheet.generate_writes size sheet strings))
  = (3 + (if (0 <? length (Sheet.columnWidths sheet))%nat then 1 else 0)
     + (Sheet.rowsCount sheet + Pos.to_nat size - 1) / Pos.to_nat size)%nat.
Proof.
  unfold Sheet.generate_writes, Sheet.rowsCount.
  match goal with
  | |- context [Sheet.chunks_loop size (Sheet.rows sheet) 0 ?ws strings] =>
      pose proof (chunks_loop_count size (Sheet.rows sheet) 0 ws strings)
        as Hcount;
      destruct (Sheet.chunks_loop size (Sheet.rows sheet) 0 ws strings)
        as [ws' strings']
  end.
  cbn [fst] in *. unfold write in *. rewrite length_app, Hcount.
  rewrite Nat.sub_0_r.
  destruct (0 <? length (Sheet.columnWidths sheet))%nat;
    rewrite !length_app; cbn [length]; lia.
Qed.

End WriteCountFacts.

(** ** sheet.ts and shared-strings.ts: the order of the table *)

Lemma add_all_strings (calls : list string) (table : SharedStrings.t) :
  consistent table ->
  SharedStrings.strings (snd (add_all calls table))
  = SharedStrings.strings table
      ++ filter (fun y => y ∉ SharedStrings.strings table)
           (first_occurrences calls).
Proof.
  revert table. induction calls as [|x calls IH]; intros table Hc.
  - cbn [add_all snd first_occurrences]. now rewrite filter_nil, app_nil_r.
  - rewrite add_all_cons. cbn [snd first_occurrences].
    rewrite IH by (apply consistent_add, Hc).
    destruct (SharedStrings.stringIndexMap table !! x) as [index|] eqn:E.
    + rewrite (add_seen _ _ _ E). cbn [snd].
      assert (x ∈ SharedStrings.strings table) as Hin
        by (apply Hc in E; eapply list_elem_of_lookup_2, E).
      rewrite filter_cons_False by (intros Hn; exact (Hn Hin)). f_equal.
      rewrite list_filter_filter. apply list_filter_iff.
      intros y. cbv beta. split; [| now intros [Hy _]].
      intros Hy. split; [exact Hy | intros ->; exact (Hy Hin)].
    + rewrite (add_unseen _ _ E). cbn [snd SharedStrings.strings].
      assert (x ∉ SharedStrings.strings table) as Hnotin
        by (now apply consistent_absent).
      rewrite filter_cons_True by exact Hnotin.
      rewrite <- app_assoc. cbn [app]. do 2 f_equal.
      rewrite list_filter_filter. apply list_filter_iff.
      intros y. cbv beta. rewrite elem_of_app, list_elem_of_singleton. tauto.
Qed.

Section TableOrderFacts.
Context `{Runtime}.

(** X16.  Generated on a fresh table, a sheet leaves in the table the
    distinct texts of its text cells in the order in which they first
    appear, row by row and left to right, so that the id of a text is the
    number of distinct texts that appear before it; on a table that already
    has entries, these stay in front and only the texts not among them are
    appended, in that order. *)
Theorem generated_table_order (sheet : Sheet.t) (strings : SharedStrings.t)
    (path : string) :
  SharedStrings.strings
    (snd (Sheet.generate_writes Sheet.CHUNK_SIZE sheet (SharedStrings.new path)))
  = first_occurrences (texts (Sheet.rows sheet))
  /\ (consistent strings ->
      SharedStrings.strings
        (snd (Sheet.generate_writes Sheet.CHUNK_SIZE sheet strings))
      = SharedStrings.strings strings
          ++ filter (fun y => y ∉ SharedStrings.strings strings)
               (first_occurrences (texts (Sheet.rows sheet)))).
Proof.
  assert (forall table, consistent table ->
            SharedStrings.strings
              (snd (Sheet.generate_writes Sheet.CHUNK_SIZE sheet table))
            = SharedStrings.strings table
                ++ filter (fun y => y ∉ SharedStrings.strings table)
                     (first_occurrences (texts (Sheet.rows sheet)))) as Hgen.
  { intros table Hc.
    destruct (generate_writes_sheet Sheet.CHUNK_SIZE sheet table) as [_ ->].
    rewrite rows_loop_table. apply add_all_strings, Hc. }
  split; [| apply Hgen].
  rewrite Hgen by apply consistent_new. clear Hgen.
  cbn [SharedStrings.new SharedStrings.strings app].
  induction (first_occurrences (texts (Sheet.rows sheet))) as [|x l IH];
    [reflexivity |].
  rewrite filter_cons_True by apply not_elem_of_nil. now rewrite IH.
Qed.

(** A sheet without text cells is written without a look at the table. *)
Lemma rows_loop_no_text (startIndex i : Z) (rows : list Sheet.Row)
    (strings strings' : SharedStrings.t) :
  texts rows = [] ->
  Sheet.rows_loop startIndex i rows strings'
  = (fst (Sheet.rows_loop startIndex i rows strings), strings').
Proof.
  revert i. induction rows as [|cols rows IH]; intros i Htexts; [reflexivity |].
  rewrite texts_cons in Htexts. apply app_eq_nil in Htexts as [Hcols Hrows].
  assert (forall ci table,
            Sheet.cells_loop (Z_toString (startIndex + i + 1)) ci cols table
            = (fst (Sheet.cells_loop (Z_toString (startIndex + i + 1)) ci cols
                      strings), table)) as Hcells.
  { clear -Hcols. induction cols as [|cell cols IHc]; intros ci table;
      [reflexivity |].
    rewrite omap_cell_text_cons in Hcols.
    destruct (cell_text cell) eqn:Htext; [discriminate |].
    rewrite !cells_loop_cons.
    rewrite (writeCell_no_text _ _ strings table Htext).
    rewrite (writeCell_no_text _ _ strings strings Htext). cbn [fst snd].
    rewrite (IHc Hcols (ci + 1) table), (IHc Hcols (ci + 1) strings).
    reflexivity. }
  pose proof (rows_loop_cons startIndex i cols rows strings') as Hl.
  pose proof (rows_loop_cons startIndex i cols rows strings) as Hs.
  cbv zeta in Hl, Hs. rewrite Hl, Hs. clear Hl Hs.
  rewrite (Hcells 0 strings'), (Hcells 0 strings). cbn [fst snd].
  rewrite (IH (i + 1) Hrows). reflexivity.
Qed.

(** X17.  A sheet none of whose cells is a text cell never touches the
    string table, whatever state the table is in, and its document is the
    same whatever table it is given: numbers, dates and empty cells are
    encoded from the cell and its position alone. *)
Theorem text_free_sheet (size : positive) (sheet : Sheet.t)
    (strings strings' : SharedStrings.t) :
  texts (Sheet.rows sheet) = [] ->
  snd (Sheet.generate_writes size sheet strings) = strings
  /\ file_content (fst (Sheet.generate_writes size sheet strings))
     = file_content (fst (Sheet.generate_writes size sheet strings')).
Proof.
  intros Htexts.
  destruct (generate_writes_sheet size sheet strings) as [-> ->].
  destruct (generate_writes_sheet size sheet strings') as [-> _].
  unfold worksheet_document.
  rewrite (rows_loop_no_text 0 0 _ strings' strings Htexts). cbn [fst snd].
  split; reflexivity.
Qed.

End TableOrderFacts.

(** X16 on a table that already holds John: Name and Age are appended. *)
Lemma generated_table_order_witness :
  consistent (snd (SharedStrings.add "John" (SharedStrings.new "sst.xml")))
  /\ SharedStrings.strings
       (snd (Sheet.generate_writes Sheet.CHUNK_SIZE name_age_sheet
               (snd (SharedStrings.add "John" (SharedStrings.new "sst.xml")))))
     = ["John"; "Name"; "Age"].
Proof.
  split; [apply consistent_add, consistent_new |].
  rewrite (proj2 (@generated_table_order utc_integers name_age_sheet
                    (snd (SharedStrings.add "John" (SharedStrings.new "sst.xml")))
                    "sst.xml"))
    by apply consistent_add, consistent_new.
  vm_compute. reflexivity.
Defined.

(** X17 on a sheet with one row of a number and an empty cell. *)
Lemma text_free_sheet_witness :
  @texts utc_integers
    (Sheet.rows (Sheet.addRow [@Sheet.CNumber utc_integers 7; Sheet.CNull]
                   (Sheet.new "sheet.xml"))) = []
  /\ snd (Sheet.generate_writes 1
            (Sheet.addRow [@Sheet.CNumber utc_integers 7; Sheet.CNull]
               (Sheet.new "sheet.xml"))
            (snd (SharedStrings.add "kept" (SharedStrings.new "sst.xml"))))
     = snd (SharedStrings.add "kept" (SharedStrings.new "sst.xml")).
Proof.
  split; [reflexivity |].
  apply (@text_free_sheet utc_integers 1 _ _ (SharedStrings.new "sst.xml")).
  reflexivity.
Defined.
